(** * Specialist: a verification development for [specialist.py]

    The program visualises which instructions of a CPython 3.11 program were
    specialised by the adaptive interpreter.  This file embeds its analysis
    pipeline: the [Stats] counters, the instruction classifier
    [score_instruction], the sweep over source positions [parse], the registry
    lookup [get_code_for_path], and the HTML renderer ([HTMLWriter], [view]).

    Conventions of the embedding:
    - Python [int] is [Z]; a source position [(line, column)] is [Z * Z],
      compared lexicographically as Python compares tuples;
    - Python [str] is [string] for instruction names and file names, and a
      list of Unicode code points for the text that is rendered;
    - a [dict] is a [gmap]; a raised exception is the [Raise] branch of
      [result];
    - Python [float] is IEEE 754 binary64, given by [spec_float] of the
      Standard Library with 53 bits of precision and rounding to nearest
      even. *)

From Stdlib Require Import ZArith Lia String Ascii.
From Stdlib Require Import Floats.SpecFloat.
From Stdlib Require Import Numbers.HexadecimalString Numbers.HexadecimalZ.
From Stdlib Require Import QArith Qpower Lqa.
From stdpp Require Import base decidable option list sorting gmap strings.

Local Open Scope Z_scope.
#[local] Set Warnings "-clear-no-such-hyp".

(** ** Exceptions *)

Inductive exception : Type :=
  | IndexError
  | StopIteration
  | AssertionError
  | ZeroDivisionError
  | OverflowError
  | ValueError
  | FileNotFoundError
  | OSError.

Inductive result (A : Type) : Type :=
  | Ok (a : A)
  | Raise (e : exception).
Arguments Ok {A} a.
Arguments Raise {A} e.

Global Instance result_fmap : FMap result := fun _ _ f r =>
  match r with
  | Ok a => Ok (f a)
  | Raise e => Raise e
  end.
Global Instance result_ret : MRet result := fun _ a => Ok a.
Global Instance result_bind : MBind result := fun _ _ k r =>
  match r with
  | Ok a => k a
  | Raise e => Raise e
  end.

(** ** Stats *)

Record Stats : Type := mkStats {
  specialized : Z;
  adaptive : Z;
  unquickened : Z
}.

(** [Stats()] *)
Definition Stats0 : Stats := mkStats 0 0 0.

(** [Stats.__add__] *)
Definition Stats_add (self other : Stats) : Stats :=
  mkStats (specialized self + specialized other)
          (adaptive self + adaptive other)
          (unquickened self + unquickened other).

(** [Stats.__sub__] *)
Definition Stats_sub (self other : Stats) : Stats :=
  mkStats (specialized self - specialized other)
          (adaptive self - adaptive other)
          (unquickened self - unquickened other).

Declare Scope stats_scope.
Delimit Scope stats_scope with stats.
Bind Scope stats_scope with Stats.
Infix "+" := Stats_add : stats_scope.
Infix "-" := Stats_sub : stats_scope.

(** ** Instructions and the classifier *)

(** The fields of [dis.Instruction] that the program reads. *)
Record Instruction : Type := mkInstruction {
  opname : string;
  offset : nat;
  is_jump_target : bool
}.

(** [needle in haystack] for Python strings. *)
Fixpoint str_contains (needle haystack : string) : bool :=
  String.prefix needle haystack ||
  match haystack with
  | EmptyString => false
  | String _ rest => str_contains needle rest
  end.

(** [s.endswith(suffix)] *)
Definition endswith (s suffix : string) : bool :=
  let n := String.length s in
  let k := String.length suffix in
  (k <=? n)%nat && String.eqb (String.substring (n - k) k s) suffix.

(** [is_superinstruction] *)
Definition is_superinstruction (instruction : Instruction) : bool :=
  str_contains "__" (opname instruction).

Section Classifier.

(** [SPECIALIZED_INSTRUCTIONS = frozenset(opcode._specialized_instructions)]:
    the table comes from the interpreter, so it is a parameter here. *)
Variable SPECIALIZED_INSTRUCTIONS : gset string.

(** [score_instruction] *)
Definition score_instruction
    (instruction : Instruction) (previous : option Instruction) : Stats :=
  if bool_decide (opname instruction ∈ SPECIALIZED_INSTRUCTIONS) then
    if endswith (opname instruction) "_ADAPTIVE" then
      mkStats 0 1 0
    else
      mkStats 1 0 0
  else
    match previous with
    | Some prev =>
        if is_superinstruction prev && negb (is_jump_target instruction) then
          mkStats 1 0 0
        else
          mkStats 0 0 1
    | None => mkStats 0 0 1
    end.

End Classifier.

(** ** Source positions *)

(** A position is the tuple [(line, column)]; Python orders tuples
    lexicographically. *)
Definition pos_lt (p q : Z * Z) : Prop :=
  p.1 < q.1 ∨ (p.1 = q.1 ∧ p.2 < q.2).
Definition pos_le (p q : Z * Z) : Prop :=
  p.1 < q.1 ∨ (p.1 = q.1 ∧ p.2 ≤ q.2).

Global Instance pos_lt_dec p q : Decision (pos_lt p q).
Proof. unfold pos_lt. apply _. Defined.
Global Instance pos_le_dec p q : Decision (pos_le p q).
Proof. unfold pos_le. apply _. Defined.

(** [sys.maxsize] of a 64-bit CPython build. *)
Definition maxsize : Z := 9223372036854775807.

Definition FIRST_POSTION : Z * Z := (1, 0).
Definition LAST_POSITION : Z * Z := (maxsize, 0).

(** ** Code objects *)

(** The parts of [types.CodeType] that the program reads.  A constant of
    [co_consts] that is not a code object is [None].  [co_positions] is the
    list [list(code.co_positions())]; [get_instructions] is the list
    [dis.get_instructions(code, adaptive=True)], which the interpreter
    provides. *)
#[warnings="-register-all"]
Inductive CodeType : Type := mkCode {
  co_name : string;
  co_filename : string;
  co_consts : list (option CodeType);
  co_positions : list (option Z * option Z * option Z * option Z);
  get_instructions : list Instruction
}.

(** [walk_code] *)
Fixpoint walk_code (code : CodeType) : list CodeType :=
  code ::
  (fix walk_consts (consts : list (option CodeType)) : list CodeType :=
     match consts with
     | [] => []
     | Some constant :: consts => walk_code constant ++ walk_consts consts
     | None :: consts => walk_consts consts
     end) (co_consts code).

(** ** The sweep over positions *)

Record SourceChunk : Type := mkSourceChunk {
  start : Z * Z;
  stop : Z * Z;
  stats : Stats
}.

(** [events[key] += stats] on a [defaultdict(Stats)]: a missing key reads as
    [Stats()], and the key is stored whatever the sum is. *)
Definition events_iadd (events : gmap (Z * Z) Stats) (key : Z * Z)
    (stats : Stats) : gmap (Z * Z) Stats :=
  <[key := (default Stats0 (events !! key) + stats)%stats]> events.

(** [events[key] -= stats] *)
Definition events_isub (events : gmap (Z * Z) Stats) (key : Z * Z)
    (stats : Stats) : gmap (Z * Z) Stats :=
  <[key := (default Stats0 (events !! key) - stats)%stats]> events.

(** Left fold of a step that may raise. *)
Fixpoint foldM {A B} (f : B -> A -> result B) (b : B) (l : list A) : result B :=
  match l with
  | [] => Ok b
  | a :: l => b' ← f b a; foldM f b' l
  end.

(** The order of the items [(position, delta)] of the dictionary: positions
    are distinct keys, so the comparison is decided by the positions. *)
Definition item_le (x y : (Z * Z) * Stats) : Prop := pos_le x.1 y.1.

Global Instance item_le_dec x y : Decision (item_le x y).
Proof. unfold item_le. apply _. Defined.

(** [sorted(events.items())] *)
Definition sorted_items (events : gmap (Z * Z) Stats) : list ((Z * Z) * Stats) :=
  merge_sort item_le (map_to_list events).

(** The last loop of [parse]: walk [itertools.pairwise] of the sorted items
    with the running [stats]. *)
Fixpoint sweep (stats : Stats) (items : list ((Z * Z) * Stats)) : list SourceChunk :=
  match items with
  | (start, event) :: rest =>
      match rest with
      | (stop, _) :: _ =>
          let stats := (stats + event)%stats in
          mkSourceChunk start stop stats :: sweep stats rest
      | [] => []
      end
  | [] => []
  end.

Section Parse.

Variable SPECIALIZED_INSTRUCTIONS : gset string.

(** The body of the inner loop of [parse], on the state
    [(events, previous)]. *)
Definition parse_instruction
    (fixed_positions : list (option Z * option Z * option Z * option Z))
    (state : gmap (Z * Z) Stats * option Instruction)
    (instruction : Instruction)
    : result (gmap (Z * Z) Stats * option Instruction) :=
  let '(events, previous) := state in
  match fixed_positions !! (offset instruction / 2)%nat with
  | None => Raise IndexError
  | Some (lineno, end_lineno, col_offset, end_col_offset) =>
      match lineno, end_lineno, col_offset, end_col_offset with
      | Some lineno, Some end_lineno, Some col_offset, Some end_col_offset =>
          let stats :=
            score_instruction SPECIALIZED_INSTRUCTIONS instruction previous in
          let events := events_iadd events (lineno, col_offset) stats in
          let events := events_isub events (end_lineno, end_col_offset) stats in
          Ok (events, Some instruction)
      | _, _, _, _ => Ok (events, Some instruction)
      end
  end.

(** The body of the outer loop of [parse]. *)
Definition parse_child
    (state : gmap (Z * Z) Stats * option Instruction) (child : CodeType)
    : result (gmap (Z * Z) Stats * option Instruction) :=
  let fixed_positions := co_positions child in
  foldM (parse_instruction fixed_positions) state (get_instructions child).

(** [parse]: the generator runs both loops before its first [yield], so
    an exception of the loops is raised before any chunk is produced. *)
Definition parse (code : CodeType) : result (list SourceChunk) :=
  let events : gmap (Z * Z) Stats := ∅ in
  let events := <[FIRST_POSTION := Stats0]> events in
  let events := <[LAST_POSITION := Stats0]> events in
  let previous : option Instruction := None in
  '(events, _) ← foldM parse_child (events, previous) (walk_code code);
  Ok (sweep Stats0 (sorted_items events)).

End Parse.

(** ** Python strings and floats

    The rendered text is a list of Unicode code points. *)

Abbreviation pystr := (list N).

(** A literal of the program. *)
Definition lit (s : string) : pystr :=
  N_of_ascii <$> list_ascii_of_string s.

Abbreviation float := spec_float.

Definition fadd : float -> float -> float := SFadd 53 1024.
Definition fsub : float -> float -> float := SFsub 53 1024.
Definition fmul : float -> float -> float := SFmul 53 1024.
Definition fdiv : float -> float -> float := SFdiv 53 1024.
Definition fneg : float -> float := SFopp.
Definition fltb : float -> float -> bool := SFltb.
Definition fleb : float -> float -> bool := SFleb.

Definition is_infinity (x : float) : bool :=
  match x with
  | S754_infinity _ => true
  | _ => false
  end.

(** [float(n)] for an [int]: the nearest float, [OverflowError] beyond the
    range of floats. *)
Definition float_of_int (n : Z) : result float :=
  let x := binary_normalize 53 1024 n 0 false in
  if is_infinity x then Raise OverflowError else Ok x.

(** [a / b] for two [int]s: the nearest float to the quotient. *)
Definition int_truediv (a b : Z) : result float :=
  match a, b with
  | _, Z0 => Raise ZeroDivisionError
  | Z0, _ => Ok (S754_zero (b <? 0))
  | _, _ =>
      let x := SFdiv 53 1024 (S754_finite (a <? 0) (Z.to_pos (Z.abs a)) 0)
                             (S754_finite (b <? 0) (Z.to_pos (Z.abs b)) 0) in
      if is_infinity x then Raise OverflowError else Ok x
  end.

(** [x * n] for a [float] and an [int]. *)
Definition fmul_int (x : float) (n : Z) : result float :=
  y ← float_of_int n; Ok (fmul x y).

(** [x / n] for a [float] and an [int]. *)
Definition fdiv_int (x : float) (n : Z) : result float :=
  y ← float_of_int n;
  match y with
  | S754_zero _ => Raise ZeroDivisionError
  | _ => Ok (fdiv x y)
  end.

(** [max(a, b)]: the first argument unless the second is greater. *)
Definition pymax (a b : float) : float := if fltb a b then b else a.

(** The float literal [n.0] for a small integer [n]. *)
Definition float_lit (n : Z) : float := binary_normalize 53 1024 n 0 false.

Definition float_half : float := fdiv (float_lit 1) (float_lit 2).

(** [x % 1.0]: the fractional part of [x] with the sign of [x], moved into
    [[0, 1)] by adding 1.0 when it is negative. *)
Definition fmod_1 (x : float) : float :=
  match x with
  | S754_nan | S754_infinity _ => S754_nan
  | S754_zero _ => S754_zero false
  | S754_finite s m e =>
      let r := if 0 <=? e then 0 else Z.pos m mod 2 ^ (- e) in
      if r =? 0 then S754_zero false
      else
        let frac := binary_normalize 53 1024 (if s then - r else r) e false in
        if s then fadd frac (float_lit 1) else frac
  end.

(** [int(x)] for a [float]: truncation towards zero. *)
Definition int_of_float (x : float) : result Z :=
  match x with
  | S754_nan => Raise ValueError
  | S754_infinity _ => Raise OverflowError
  | S754_zero _ => Ok 0
  | S754_finite s m e =>
      let n := if 0 <=? e then Z.pos m * 2 ^ e else Z.pos m / 2 ^ (- e) in
      Ok (if s then - n else n)
  end.

(** [format(n, "02x")] *)
Definition format_02x (n : Z) : string :=
  let digits := NilZero.string_of_int (Z.to_hex_int n) in
  if (0 <=? n) && (String.length digits <? 2)%nat
  then String "0" digits else digits.

(** ** [colorsys.hls_to_rgb] of the Python library *)

Definition ONE_THIRD : float := fdiv (float_lit 1) (float_lit 3).
Definition ONE_SIXTH : float := fdiv (float_lit 1) (float_lit 6).
Definition TWO_THIRD : float := fdiv (float_lit 2) (float_lit 3).

Definition _v (m1 m2 hue : float) : float :=
  let hue := fmod_1 hue in
  if fltb hue ONE_SIXTH then
    fadd m1 (fmul (fmul (fsub m2 m1) hue) (float_lit 6))
  else if fltb hue float_half then
    m2
  else if fltb hue TWO_THIRD then
    fadd m1 (fmul (fmul (fsub m2 m1) (fsub TWO_THIRD hue)) (float_lit 6))
  else
    m1.

Definition hls_to_rgb (h l s : float) : float * float * float :=
  if SFeqb s (float_lit 0) then (l, l, l)
  else
    let m2 := if fleb l float_half
              then fmul l (fadd (float_lit 1) s)
              else fsub (fadd l s) (fmul l s) in
    let m1 := fsub (fmul (float_lit 2) l) m2 in
    (_v m1 m2 (fadd h ONE_THIRD), _v m1 m2 h, _v m1 m2 (fsub h ONE_THIRD)).

(** ** The HTML writer *)

Record HTMLWriter : Type := mkHTMLWriter {
  _blue : bool;
  _dark : bool;
  _parts : list pystr
}.

(** [HTMLWriter.__init__] *)
Definition HTMLWriter_init (blue dark : bool) : HTMLWriter :=
  let '(background_color, color) :=
    if dark then (lit "black", lit "white") else (lit "white", lit "black") in
  {| _blue := blue;
     _dark := dark;
     _parts :=
       [ lit "<!doctype html>";
         lit "<html>";
         lit "<body style='background-color:" ++ background_color ++
           lit ";color:" ++ color ++ lit "'>";
         lit "<pre>" ] |}.

(** [HTMLWriter._color] *)
Definition _color (self : HTMLWriter) (stats : Stats) : result pystr :=
  let quickened := specialized stats + adaptive stats in
  if quickened =? 0 then Ok (lit "#ffffff")
  else
    third ← int_truediv 1 3;
    hue ← fmul_int third (specialized stats);
    hue ← fdiv_int hue quickened;
    let hue := if _blue self then fneg hue else hue in
    half ← int_truediv 1 2;
    ratio ← int_truediv (unquickened stats) (quickened + unquickened stats);
    let lightness := pymax half ratio in
    saturation ← float_of_int 1;
    let '(r, g, b) := hls_to_rgb hue lightness saturation in
    r ← int_of_float (fmul (float_lit 255) r);
    g ← int_of_float (fmul (float_lit 255) g);
    b ← int_of_float (fmul (float_lit 255) b);
    Ok (lit "#" ++ lit (format_02x r) ++ lit (format_02x g) ++ lit (format_02x b)).

(** [str.replace(old, new)] for a pattern [old] of one character. *)
Definition replace_char (old : N) (new : pystr) (s : pystr) : pystr :=
  s ≫= (λ c, if (c =? old)%N then new else [c]).

(** [html.escape] of the Python library, with [quote=True]. *)
Definition html_escape (s : pystr) : pystr :=
  let s := replace_char 38 (lit "&amp;") s in
  let s := replace_char 60 (lit "&lt;") s in
  let s := replace_char 62 (lit "&gt;") s in
  let s := replace_char 34 (lit "&quot;") s in
  let s := replace_char 39 (lit "&#x27;") s in
  s.

(** [HTMLWriter.add] *)
Definition add (self : HTMLWriter) (source : pystr) (stats : Stats)
    : result HTMLWriter :=
  color ← _color self stats;
  let attribute := if _dark self then lit "color" else lit "background-color" in
  let source := html_escape source in
  let source :=
    if decide (color ≠ lit "#ffffff")
    then lit "<span style='" ++ attribute ++ lit ":" ++ color ++ lit "'>" ++
         source ++ lit "</span>"
    else source in
  Ok {| _blue := _blue self; _dark := _dark self;
        _parts := _parts self ++ [source] |}.

(** [HTMLWriter.emit]: the page, and the writer with its parts cleared. *)
Definition emit (self : HTMLWriter) : pystr * HTMLWriter :=
  let parts := _parts self ++ [lit "</pre>"; lit "</body>"; lit "</html>"] in
  (concat parts, {| _blue := _blue self; _dark := _dark self; _parts := [] |}).

(** ** The registry of captured code objects

    [CODE] is a Python [set].  It is modelled by the list of its elements in
    the order in which the set is iterated; that order is fixed by the hash
    table, so adding an element may put it anywhere and may reorder the
    others.  The set tells its elements apart by Python's [==] on code
    objects, which the interpreter decides: it compares the name, the
    constants, the line table and the bytecode without its specializations,
    and neither the file name nor the state of the specializations.  That
    comparison is the parameter [code_eq]. *)

Inductive pyobject : Type :=
  | ObjCode (code : CodeType)
  | ObjOther.

(** The code object that the pattern of [audit_imports] binds, if the event
    matches. *)
Definition audit_imports_match (event : string) (args : list pyobject)
    : option CodeType :=
  match args with
  | [ObjCode code] =>
      if String.eqb event "exec" && String.eqb (co_name code) "<module>"
      then Some code else None
  | _ => None
  end.

Section Registry.

Variable code_eq : CodeType -> CodeType -> Prop.

(** [CODE.add(code)]: nothing changes when an equal element is in the set;
    otherwise [code] joins the elements. *)
Definition set_add (CODE : list CodeType) (code : CodeType)
    (CODE' : list CodeType) : Prop :=
  ((∃ c, c ∈ CODE ∧ code_eq c code) ∧ CODE' = CODE) ∨
  ((∀ c, c ∈ CODE -> ¬ code_eq c code) ∧ Permutation CODE' (code :: CODE)).

(** [audit_imports] *)
Definition audit_imports (CODE : list CodeType) (event : string)
    (args : list pyobject) (CODE' : list CodeType) : Prop :=
  match audit_imports_match event args with
  | Some code => set_add CODE code CODE'
  | None => CODE' = CODE
  end.

End Registry.

(** [path.samefile(other)]: [os.stat] of both paths, compared by device and
    inode.  [stat] is the file system. *)
Definition samefile (stat : string -> result (N * N)) (path other : string)
    : result bool :=
  st ← stat path;
  other_st ← stat other;
  Ok (bool_decide (st = other_st)).

(** [get_code_for_path] *)
Fixpoint get_code_for_path (stat : string -> result (N * N)) (path : string)
    (CODE : list CodeType) : result (option CodeType) :=
  match CODE with
  | [] => Ok None
  | code :: CODE =>
      match samefile stat path (co_filename code) with
      | Ok true => Ok (Some code)
      | Ok false => get_code_for_path stat path CODE
      | Raise FileNotFoundError => get_code_for_path stat path CODE
      | Raise e => Raise e
      end
  end.

(** ** [view] *)

(** The lines that iterating over a text file yields: each line keeps its
    newline. *)
Fixpoint readlines_from (line : pystr) (text : pystr) : list pystr :=
  match text with
  | [] => match line with [] => [] | _ => [line] end
  | c :: text =>
      if (c =? 10)%N then (line ++ [c]) :: readlines_from [] text
      else readlines_from (line ++ [c]) text
  end.

Definition readlines (text : pystr) : list pystr := readlines_from [] text.

(** The loops of [view] call [writer.add]; they are written over any
    writer, so that they can also be run with a writer that only records the
    runs it is given. *)

Section ViewLoops.

Context {W : Type}.
Variable writer_add : W -> pystr -> Stats -> result W.

(** The variables of the loops of [view]. *)
Record view_state : Type := mkViewState {
  vs_writer : W;
  vs_chunk : SourceChunk;
  vs_parser : list SourceChunk;
  vs_group : pystr
}.

(** The body of the inner loop of [view]. *)
Definition view_character (st : view_state) (lineno col_offset : Z)
    (character : N) : result view_state :=
  st ← (if decide (stop (vs_chunk st) = (lineno, col_offset)) then
          writer ← writer_add (vs_writer st) (vs_group st) (stats (vs_chunk st));
          match vs_parser st with
          | [] => Raise StopIteration
          | chunk :: parser =>
              if decide (start chunk = (lineno, col_offset))
              then Ok (mkViewState writer chunk parser [])
              else Raise AssertionError
          end
        else Ok st);
  Ok (mkViewState (vs_writer st) (vs_chunk st) (vs_parser st)
        (vs_group st ++ [character])).

(** [for col_offset, character in enumerate(line)] *)
Fixpoint view_line (st : view_state) (lineno col_offset : Z) (line : pystr)
    : result view_state :=
  match line with
  | [] => Ok st
  | character :: line =>
      st ← view_character st lineno col_offset character;
      view_line st lineno (col_offset + 1) line
  end.

(** [for lineno, line in enumerate(file, 1)] *)
Fixpoint view_file (st : view_state) (lineno : Z) (file : list pystr)
    : result view_state :=
  match file with
  | [] => Ok st
  | line :: file =>
      st ← view_line st lineno 0 line;
      view_file st (lineno + 1) file
  end.

(** [view] from the first [next(parser)] to the last [writer.add]. *)
Definition view_loop (writer : W) (chunks : list SourceChunk) (text : pystr)
    : result W :=
  match chunks with
  | [] => Raise StopIteration
  | chunk :: parser =>
      st ← view_file (mkViewState writer chunk parser []) 1 (readlines text);
      writer_add (vs_writer st) (vs_group st) (stats (vs_chunk st))
  end.

End ViewLoops.

Arguments view_state : clear implicits.

(** The page that [view] builds from the chunks of [parse(code)] and the
    text of the file. *)
Definition view_chunks (chunks : list SourceChunk) (text : pystr)
    (blue dark : bool) : result pystr :=
  writer ← view_loop add (HTMLWriter_init blue dark) chunks text;
  Ok (emit writer).1.

(** A writer that records each run with its colour. *)
Definition add_run (blue : bool) (runs : list (pystr * pystr))
    (source : pystr) (stats : Stats) : result (list (pystr * pystr)) :=
  color ← _color (mkHTMLWriter blue false []) stats;
  Ok (runs ++ [(source, color)]).

(** The runs of [view]: the text and the colour of every call of
    [writer.add]. *)
Definition view_runs (chunks : list SourceChunk) (text : pystr) (blue : bool)
    : result (list (pystr * pystr)) :=
  view_loop (add_run blue) [] chunks text.

Section View.

Variable SPECIALIZED_INSTRUCTIONS : gset string.
(** The file system: [os.stat] and the text of a file. *)
Variable stat : string -> result (N * N).
Variable open : string -> result pystr.

(** [view]: the result is the page that is handed to [browse].  The first
    [next(parser)] runs the loops of [parse], before the file is opened;
    [open path] is the text of the file as Python reads it. *)
Definition view (CODE : list CodeType) (path : string) (blue dark : bool)
    : result pystr :=
  code ← get_code_for_path stat path CODE;
  match code with
  | None => Raise AssertionError
  | Some code =>
      chunks ← parse SPECIALIZED_INSTRUCTIONS code;
      match chunks with
      | [] => Raise StopIteration
      | _ => text ← open path; view_chunks chunks text blue dark
      end
  end.

End View.

(** ** Reading a page back *)

Fixpoint starts_with (prefix s : pystr) : bool :=
  match prefix, s with
  | [], _ => true
  | p :: prefix, c :: s => (p =? c)%N && starts_with prefix s
  | _ :: _, [] => false
  end.

(** The character reference of [html.escape] that starts [s], as the
    character it stands for and its length. *)
Definition reference_at (s : pystr) : option (N * nat) :=
  if starts_with (lit "&amp;") s then Some (38%N, 5%nat)
  else if starts_with (lit "&lt;") s then Some (60%N, 4%nat)
  else if starts_with (lit "&gt;") s then Some (62%N, 4%nat)
  else if starts_with (lit "&quot;") s then Some (34%N, 6%nat)
  else if starts_with (lit "&#x27;") s then Some (39%N, 6%nat)
  else None.

(** [html.unescape], for the five character references that [html.escape]
    writes; [skip] characters of a reference are still to be dropped. *)
Fixpoint unescape_from (skip : nat) (s : pystr) : pystr :=
  match s with
  | [] => []
  | c :: rest =>
      match skip with
      | S skip => unescape_from skip rest
      | O =>
          match reference_at s with
          | Some (character, len) => character :: unescape_from (pred len) rest
          | None => c :: unescape_from 0 rest
          end
      end
  end.

Definition html_unescape (s : pystr) : pystr := unescape_from 0 s.

(** The text of a page: everything outside the tags [<...>]. *)
Fixpoint strip_from (in_tag : bool) (s : pystr) : pystr :=
  match s with
  | [] => []
  | c :: s =>
      if in_tag then strip_from (negb (c =? 62)%N) s
      else if (c =? 60)%N then strip_from true s
      else c :: strip_from false s
  end.

Definition strip_tags (page : pystr) : pystr := strip_from false page.

(** The part that [HTMLWriter.add] appends for a run, given its colour. *)
Definition rendered_run (dark : bool) (run : pystr * pystr) : pystr :=
  let '(source, color) := run in
  if decide (color ≠ lit "#ffffff")
  then lit "<span style='" ++ (if dark then lit "color" else lit "background-color") ++
       lit ":" ++ color ++ lit "'>" ++ html_escape source ++ lit "</span>"
  else html_escape source.

(** The page of a list of runs. *)
Definition page_of (dark : bool) (runs : list (pystr * pystr)) : pystr :=
  concat ([ lit "<!doctype html>";
            lit "<html>";
            lit "<body style='background-color:" ++
              (if dark then lit "black" else lit "white") ++ lit ";color:" ++
              (if dark then lit "white" else lit "black") ++ lit "'>";
            lit "<pre>" ] ++
          (rendered_run dark <$> runs) ++
          [ lit "</pre>"; lit "</body>"; lit "</html>" ]).

(** ** Observations: what the loops of [parse] register

    The two loops of [parse] turn every instruction with a complete position
    into a scored span and register it in [events].  The definitions below
    name that intermediate list, so that the sweep can be stated over any list
    of scored spans. *)

Record Observation : Type := mkObservation {
  obs_start : Z * Z;
  obs_stop : Z * Z;
  obs_stats : Stats
}.

(** The two updates of [events] for one scored span. *)
Definition register (events : gmap (Z * Z) Stats) (o : Observation)
    : gmap (Z * Z) Stats :=
  events_isub (events_iadd events (obs_start o) (obs_stats o))
              (obs_stop o) (obs_stats o).

(** [events] before the loops: the two sentinels. *)
Definition initial_events : gmap (Z * Z) Stats :=
  <[LAST_POSITION := Stats0]> (<[FIRST_POSTION := Stats0]> ∅).

(** The sweep of [parse] over a list of scored spans. *)
Definition synthesize (obs : list Observation) : list SourceChunk :=
  sweep Stats0 (sorted_items (foldl register initial_events obs)).

Section Observe.

Variable SPECIALIZED_INSTRUCTIONS : gset string.

(** The scored span of one instruction, if its position is complete. *)
Definition observe
    (fixed_positions : list (option Z * option Z * option Z * option Z))
    (previous : option Instruction) (instruction : Instruction)
    : result (option Observation) :=
  match fixed_positions !! (offset instruction / 2)%nat with
  | None => Raise IndexError
  | Some (Some lineno, Some end_lineno, Some col_offset, Some end_col_offset) =>
      Ok (Some (mkObservation (lineno, col_offset) (end_lineno, end_col_offset)
                  (score_instruction SPECIALIZED_INSTRUCTIONS instruction previous)))
  | Some _ => Ok None
  end.

Fixpoint observe_instructions
    (fixed_positions : list (option Z * option Z * option Z * option Z))
    (previous : option Instruction) (instructions : list Instruction)
    : result (list Observation * option Instruction) :=
  match instructions with
  | [] => Ok ([], previous)
  | instruction :: rest =>
      o ← observe fixed_positions previous instruction;
      '(os, previous) ← observe_instructions fixed_positions (Some instruction) rest;
      Ok (option_list o ++ os, previous)
  end.

Fixpoint observe_children (previous : option Instruction)
    (children : list CodeType) : result (list Observation * option Instruction) :=
  match children with
  | [] => Ok ([], previous)
  | child :: rest =>
      '(os1, previous) ← observe_instructions (co_positions child) previous
                           (get_instructions child);
      '(os2, previous) ← observe_children previous rest;
      Ok (os1 ++ os2, previous)
  end.

(** All scored spans of a code object, in the order [parse] registers them. *)
Definition observations (code : CodeType) : result (list Observation) :=
  '(os, _) ← observe_children None (walk_code code);
  Ok os.

End Observe.

(** ** Vocabulary of the sweep properties *)

(** A half-open span [[lo, hi)] contains [p]. *)
Definition within (lo hi p : Z * Z) : Prop := pos_le lo p ∧ pos_lt p hi.

Global Instance within_dec lo hi p : Decision (within lo hi p).
Proof. unfold within. apply _. Defined.

Definition contains (chunk : SourceChunk) (p : Z * Z) : Prop :=
  within (start chunk) (stop chunk) p.

(** The sum of the [Stats] of the observations whose span contains [p]. *)
Definition covering_sum (obs : list Observation) (p : Z * Z) : Stats :=
  foldr (λ o acc,
           if decide (within (obs_start o) (obs_stop o) p)
           then (obs_stats o + acc)%stats else acc)
        Stats0 obs.

(** [tiles lo hi chunks]: the chunks are non-empty spans, each one stops where
    the next one starts, the first starts at [lo] and the last stops at
    [hi]. *)
Inductive tiles : Z * Z -> Z * Z -> list SourceChunk -> Prop :=
  | tiles_last lo hi s :
      pos_lt lo hi -> tiles lo hi [mkSourceChunk lo hi s]
  | tiles_next lo mid hi s chunks :
      pos_lt lo mid -> tiles mid hi chunks ->
      tiles lo hi (mkSourceChunk lo mid s :: chunks).

Definition pos_min (p q : Z * Z) : Z * Z := if decide (pos_le p q) then p else q.
Definition pos_max (p q : Z * Z) : Z * Z := if decide (pos_le p q) then q else p.

(** The least and the greatest position registered in [events]: the
    sentinels and both ends of every observation. *)
Definition lowest (obs : list Observation) : Z * Z :=
  foldr (λ o m, pos_min (obs_start o) (pos_min (obs_stop o) m)) FIRST_POSTION obs.
Definition highest (obs : list Observation) : Z * Z :=
  foldr (λ o m, pos_max (obs_start o) (pos_max (obs_stop o) m)) LAST_POSITION obs.

(** Both ends of every observation lie between the sentinels. *)
Definition in_document (obs : list Observation) : Prop :=
  Forall (λ o, pos_le FIRST_POSTION (obs_start o) ∧ pos_le (obs_start o) LAST_POSITION ∧
               pos_le FIRST_POSTION (obs_stop o) ∧ pos_le (obs_stop o) LAST_POSITION) obs.

(** Every observation is a span whose start is not after its stop. *)
Definition well_formed (obs : list Observation) : Prop :=
  Forall (λ o, pos_le (obs_start o) (obs_stop o)) obs.

(** The strict order of the items of [events], by position. *)
Definition item_lt (x y : (Z * Z) * Stats) : Prop := pos_lt x.1 y.1.

(** The sum of the deltas registered at positions up to [p]. *)
Definition delta_sum (items : list ((Z * Z) * Stats)) (p : Z * Z) : Stats :=
  foldr (λ item acc,
           if decide (pos_le item.1 p) then (item.2 + acc)%stats else acc)
        Stats0 items.

(** [q] is an end of one of the chunks. *)
Definition boundary (chunks : list SourceChunk) (q : Z * Z) : Prop :=
  ∃ c, c ∈ chunks ∧ (start c = q ∨ stop c = q).

(** ** The classifier in the words of the specification

    The specification gives an instruction three flags; the program reads
    them off the instruction's name. *)

Definition in_specializing_family (SPECIALIZED_INSTRUCTIONS : gset string)
    (instruction : Instruction) : bool :=
  bool_decide (opname instruction ∈ SPECIALIZED_INSTRUCTIONS).

Definition adaptive_form (instruction : Instruction) : bool :=
  endswith (opname instruction) "_ADAPTIVE".

Definition fused_superinstruction (previous : option Instruction) : bool :=
  match previous with
  | Some prev => str_contains "__" (opname prev)
  | None => false
  end.

(** The three rules of the specification. *)
Definition score_reference (SPECIALIZED_INSTRUCTIONS : gset string)
    (instruction : Instruction) (previous : option Instruction) : Stats :=
  if in_specializing_family SPECIALIZED_INSTRUCTIONS instruction then
    if adaptive_form instruction
    then {| specialized := 0; adaptive := 1; unquickened := 0 |}
    else {| specialized := 1; adaptive := 0; unquickened := 0 |}
  else if fused_superinstruction previous && negb (is_jump_target instruction)
    then {| specialized := 1; adaptive := 0; unquickened := 0 |}
    else {| specialized := 0; adaptive := 0; unquickened := 1 |}.

(** Exactly one counter is 1 and the other two are 0. *)
Definition one_hot (s : Stats) : Prop :=
  s = mkStats 1 0 0 ∨ s = mkStats 0 1 0 ∨ s = mkStats 0 0 1.

(** One of the four coordinates of a position is [None]. *)
Definition position_missing
    (position : option Z * option Z * option Z * option Z) : Prop :=
  let '(lineno, end_lineno, col_offset, end_col_offset) := position in
  lineno = None ∨ end_lineno = None ∨ col_offset = None ∨ end_col_offset = None.

(** ** The colour mapping in the words of the specification *)

Inductive colour : Type :=
  | Neutral
  | HLS (hue lightness saturation : float).

(** [hue = (1/3) * specialized / quickened] *)
Definition reference_hue (specialized quickened : Z) : result float :=
  third ← int_truediv 1 3;
  x ← fmul_int third specialized;
  fdiv_int x quickened.

(** [lightness = max(0.5, generic / (quickened + generic))] *)
Definition reference_lightness (generic quickened : Z) : result float :=
  half ← int_truediv 1 2;
  ratio ← int_truediv generic (quickened + generic);
  Ok (pymax half ratio).

Definition reference_colour (alternate_axis : bool) (stats : Stats)
    : result colour :=
  let quickened := specialized stats + adaptive stats in
  if quickened =? 0 then Ok Neutral
  else
    hue ← reference_hue (specialized stats) quickened;
    lightness ← reference_lightness (unquickened stats) quickened;
    saturation ← float_of_int 1;
    Ok (HLS (if alternate_axis then fneg hue else hue) lightness saturation).

(** The colour code of a colour: ["#ffffff"] for the neutral colour, the
    RGB value of hue, lightness and saturation otherwise. *)
Definition colour_code (c : colour) : result pystr :=
  match c with
  | Neutral => Ok (lit "#ffffff")
  | HLS hue lightness saturation =>
      let '(r, g, b) := hls_to_rgb hue lightness saturation in
      r ← int_of_float (fmul (float_lit 255) r);
      g ← int_of_float (fmul (float_lit 255) g);
      b ← int_of_float (fmul (float_lit 255) b);
      Ok (lit "#" ++ lit (format_02x r) ++ lit (format_02x g) ++ lit (format_02x b))
  end.

(** Two results agree: both raise the same exception, or both return and
    the values are related. *)
Definition result_rel {A B : Type} (R : A -> B -> Prop)
    (r1 : result A) (r2 : result B) : Prop :=
  match r1, r2 with
  | Ok a, Ok b => R a b
  | Raise e1, Raise e2 => e1 = e2
  | _, _ => False
  end.

(** Two states of the loops of [view] that differ only in their writers. *)
Definition state_rel {W1 W2 : Type} (R : W1 -> W2 -> Prop)
    (st1 : view_state W1) (st2 : view_state W2) : Prop :=
  R (vs_writer st1) (vs_writer st2) ∧ vs_chunk st1 = vs_chunk st2 ∧
  vs_parser st1 = vs_parser st2 ∧ vs_group st1 = vs_group st2.

(** The writer [self] has written the runs [runs]. *)
Definition has_written (blue dark : bool) (self : HTMLWriter)
    (runs : list (pystr * pystr)) : Prop :=
  self = mkHTMLWriter blue dark
           (_parts (HTMLWriter_init blue dark) ++ (rendered_run dark <$> runs)).

(** What [html.escape] writes for one character. *)
Definition escape_char (c : N) : pystr :=
  if (c =? 38)%N then lit "&amp;"
  else if (c =? 60)%N then lit "&lt;"
  else if (c =? 62)%N then lit "&gt;"
  else if (c =? 34)%N then lit "&quot;"
  else if (c =? 39)%N then lit "&#x27;"
  else [c].

(** No colour of the runs contains the character [>]. *)
Definition good_runs (runs : list (pystr * pystr)) : Prop :=
  Forall (λ run, Forall (λ c, c ≠ 62%N) run.2) runs.

(** The text that the loops of [view] have read so far. *)
Definition collected (st : view_state (list (pystr * pystr))) : pystr :=
  concat (fst <$> vs_writer st) ++ vs_group st.

(** [x] is a zero or a finite float [m * 2 ^ e] below [2 ^ k] in magnitude
    whose exponent [e] is at most [E]. *)
Definition finite_below (k E : Z) (x : float) : Prop :=
  match x with
  | S754_zero _ => True
  | S754_finite _ m e => Z.pos (digits2_pos m) + e <= k ∧ e <= E
  | _ => False
  end.

(** [x] is a finite float of magnitude at least [2 ^ (b - 1)]. *)
Definition finite_above (b : Z) (x : float) : Prop :=
  match x with
  | S754_finite _ m e => b <= Z.pos (digits2_pos m) + e
  | _ => False
  end.

(** The computation of the colour of one of the chunks raises [e]. *)
Definition colour_raises (blue : bool) (chunks : list SourceChunk)
    (e : exception) : Prop :=
  ∃ c, c ∈ chunks ∧ _color (mkHTMLWriter blue false []) (stats c) = Raise e.

(** The chunks that the loops of [view] still hold are chunks of [chunks]
    and tile the span up to [hi]. *)
Definition holds_chunks {W : Type} (hi : Z * Z) (chunks : list SourceChunk)
    (st : view_state W) : Prop :=
  tiles (start (vs_chunk st)) hi (vs_chunk st :: vs_parser st) ∧
  ∀ c, c ∈ vs_chunk st :: vs_parser st -> c ∈ chunks.

(** The file of [code] is not the file of [path], or it does not exist. *)
Definition non_matching (stat : string -> result (N * N)) (path : string)
    (code : CodeType) : Prop :=
  samefile stat path (co_filename code) = Ok false ∨
  samefile stat path (co_filename code) = Raise FileNotFoundError.

(** [os.stat] fails only on files that do not exist. *)
Definition only_missing_files (stat : string -> result (N * N)) : Prop :=
  ∀ path e, stat path = Raise e -> e = FileNotFoundError.

(** ** Vocabulary of the further properties *)

(** [c] is [code] itself, or a code object among the constants of a code
    object nested in [code]. *)
Inductive nested (code : CodeType) : CodeType -> Prop :=
  | nested_self : nested code code
  | nested_const parent child :
      nested code parent -> Some child ∈ co_consts parent ->
      nested code child.

(** Every instruction of [child] has an entry in its table of positions. *)
Definition positions_cover (child : CodeType) : Prop :=
  Forall (λ instruction,
            (offset instruction / 2 < length (co_positions child))%nat)
         (get_instructions child).

(** The keys of [events] after the loops of [parse]: the two sentinels and
    both ends of every scored span. *)
Definition registered (obs : list Observation) : gset (Z * Z) :=
  {[FIRST_POSTION; LAST_POSITION]} ∪
  list_to_set (obs_start <$> obs) ∪ list_to_set (obs_stop <$> obs).

(** The number of scored spans that contain [p]. *)
Definition covering (obs : list Observation) (p : Z * Z) : Z :=
  Z.of_nat (length (filter (λ o, within (obs_start o) (obs_stop o) p) obs)).

(** The sum over the scored spans of the [Stats] of those that start at or
    before [p], less the [Stats] of those that stop at or before [p]. *)
Definition signed_sum (obs : list Observation) (p : Z * Z) : Stats :=
  foldr (λ o acc,
           ((if decide (pos_le (obs_start o) p) then obs_stats o else Stats0) -
            (if decide (pos_le (obs_stop o) p) then obs_stats o else Stats0) +
            acc)%stats)
        Stats0 obs.

(** The characters of a line with their positions, as
    [enumerate(line)] numbers them from [col_offset]. *)
Fixpoint enumerate_line (lineno col_offset : Z) (line : pystr)
    : list ((Z * Z) * N) :=
  match line with
  | [] => []
  | character :: line =>
      ((lineno, col_offset), character) ::
      enumerate_line lineno (col_offset + 1) line
  end.

(** The characters of the lines of a file with their positions, as
    [enumerate(file, 1)] numbers the lines from [lineno]. *)
Fixpoint enumerate_file (lineno : Z) (file : list pystr)
    : list ((Z * Z) * N) :=
  match file with
  | [] => []
  | line :: file =>
      enumerate_line lineno 0 line ++ enumerate_file (lineno + 1) file
  end.

(** The characters of a text, each with the position [(lineno, col_offset)]
    at which the loops of [view] meet it. *)
Definition characters (text : pystr) : list ((Z * Z) * N) :=
  enumerate_file 1 (readlines text).

(** The run of [writer.add] for [chunk] holds the characters of [group],
    in the colour of the [Stats] of [chunk]. *)
Definition run_of (blue : bool) (run : pystr * pystr)
    (group : list ((Z * Z) * N)) (chunk : SourceChunk) : Prop :=
  run.1 = group.*2 ∧
  _color (mkHTMLWriter blue false []) (stats chunk) = Ok run.2.

(** ** The context managers of [main] *)

(** [l[1:] = x]: the first element of [l] stays, the others are replaced by
    the elements of [x]. *)
Definition assign_tail {A : Type} (l x : list A) : list A := take 1 l ++ x.

(** [with patch_sys_argv(argv): body], on the value of [sys.argv].  The body
    runs on the patched list; it leaves a result and the list that
    [sys.argv] then is.  The [finally] clause runs whether the body raised
    or not, and the exception of the body is raised after it. *)
Definition patch_sys_argv {A : Type} (argv : list string)
    (body : list string -> result A * list string)
    (sys_argv0 : list string) : result A * list string :=
  let sys_argv := drop 1 sys_argv0 in
  let '(r, current) := body (assign_tail sys_argv0 argv) in
  (r, assign_tail current sys_argv).

(** [with catch_exceptions() as caught: body]: the list [caught] after the
    block.  An exception of the body is stored and not raised again. *)
Definition catch_exceptions {A : Type} (body : result A) : list exception :=
  match body with
  | Ok _ => []
  | Raise e => [e]
  end.

(** [with patch_sys_argv(argv), catch_exceptions() as caught: run], as
    [main] runs the script: the list [caught] and [sys.argv] after the
    block. *)
Definition run_caught {A : Type} (argv : list string)
    (run : list string -> result A * list string)
    (sys_argv0 : list string) : list exception * list string :=
  let '(r, current) :=
    patch_sys_argv argv
      (λ patched, let '(r, current) := run patched in
                  (Ok (catch_exceptions r), current))
      sys_argv0 in
  (match r with Ok caught => caught | Raise _ => [] end, current).

(** ** The report of [main] *)

(** What [main] shows: a line printed, or a page handed to the browser. *)
Inductive output : Type :=
  | Printed (line : string)
  | Browsed (page : pystr).

Section Main.

Variable SPECIALIZED_INSTRUCTIONS : gset string.
Variable stat : string -> result (N * N).
Variable open : string -> result pystr.
(** [pathlib.Path().glob(targets)] *)
Variable glob : string -> list string.
Variable CODE : list CodeType.
Variables blue dark : bool.

(** [for match in pathlib.Path().glob(targets)]: the matches for which a
    code object was captured are appended to [paths]. *)
Fixpoint main_matches (paths matches : list string) : result (list string) :=
  match matches with
  | [] => Ok paths
  | m :: matches =>
      code ← get_code_for_path stat m CODE;
      main_matches (match code with Some _ => paths ++ [m] | None => paths end)
                   matches
  end.

(** The list [paths] of [main]. *)
Definition main_paths (targets path : option string) : result (list string) :=
  match targets with
  | Some targets => main_matches [] (glob targets)
  | None => Ok (match path with Some path => [path] | None => [] end)
  end.

(** [for path in paths: view(path, blue=blue, dark=dark)]: the pages shown
    before the loop ends or a [view] raises. *)
Fixpoint main_views (paths : list string) : list output * result () :=
  match paths with
  | [] => ([], Ok ())
  | path :: paths =>
      match view SPECIALIZED_INSTRUCTIONS stat open CODE path blue dark with
      | Ok page =>
          let '(shown, r) := main_views paths in (Browsed page :: shown, r)
      | Raise e => ([], Raise e)
      end
  end.

(** [main] after the script has run, from [paths = []] to its end: [path]
    and [caught] are what the first half of [main] leaves.  The result is
    what was shown, and the exception that [main] raises, if any. *)
Definition main_report (targets path : option string)
    (caught : list exception) : list output * result () :=
  match main_paths targets path with
  | Raise e => ([], Raise e)
  | Ok paths =>
      let printed :=
        match paths with
        | [] => [Printed "No source files found!"]
        | _ => []
        end in
      let '(shown, r) := main_views paths in
      (printed ++ shown,
       _ ← r; match caught with e :: _ => Raise e | [] => Ok () end)
  end.

End Main.

(** ** The runs of [view] and the chunks *)

(** The run is the run of [chunk] and all its characters lie in [chunk]. *)
Definition in_chunk (blue : bool) (run : pystr * pystr)
    (group : list ((Z * Z) * N)) (chunk : SourceChunk) : Prop :=
  run_of blue run group chunk ∧ ∀ pc, pc ∈ group -> contains chunk pc.1.

(** The state of the loops of [view] when the characters [seen] have been
    read and [next] is the position of the next one: the runs written are
    the runs of the chunks that were left behind, and the characters of
    [group] lie after the start of the current chunk. *)
Definition view_invariant (blue : bool) (chunks : list SourceChunk)
    (st : view_state (list (pystr * pystr)))
    (seen : list ((Z * Z) * N)) (next : Z * Z) : Prop :=
  ∃ done_groups group done_chunks,
    chunks = done_chunks ++ vs_chunk st :: vs_parser st ∧
    concat done_groups ++ group = seen ∧
    Forall3 (in_chunk blue) (vs_writer st) done_groups done_chunks ∧
    vs_group st = group.*2 ∧
    (∀ pc, pc ∈ group -> pos_le (start (vs_chunk st)) pc.1) ∧
    pos_le (start (vs_chunk st)) next ∧
    Forall (λ pc, pos_lt pc.1 next) seen.

(** The chunks that the loops of [view] have left behind when the characters
    [seen] have been read: one run was written for each, and each was left
    at a character at its stop. *)
Definition view_left (chunks : list SourceChunk)
    (st : view_state (list (pystr * pystr)))
    (seen : list ((Z * Z) * N)) : Prop :=
  ∃ done_chunks,
    chunks = done_chunks ++ vs_chunk st :: vs_parser st ∧
    length (vs_writer st) = length done_chunks ∧
    ∀ c, c ∈ done_chunks -> stop c ∈ seen.*1.

(** ** The values of floats

    The colour of a chunk is computed in floating point; its form depends
    on the values of the floats, which are rationals. *)

(** [2 ^ e], for an exponent of either sign. *)
Definition bpow (e : Z) : Q := Qpower 2 e.

(** The value of a float; 0 for those that have none. *)
Definition F2Q (x : float) : Q :=
  match x with
  | S754_finite s m e => (inject_Z (cond_Zopp s (Z.pos m)) * bpow e)%Q
  | _ => 0%Q
  end.

(** [x] is a zero or a finite float in the form that the operations return:
    its exponent is the one that the magnitude of a binary64 asks for. *)
Definition canonical (x : float) : Prop :=
  match x with
  | S754_zero _ => True
  | S754_finite _ m e => e = fexp 53 1024 (Z.pos (digits2_pos m) + e)
  | _ => False
  end.

(** The bound on the error of one operation whose result is below 8. *)
Definition eps : Q := bpow (-49).

(** A digit of a lowercase hexadecimal numeral. *)
Definition hex_digit (c : N) : bool :=
  ((48 <=? c) && (c <=? 57) || (97 <=? c) && (c <=? 102))%N.

(** Two hexadecimal digits. *)
Definition two_hex (s : pystr) : bool :=
  match s with
  | [c1; c2] => hex_digit c1 && hex_digit c2
  | _ => false
  end.

(** A colour code of the form [#rrggbb]: a [#] and six hexadecimal
    digits. *)
Definition is_rgb_code (color : pystr) : bool :=
  match color with
  | c :: digits =>
      (c =? 35)%N && (length digits =? 6)%nat && forallb hex_digit digits
  | [] => false
  end.

(** ** Sample inputs

    The module [x = 1; y = x + 1] on two lines, with the offsets and
    positions that CPython 3.11 gives its instructions: the first
    instruction, [RESUME], is attributed to line 0, and [BINARY_OP] is
    followed by a cache entry.  The names are those of a quickened run. *)

Definition sample_specialized : gset string :=
  {[ "RESUME_QUICK"; "BINARY_OP_ADAPTIVE"; "LOAD_FAST__LOAD_FAST" ]}.

Definition sample_module : CodeType :=
  mkCode "<module>" "sample.py" [None; None]
    [ (Some 0, Some 1, Some 0, Some 0);
      (Some 1, Some 1, Some 4, Some 5);
      (Some 1, Some 1, Some 0, Some 1);
      (Some 2, Some 2, Some 4, Some 5);
      (Some 2, Some 2, Some 8, Some 9);
      (Some 2, Some 2, Some 4, Some 9);
      (Some 2, Some 2, Some 4, Some 9);
      (Some 2, Some 2, Some 0, Some 1);
      (Some 2, Some 2, Some 0, Some 1);
      (Some 2, Some 2, Some 0, Some 1) ]
    [ mkInstruction "RESUME_QUICK" 0 false;
      mkInstruction "LOAD_CONST" 2 false;
      mkInstruction "STORE_NAME" 4 false;
      mkInstruction "LOAD_NAME" 6 false;
      mkInstruction "LOAD_CONST" 8 false;
      mkInstruction "BINARY_OP_ADAPTIVE" 10 false;
      mkInstruction "STORE_NAME" 14 false;
      mkInstruction "LOAD_CONST" 16 false;
      mkInstruction "RETURN_VALUE" 18 false ].

(** The scored spans of [sample_module]. *)
Definition sample_module_observations : list Observation :=
  [ mkObservation (0, 0) (1, 0) (mkStats 1 0 0);
    mkObservation (1, 4) (1, 5) (mkStats 0 0 1);
    mkObservation (1, 0) (1, 1) (mkStats 0 0 1);
    mkObservation (2, 4) (2, 5) (mkStats 0 0 1);
    mkObservation (2, 8) (2, 9) (mkStats 0 0 1);
    mkObservation (2, 4) (2, 9) (mkStats 0 1 0);
    mkObservation (2, 0) (2, 1) (mkStats 0 0 1);
    mkObservation (2, 0) (2, 1) (mkStats 0 0 1);
    mkObservation (2, 0) (2, 1) (mkStats 0 0 1) ].

(** The text of [sample.py]. *)
Definition sample_text : pystr :=
  lit "x = 1" ++ [10%N] ++ lit "y = x + 1" ++ [10%N].

Definition sample_stat (path : string) : result (N * N) :=
  if String.eqb path "sample.py" then Ok (2049%N, 131%N)
  else if String.eqb path "./sample.py" then Ok (2049%N, 131%N)
  else Raise FileNotFoundError.

Definition sample_open (path : string) : result pystr :=
  if String.eqb path "sample.py" then Ok sample_text
  else if String.eqb path "./sample.py" then Ok sample_text
  else Raise FileNotFoundError.

(** The scored span of a [RESUME_QUICK] attributed to line 0. *)
Definition resume_observation : Observation :=
  mkObservation (0, 0) (1, 0) (mkStats 1 0 0).

(** Two overlapping spans on line 1 and a span that runs into line 2. *)
Definition sample_observations : list Observation :=
  [ mkObservation (1, 0) (1, 5) (mkStats 0 0 1);
    mkObservation (1, 2) (2, 0) (mkStats 1 0 0);
    mkObservation (1, 2) (1, 4) (mkStats 0 1 0) ].

(** A code object with one instruction whose span is empty. *)
Definition zero_width_module : CodeType :=
  mkCode "<module>" "sample.py" []
    [ (Some 2, Some 2, Some 0, Some 0) ]
    [ mkInstruction "NOP" 0 false ].

(** A second capture of [sample.py], after the first line of the file was
    changed to [x  = 1]: the position of its constant has moved, and the
    file was run through another spelling of its path. *)
Definition sample_module_again : CodeType :=
  mkCode "<module>" "./sample.py" [None; None]
    [ (Some 0, Some 1, Some 0, Some 0);
      (Some 1, Some 1, Some 5, Some 6);
      (Some 1, Some 1, Some 0, Some 1);
      (Some 2, Some 2, Some 4, Some 5);
      (Some 2, Some 2, Some 8, Some 9);
      (Some 2, Some 2, Some 4, Some 9);
      (Some 2, Some 2, Some 4, Some 9);
      (Some 2, Some 2, Some 0, Some 1);
      (Some 2, Some 2, Some 0, Some 1);
      (Some 2, Some 2, Some 0, Some 1) ]
    (get_instructions sample_module).

(** * Properties *)

(** ** Sanity checks of the string helpers *)

Example endswith_ex1 : endswith "LOAD_ATTR_ADAPTIVE" "_ADAPTIVE" = true.
Proof. reflexivity. Qed.
Example endswith_ex2 : endswith "ADAPTIVE" "_ADAPTIVE" = false.
Proof. reflexivity. Qed.
Example super_ex1 :
  is_superinstruction (mkInstruction "LOAD_FAST__LOAD_FAST" 0 false) = true.
Proof. reflexivity. Qed.
Example super_ex2 :
  is_superinstruction (mkInstruction "LOAD_FAST" 0 false) = false.
Proof. reflexivity. Qed.


(** ** Stats is an abelian group *)

Lemma Stats_add_comm (a b : Stats) : (a + b)%stats = (b + a)%stats.
Proof. destruct a, b; unfold Stats_add; simpl; f_equal; lia. Qed.

Lemma Stats_add_assoc (a b c : Stats) :
  ((a + b) + c)%stats = (a + (b + c))%stats.
Proof. destruct a, b, c; unfold Stats_add; simpl; f_equal; lia. Qed.

Lemma Stats_add_0_l (a : Stats) : (Stats0 + a)%stats = a.
Proof. destruct a; unfold Stats_add; simpl; f_equal; lia. Qed.

Lemma Stats_add_0_r (a : Stats) : (a + Stats0)%stats = a.
Proof. destruct a; unfold Stats_add; simpl; f_equal; lia. Qed.

Lemma Stats_add_sub (a b : Stats) : (a + b - b)%stats = a.
Proof. destruct a, b; unfold Stats_add, Stats_sub; simpl; f_equal; lia. Qed.

Lemma Stats_sub_diag (a : Stats) : (a - a)%stats = Stats0.
Proof. destruct a; unfold Stats_sub, Stats0; simpl; f_equal; lia. Qed.

(** C8: [Stats] with [+], [-] and the all-zero [Stats()] is an abelian
    group: addition is commutative and associative, [Stats()] is its
    identity, and subtracting [b] undoes adding [b]. *)
Theorem Stats_abelian_group (a b c : Stats) :
  (a + b)%stats = (b + a)%stats ∧
  ((a + b) + c)%stats = (a + (b + c))%stats ∧
  (a + b - b)%stats = a ∧
  (a + Stats0)%stats = a ∧ (Stats0 + a)%stats = a ∧
  (a - a)%stats = Stats0 ∧ (a + (Stats0 - a))%stats = Stats0.
Proof.
  repeat split;
    auto using Stats_add_comm, Stats_add_assoc, Stats_add_sub,
               Stats_add_0_l, Stats_add_0_r, Stats_sub_diag.
  destruct a; unfold Stats_add, Stats_sub, Stats0; simpl; f_equal; lia.
Qed.

(** ** The order of positions *)

Lemma pos_le_refl p : pos_le p p.
Proof. unfold pos_le. lia. Qed.

Lemma pos_le_trans p q r : pos_le p q -> pos_le q r -> pos_le p r.
Proof. unfold pos_le. lia. Qed.

Lemma pos_le_total p q : pos_le p q ∨ pos_le q p.
Proof. unfold pos_le. lia. Qed.

Lemma pos_le_antisym p q : pos_le p q -> pos_le q p -> p = q.
Proof. destruct p, q. unfold pos_le. simpl. intros. f_equal; lia. Qed.

Lemma pos_lt_le p q : pos_lt p q -> pos_le p q.
Proof. unfold pos_lt, pos_le. lia. Qed.

Lemma pos_lt_irrefl p : ¬ pos_lt p p.
Proof. unfold pos_lt. lia. Qed.

Lemma pos_lt_trans p q r : pos_lt p q -> pos_lt q r -> pos_lt p r.
Proof. unfold pos_lt. lia. Qed.

Lemma pos_le_lt_trans p q r : pos_le p q -> pos_lt q r -> pos_lt p r.
Proof. unfold pos_lt, pos_le. lia. Qed.

Lemma pos_lt_le_trans p q r : pos_lt p q -> pos_le q r -> pos_lt p r.
Proof. unfold pos_lt, pos_le. lia. Qed.

Lemma pos_not_le p q : ¬ pos_le p q <-> pos_lt q p.
Proof. unfold pos_lt, pos_le. lia. Qed.

Lemma pos_not_lt p q : ¬ pos_lt p q <-> pos_le q p.
Proof. unfold pos_lt, pos_le. lia. Qed.

Lemma pos_le_neq_lt p q : pos_le p q -> p ≠ q -> pos_lt p q.
Proof.
  destruct p as [a b], q as [c d]. unfold pos_lt, pos_le. simpl.
  intros H Hne.
  destruct (decide (a = c)) as [->|]; [|lia].
  destruct (decide (b = d)) as [->|]; [congruence|lia].
Qed.

Global Instance item_le_trans : Transitive item_le.
Proof. intros x y z. unfold item_le. apply pos_le_trans. Qed.

Global Instance item_le_total : Total item_le.
Proof. intros x y. unfold item_le. apply pos_le_total. Qed.

Ltac pos_solve :=
  unfold within, pos_le, pos_lt, FIRST_POSTION, LAST_POSITION, maxsize in *;
  simpl in *; lia.

Lemma FIRST_lt_LAST : pos_lt FIRST_POSTION LAST_POSITION.
Proof. pos_solve. Qed.

(** ** The sorted items of [events] *)

Ltac stats_eq :=
  repeat match goal with s : Stats |- _ => destruct s end;
  unfold Stats_add, Stats_sub, Stats0; simpl; f_equal; lia.

Lemma sorted_items_perm (events : gmap (Z * Z) Stats) :
  sorted_items events ≡ₚ map_to_list events.
Proof. apply merge_sort_Permutation. Qed.

Lemma sorted_strict (items : list ((Z * Z) * Stats)) :
  StronglySorted item_le items -> NoDup items.*1 ->
  StronglySorted item_lt items.
Proof.
  induction 1 as [|x l Hl IH Hx]; intros Hnd; [constructor|].
  rewrite fmap_cons in Hnd. apply NoDup_cons in Hnd as [Hnotin Hnd].
  constructor; [auto|].
  rewrite Forall_forall in Hx |- *. intros y Hy.
  apply pos_le_neq_lt; [by apply Hx|].
  intros Heq. apply Hnotin. rewrite Heq. by apply list_elem_of_fmap_2.
Qed.

Lemma sorted_items_ascending (events : gmap (Z * Z) Stats) :
  StronglySorted item_lt (sorted_items events).
Proof.
  apply sorted_strict.
  - apply StronglySorted_merge_sort; apply _.
  - rewrite sorted_items_perm. apply NoDup_fst_map_to_list.
Qed.

Lemma sorted_items_keys (events : gmap (Z * Z) Stats) (k : Z * Z) :
  k ∈ (sorted_items events).*1 <-> k ∈ dom events.
Proof.
  rewrite sorted_items_perm, elem_of_dom. split.
  - intros [[k' v] [-> Hin]]%list_elem_of_fmap.
    apply elem_of_map_to_list in Hin. eauto.
  - intros [v Hv]. apply list_elem_of_fmap. exists (k, v).
    split; [done|]. by apply elem_of_map_to_list.
Qed.

Lemma delta_sum_perm (l1 l2 : list ((Z * Z) * Stats)) (p : Z * Z) :
  l1 ≡ₚ l2 -> delta_sum l1 p = delta_sum l2 p.
Proof.
  induction 1 as [|x l l' _ IH|x y l|l l' l'' _ IH1 _ IH2]; simpl.
  - done.
  - by rewrite IH.
  - repeat case_decide; try done.
    rewrite <- !Stats_add_assoc. f_equal. apply Stats_add_comm.
  - congruence.
Qed.

(** ** The emitted chunks *)

Lemma sweep_tiles (items : list ((Z * Z) * Stats)) :
  ∀ x y hi acc,
    StronglySorted item_lt (x :: y :: items) ->
    last (y :: items) = Some hi ->
    tiles x.1 hi.1 (sweep acc (x :: y :: items)).
Proof.
  induction items as [|z items IH]; intros [k v] [k' v'] hi acc Hs Hlast.
  - simpl in *. injection Hlast as <-.
    apply tiles_last. apply StronglySorted_inv in Hs as [_ Hx].
    apply Forall_cons in Hx as [Hx _]. exact Hx.
  - apply StronglySorted_inv in Hs as [Hs Hx].
    apply Forall_cons in Hx as [Hx _].
    change (sweep acc ((k, v) :: (k', v') :: z :: items))
      with (mkSourceChunk k k' (acc + v) ::
            sweep (acc + v) ((k', v') :: z :: items)).
    apply tiles_next; [exact Hx|].
    apply (IH (k', v') z hi); [exact Hs|].
    by rewrite last_cons_cons in Hlast.
Qed.

Lemma tiles_nonempty lo hi chunks : tiles lo hi chunks -> pos_lt lo hi.
Proof.
  induction 1; [done|]. eauto using pos_lt_trans.
Qed.

Lemma tiles_start_ge lo hi chunks c :
  tiles lo hi chunks -> c ∈ chunks ->
  pos_le lo (start c) ∧ pos_lt (start c) (stop c) ∧ pos_le (stop c) hi.
Proof.
  induction 1 as [lo hi s Hlt|lo mid hi s chunks Hlt Ht IH]; intros Hin.
  - apply list_elem_of_singleton in Hin as ->. simpl.
    split_and!; [apply pos_le_refl|done|apply pos_le_refl].
  - apply elem_of_cons in Hin as [->|Hin]; simpl.
    + split_and!; [apply pos_le_refl|done|].
      apply pos_lt_le. by eapply tiles_nonempty.
    + destruct (IH Hin) as (H1 & H2 & H3). split_and!; [|done|done].
      eapply pos_le_trans; [apply pos_lt_le, Hlt|done].
Qed.

Lemma tiles_cover lo hi chunks p :
  tiles lo hi chunks -> within lo hi p ->
  ∃ c, c ∈ chunks ∧ contains c p.
Proof.
  induction 1 as [lo hi s Hlt|lo mid hi s chunks Hlt Ht IH]; intros [Hlo Hhi].
  - eexists. split; [apply list_elem_of_here|]. by split.
  - destruct (decide (pos_lt p mid)) as [Hp|Hp].
    + eexists. split; [apply list_elem_of_here|]. by split.
    + apply pos_not_lt in Hp. destruct IH as (c & Hc & Hcp); [by split|].
      exists c. split; [by apply list_elem_of_further|done].
Qed.

Lemma tiles_unique lo hi chunks p c c' :
  tiles lo hi chunks -> c ∈ chunks -> c' ∈ chunks ->
  contains c p -> contains c' p -> c = c'.
Proof.
  induction 1 as [lo hi s Hlt|lo mid hi s chunks Hlt Ht IH]; intros Hc Hc' Hp Hp'.
  - apply list_elem_of_singleton in Hc, Hc'. congruence.
  - assert (Hout : ∀ d, d ∈ chunks -> contains d p ->
                        ¬ contains (mkSourceChunk lo mid s) p).
    { intros d Hd [Hd1 _] [_ Hd2]. simpl in Hd2.
      destruct (tiles_start_ge _ _ _ _ Ht Hd) as (Hge & _).
      apply (pos_lt_irrefl p).
      eapply pos_lt_le_trans; [exact Hd2|]. by eapply pos_le_trans. }
    apply elem_of_cons in Hc as [->|Hc]; apply elem_of_cons in Hc' as [->|Hc'].
    + done.
    + exfalso. by eapply Hout.
    + exfalso. by eapply Hout.
    + by apply IH.
Qed.

Lemma tiles_sorted lo hi chunks :
  tiles lo hi chunks ->
  StronglySorted (λ c c', pos_lt (start c) (start c')) chunks.
Proof.
  induction 1 as [lo hi s Hlt|lo mid hi s chunks Hlt Ht IH].
  - repeat constructor.
  - constructor; [done|]. apply Forall_forall. intros c Hc. simpl.
    destruct (tiles_start_ge _ _ _ _ Ht Hc) as (Hge & _).
    by eapply pos_lt_le_trans.
Qed.

Lemma tiles_adjacent lo hi chunks i c c' :
  tiles lo hi chunks ->
  chunks !! i = Some c -> chunks !! S i = Some c' -> stop c = start c'.
Proof.
  intros Ht. revert i. induction Ht as [lo hi s Hlt|lo mid hi s chunks Hlt Ht IH];
    intros i Hc Hc'.
  - destruct i; simpl in *; discriminate.
  - destruct i as [|i]; simpl in *.
    + injection Hc as <-. simpl. destruct Ht; simpl in *; by injection Hc' as <-.
    + by eapply IH.
Qed.

Lemma tiles_ends lo hi chunks :
  tiles lo hi chunks ->
  (∃ c, head chunks = Some c ∧ start c = lo) ∧
  (∃ c, last chunks = Some c ∧ stop c = hi).
Proof.
  induction 1 as [lo hi s Hlt|lo mid hi s chunks Hlt Ht [_ (c & Hc & Hs)]].
  - split; eexists; split; reflexivity.
  - split; [eexists; split; reflexivity|].
    exists c. split; [|done]. destruct Ht; simpl in *; done.
Qed.

Lemma sweep_stats (items : list ((Z * Z) * Stats)) :
  ∀ acc c p,
    StronglySorted item_lt items ->
    c ∈ sweep acc items -> contains c p ->
    stats c = (acc + delta_sum items p)%stats.
Proof.
  induction items as [|[k v] items IH]; intros acc c p Hs Hin Hp.
  - simpl in Hin. by apply elem_of_nil in Hin.
  - destruct items as [|[k' v'] items]; [simpl in Hin; by apply elem_of_nil in Hin|].
    change (sweep acc ((k, v) :: (k', v') :: items))
      with (mkSourceChunk k k' (acc + v) :: sweep (acc + v) ((k', v') :: items)) in Hin.
    pose proof Hs as Hs0.
    apply StronglySorted_inv in Hs as [Hs Hx].
    apply elem_of_cons in Hin as [->|Hin].
    + destruct Hp as [Hp1 Hp2]. simpl in Hp1, Hp2.
      assert (Hrest : delta_sum ((k', v') :: items) p = Stats0).
      { assert (Hall : Forall (λ y, pos_lt p y.1) ((k', v') :: items)).
        { apply StronglySorted_inv in Hs as [_ Hy].
          constructor; [done|].
          eapply Forall_impl; [exact Hy|]. intros y Hy'.
          eapply pos_lt_trans; [exact Hp2|exact Hy']. }
        clear -Hall. induction Hall as [|y l Hy _ IHl]; [done|].
        simpl. rewrite decide_False; [done|]. by apply pos_not_le. }
      unfold delta_sum in *. simpl foldr. simpl in Hrest. rewrite Hrest.
      rewrite decide_True by done. simpl. by rewrite Stats_add_0_r.
    + rewrite (IH _ _ _ Hs Hin Hp).
      assert (Hk : pos_le k p).
      { apply Forall_cons in Hx as [Hx _]. unfold item_lt in Hx. simpl in Hx.
        assert (Ht : ∃ hi, tiles k' hi (sweep (acc + v) ((k', v') :: items))).
        { destruct items as [|z items]; [simpl in Hin; by apply elem_of_nil in Hin|].
          destruct (last (z :: items)) as [hi|] eqn:Hl.
          - exists hi.1. by apply (sweep_tiles items (k', v') z hi).
          - by apply last_None in Hl. }
        destruct Ht as [hi Ht].
        destruct (tiles_start_ge _ _ _ _ Ht Hin) as (Hge & _).
        destruct Hp as [Hp _].
        apply pos_lt_le. eapply pos_lt_le_trans; [exact Hx|].
        by eapply pos_le_trans. }
      change (delta_sum ((k, v) :: (k', v') :: items) p)
        with (if decide (pos_le (k, v).1 p)
              then (v + delta_sum ((k', v') :: items) p)%stats
              else delta_sum ((k', v') :: items) p).
      rewrite decide_True by done. by rewrite Stats_add_assoc.
Qed.

(** ** The registered deltas *)

Lemma delta_sum_insert (events : gmap (Z * Z) Stats) (k p : Z * Z) (v : Stats) :
  delta_sum (map_to_list (<[k := v]> events)) p =
  ((if decide (pos_le k p) then v else Stats0) +
   delta_sum (map_to_list (delete k events)) p)%stats.
Proof.
  rewrite <- insert_delete_eq.
  rewrite (delta_sum_perm _ ((k, v) :: map_to_list (delete k events))).
  - simpl. case_decide; [done|]. by rewrite Stats_add_0_l.
  - apply map_to_list_insert. apply lookup_delete_eq.
Qed.

Lemma delta_sum_lookup (events : gmap (Z * Z) Stats) (k p : Z * Z) :
  delta_sum (map_to_list events) p =
  ((if decide (pos_le k p) then default Stats0 (events !! k) else Stats0) +
   delta_sum (map_to_list (delete k events)) p)%stats.
Proof.
  destruct (events !! k) as [v|] eqn:Hk.
  - rewrite <- (insert_id events k v) at 1 by done. apply delta_sum_insert.
  - rewrite delete_id by done. simpl.
    case_decide; by rewrite Stats_add_0_l.
Qed.

Lemma delta_sum_iadd (events : gmap (Z * Z) Stats) (k p : Z * Z) (s : Stats) :
  delta_sum (map_to_list (events_iadd events k s)) p =
  (delta_sum (map_to_list events) p +
   (if decide (pos_le k p) then s else Stats0))%stats.
Proof.
  unfold events_iadd. rewrite delta_sum_insert, (delta_sum_lookup events k p).
  case_decide; stats_eq.
Qed.

Lemma delta_sum_isub (events : gmap (Z * Z) Stats) (k p : Z * Z) (s : Stats) :
  delta_sum (map_to_list (events_isub events k s)) p =
  (delta_sum (map_to_list events) p -
   (if decide (pos_le k p) then s else Stats0))%stats.
Proof.
  unfold events_isub. rewrite delta_sum_insert, (delta_sum_lookup events k p).
  case_decide; stats_eq.
Qed.

(** Registering a span adds its [Stats] at every position from its start on
    and removes it at every position from its stop on. *)
Lemma delta_sum_register (events : gmap (Z * Z) Stats) (o : Observation) (p : Z * Z) :
  delta_sum (map_to_list (register events o)) p =
  (delta_sum (map_to_list events) p +
   (if decide (pos_le (obs_start o) p) then obs_stats o else Stats0) -
   (if decide (pos_le (obs_stop o) p) then obs_stats o else Stats0))%stats.
Proof. unfold register. by rewrite delta_sum_isub, delta_sum_iadd. Qed.

Lemma delta_sum_register_wf (events : gmap (Z * Z) Stats) (o : Observation) (p : Z * Z) :
  pos_le (obs_start o) (obs_stop o) ->
  delta_sum (map_to_list (register events o)) p =
  (delta_sum (map_to_list events) p +
   (if decide (within (obs_start o) (obs_stop o) p) then obs_stats o else Stats0))%stats.
Proof.
  intros Hwf. rewrite delta_sum_register. unfold within.
  destruct (decide (pos_le (obs_start o) p)) as [H1|H1];
    destruct (decide (pos_le (obs_stop o) p)) as [H2|H2].
  - rewrite decide_False; [stats_eq|]. intros [_ H3]. by apply pos_not_le in H3.
  - rewrite decide_True; [stats_eq|]. split; [done|]. by apply pos_not_le.
  - exfalso. apply H1. by eapply pos_le_trans.
  - rewrite decide_False; [stats_eq|]. by intros [H3 _].
Qed.

Lemma delta_sum_initial (p : Z * Z) :
  delta_sum (map_to_list initial_events) p = Stats0.
Proof.
  unfold initial_events. rewrite delta_sum_insert.
  rewrite delete_insert_ne by done.
  rewrite delta_sum_insert, !delete_empty, map_to_list_empty.
  repeat case_decide; done.
Qed.

Lemma delta_sum_registered (obs : list Observation) (p : Z * Z) :
  ∀ events,
    well_formed obs ->
    delta_sum (map_to_list (foldl register events obs)) p =
    (delta_sum (map_to_list events) p + covering_sum obs p)%stats.
Proof.
  induction obs as [|o obs IH]; intros events Hwf; simpl.
  - by rewrite Stats_add_0_r.
  - apply Forall_cons in Hwf as [Ho Hwf].
    rewrite IH, delta_sum_register_wf by done.
    case_decide; stats_eq.
Qed.

Lemma dom_events_iadd (events : gmap (Z * Z) Stats) (k : Z * Z) (s : Stats) :
  dom (events_iadd events k s) = {[k]} ∪ dom events.
Proof. unfold events_iadd. apply dom_insert_L. Qed.

Lemma dom_events_isub (events : gmap (Z * Z) Stats) (k : Z * Z) (s : Stats) :
  dom (events_isub events k s) = {[k]} ∪ dom events.
Proof. unfold events_isub. apply dom_insert_L. Qed.

Lemma dom_register (events : gmap (Z * Z) Stats) (o : Observation) :
  dom (register events o) = {[obs_start o; obs_stop o]} ∪ dom events.
Proof.
  unfold register. rewrite dom_events_isub, dom_events_iadd. set_solver.
Qed.

Lemma dom_initial_events : dom initial_events = {[FIRST_POSTION; LAST_POSITION]}.
Proof. unfold initial_events. rewrite !dom_insert_L. set_solver. Qed.

Lemma dom_registered (obs : list Observation) :
  ∀ events k,
    k ∈ dom (foldl register events obs) <->
    k ∈ dom events ∨ ∃ o, o ∈ obs ∧ (k = obs_start o ∨ k = obs_stop o).
Proof.
  induction obs as [|o obs IH]; intros events k; simpl.
  - split; [auto|]. intros [H|(o & Ho & _)]; [done|]. by apply elem_of_nil in Ho.
  - rewrite IH, dom_register. split.
    + intros [H|(o' & Ho' & H)].
      * apply elem_of_union in H as [H|H]; [|by left].
        right. exists o. split; [apply list_elem_of_here|]. set_solver.
      * right. exists o'. split; [by apply list_elem_of_further|done].
    + intros [H|(o' & Ho' & H)].
      * left. set_solver.
      * apply elem_of_cons in Ho' as [->|Ho'].
        -- left. set_solver.
        -- right. eauto.
Qed.

(** ** [parse] is the sweep of its observations *)

Section ParseObservations.

Context (SPECIALIZED_INSTRUCTIONS : gset string).

Lemma parse_instruction_observe fixed_positions events previous instruction :
  parse_instruction SPECIALIZED_INSTRUCTIONS fixed_positions
    (events, previous) instruction =
  (o ← observe SPECIALIZED_INSTRUCTIONS fixed_positions previous instruction;
   Ok (foldl register events (option_list o), Some instruction)).
Proof.
  unfold parse_instruction, observe.
  destruct (fixed_positions !! _) as [[[[[l|] [el|]] [c|]] [ec|]]|]; reflexivity.
Qed.

Lemma parse_instructions_observe fixed_positions instructions :
  ∀ events previous,
    foldM (parse_instruction SPECIALIZED_INSTRUCTIONS fixed_positions)
      (events, previous) instructions =
    ('(os, previous') ← observe_instructions SPECIALIZED_INSTRUCTIONS
                          fixed_positions previous instructions;
     Ok (foldl register events os, previous')).
Proof.
  induction instructions as [|i instructions IH]; intros events previous.
  - reflexivity.
  - cbn [foldM observe_instructions]. rewrite parse_instruction_observe.
    destruct (observe _ _ _ _) as [o|e]; [|reflexivity].
    cbn [mbind result_bind]. rewrite IH.
    destruct (observe_instructions _ _ _ _) as [[os prev']|e]; [|reflexivity].
    cbn [mbind result_bind]. by rewrite foldl_app.
Qed.

Lemma parse_children_observe children :
  ∀ events previous,
    foldM (parse_child SPECIALIZED_INSTRUCTIONS) (events, previous) children =
    ('(os, previous') ← observe_children SPECIALIZED_INSTRUCTIONS previous children;
     Ok (foldl register events os, previous')).
Proof.
  induction children as [|child children IH]; intros events previous.
  - reflexivity.
  - cbn [foldM observe_children].
    change (parse_child SPECIALIZED_INSTRUCTIONS (events, previous) child)
      with (foldM (parse_instruction SPECIALIZED_INSTRUCTIONS (co_positions child))
              (events, previous) (get_instructions child)).
    rewrite parse_instructions_observe.
    destruct (observe_instructions _ _ _ _) as [[os1 prev1]|e]; [|reflexivity].
    cbn [mbind result_bind]. rewrite IH.
    destruct (observe_children _ _ _) as [[os2 prev2]|e]; [|reflexivity].
    cbn [mbind result_bind]. by rewrite foldl_app.
Qed.

(** [parse] yields exactly the sweep of the scored spans of its
    instructions, and raises what computing them raises. *)
Lemma parse_synthesize (code : CodeType) :
  parse SPECIALIZED_INSTRUCTIONS code =
  synthesize <$> observations SPECIALIZED_INSTRUCTIONS code.
Proof.
  unfold parse, observations. fold initial_events.
  rewrite parse_children_observe.
  destruct (observe_children _ _ _) as [[os prev]|e]; reflexivity.
Qed.

End ParseObservations.

(** ** The ends of the partition *)

Lemma pos_min_cases p q :
  (pos_min p q = p ∨ pos_min p q = q) ∧
  pos_le (pos_min p q) p ∧ pos_le (pos_min p q) q.
Proof.
  unfold pos_min. case_decide as H.
  - split_and!; auto using pos_le_refl.
  - apply pos_not_le, pos_lt_le in H. split_and!; auto using pos_le_refl.
Qed.

Lemma pos_max_cases p q :
  (pos_max p q = p ∨ pos_max p q = q) ∧
  pos_le p (pos_max p q) ∧ pos_le q (pos_max p q).
Proof.
  unfold pos_max. case_decide as H.
  - split_and!; auto using pos_le_refl.
  - apply pos_not_le, pos_lt_le in H. split_and!; auto using pos_le_refl.
Qed.

Lemma lowest_registered (obs : list Observation) :
  lowest obs ∈ dom (foldl register initial_events obs) ∧
  ∀ k, k ∈ dom (foldl register initial_events obs) -> pos_le (lowest obs) k.
Proof.
  assert (Hin : lowest obs = FIRST_POSTION ∨
                ∃ o, o ∈ obs ∧ (lowest obs = obs_start o ∨ lowest obs = obs_stop o)).
  { induction obs as [|o obs IH]; [by left|]. simpl.
    destruct (pos_min_cases (obs_start o) (pos_min (obs_stop o) (lowest obs)))
      as ([->| ->] & _).
    { right. exists o. split; [apply list_elem_of_here|by left]. }
    destruct (pos_min_cases (obs_stop o) (lowest obs)) as ([->| ->] & _).
    { right. exists o. split; [apply list_elem_of_here|by right]. }
    destruct IH as [IH|(o' & Ho' & IH)]; [by left|].
    right. exists o'. split; [by apply list_elem_of_further|done]. }
  assert (Hle : pos_le (lowest obs) FIRST_POSTION ∧
                ∀ o, o ∈ obs -> pos_le (lowest obs) (obs_start o) ∧
                                pos_le (lowest obs) (obs_stop o)).
  { clear Hin. induction obs as [|o obs [IH1 IH2]]; simpl.
    { split; [apply pos_le_refl|]. intros o Ho. by apply elem_of_nil in Ho. }
    destruct (pos_min_cases (obs_start o) (pos_min (obs_stop o) (lowest obs)))
      as (_ & Ha & Hb).
    destruct (pos_min_cases (obs_stop o) (lowest obs)) as (_ & Hc & Hd).
    assert (He : pos_le (pos_min (obs_start o) (pos_min (obs_stop o) (lowest obs)))
                        (lowest obs)) by eauto using pos_le_trans.
    split; [eauto using pos_le_trans|].
    intros o' [->|Ho']%elem_of_cons; [eauto using pos_le_trans|].
    destruct (IH2 o' Ho'). eauto using pos_le_trans. }
  split.
  - apply dom_registered. rewrite dom_initial_events.
    destruct Hin as [->|?]; [left; set_solver|by right].
  - intros k Hk. apply dom_registered in Hk. rewrite dom_initial_events in Hk.
    destruct Hle as [Hf Ho].
    destruct Hk as [Hk|(o & Hin' & [->| ->])]; [|by apply Ho..].
    apply elem_of_union in Hk as [->%elem_of_singleton| ->%elem_of_singleton];
      [done|].
    eapply pos_le_trans; [exact Hf|apply pos_lt_le, FIRST_lt_LAST].
Qed.

Lemma highest_registered (obs : list Observation) :
  highest obs ∈ dom (foldl register initial_events obs) ∧
  ∀ k, k ∈ dom (foldl register initial_events obs) -> pos_le k (highest obs).
Proof.
  assert (Hin : highest obs = LAST_POSITION ∨
                ∃ o, o ∈ obs ∧ (highest obs = obs_start o ∨ highest obs = obs_stop o)).
  { induction obs as [|o obs IH]; [by left|]. simpl.
    destruct (pos_max_cases (obs_start o) (pos_max (obs_stop o) (highest obs)))
      as ([->| ->] & _).
    { right. exists o. split; [apply list_elem_of_here|by left]. }
    destruct (pos_max_cases (obs_stop o) (highest obs)) as ([->| ->] & _).
    { right. exists o. split; [apply list_elem_of_here|by right]. }
    destruct IH as [IH|(o' & Ho' & IH)]; [by left|].
    right. exists o'. split; [by apply list_elem_of_further|done]. }
  assert (Hle : pos_le LAST_POSITION (highest obs) ∧
                ∀ o, o ∈ obs -> pos_le (obs_start o) (highest obs) ∧
                                pos_le (obs_stop o) (highest obs)).
  { clear Hin. induction obs as [|o obs [IH1 IH2]]; simpl.
    { split; [apply pos_le_refl|]. intros o Ho. by apply elem_of_nil in Ho. }
    destruct (pos_max_cases (obs_start o) (pos_max (obs_stop o) (highest obs)))
      as (_ & Ha & Hb).
    destruct (pos_max_cases (obs_stop o) (highest obs)) as (_ & Hc & Hd).
    assert (He : pos_le (highest obs)
                   (pos_max (obs_start o) (pos_max (obs_stop o) (highest obs))))
      by eauto using pos_le_trans.
    split; [eauto using pos_le_trans|].
    intros o' [->|Ho']%elem_of_cons; [eauto using pos_le_trans|].
    destruct (IH2 o' Ho'). eauto using pos_le_trans. }
  split.
  - apply dom_registered. rewrite dom_initial_events.
    destruct Hin as [->|?]; [left; set_solver|by right].
  - intros k Hk. apply dom_registered in Hk. rewrite dom_initial_events in Hk.
    destruct Hle as [Hf Ho].
    destruct Hk as [Hk|(o & Hin' & [->| ->])]; [|by apply Ho..].
    apply elem_of_union in Hk as [->%elem_of_singleton| ->%elem_of_singleton];
      [|done].
    eapply pos_le_trans; [apply pos_lt_le, FIRST_lt_LAST|exact Hf].
Qed.

Lemma in_document_ends (obs : list Observation) :
  in_document obs ->
  lowest obs = FIRST_POSTION ∧ highest obs = LAST_POSITION.
Proof.
  induction 1 as [|o obs (H1 & H2 & H3 & H4) _ [IHl IHh]]; [done|].
  simpl. rewrite IHl, IHh. split.
  - destruct (pos_min_cases (obs_stop o) FIRST_POSTION) as ([Ha|Ha] & Hb & Hc).
    + rewrite Ha in *. rewrite (pos_le_antisym _ _ Hc H3).
      destruct (pos_min_cases (obs_start o) FIRST_POSTION) as ([Hd|Hd] & He & Hf);
        [|done]. rewrite Hd in *. by apply pos_le_antisym.
    + rewrite Ha.
      destruct (pos_min_cases (obs_start o) FIRST_POSTION) as ([Hd|Hd] & He & Hf);
        [|done]. rewrite Hd in *. by apply pos_le_antisym.
  - destruct (pos_max_cases (obs_stop o) LAST_POSITION) as ([Ha|Ha] & Hb & Hc).
    + rewrite Ha in *. rewrite (pos_le_antisym _ _ H4 Hc).
      destruct (pos_max_cases (obs_start o) LAST_POSITION) as ([Hd|Hd] & He & Hf);
        [|done]. rewrite Hd in *. by apply pos_le_antisym.
    + rewrite Ha.
      destruct (pos_max_cases (obs_start o) LAST_POSITION) as ([Hd|Hd] & He & Hf);
        [|done]. rewrite Hd in *. by apply pos_le_antisym.
Qed.

Lemma sorted_last_ge (items : list ((Z * Z) * Stats)) (hi : (Z * Z) * Stats) :
  StronglySorted item_lt items -> last items = Some hi ->
  ∀ z, z ∈ items -> pos_le z.1 hi.1.
Proof.
  induction 1 as [|x l Hl IH Hx]; intros Hlast z Hz; [by apply elem_of_nil in Hz|].
  destruct l as [|y l].
  - apply list_elem_of_singleton in Hz as ->. injection Hlast as ->.
    apply pos_le_refl.
  - rewrite last_cons_cons in Hlast.
    apply elem_of_cons in Hz as [->|Hz]; [|by apply IH].
    rewrite Forall_forall in Hx. apply pos_lt_le, Hx.
    by apply last_Some_elem_of.
Qed.

(** The chunks of any list of observations tile the span from the least to
    the greatest registered position. *)
Lemma synthesize_tiles (obs : list Observation) :
  tiles (lowest obs) (highest obs) (synthesize obs).
Proof.
  unfold synthesize.
  destruct (lowest_registered obs) as [Hlo Hlo'].
  destruct (highest_registered obs) as [Hhi Hhi'].
  set (events := foldl register initial_events obs) in *.
  assert (HF : FIRST_POSTION ∈ dom events).
  { apply dom_registered. left. rewrite dom_initial_events. set_solver. }
  assert (HL : LAST_POSITION ∈ dom events).
  { apply dom_registered. left. rewrite dom_initial_events. set_solver. }
  pose proof (sorted_items_ascending events) as Hs.
  setoid_rewrite <- sorted_items_keys in Hlo'.
  setoid_rewrite <- sorted_items_keys in Hhi'.
  rewrite <- sorted_items_keys in Hlo, Hhi, HF, HL.
  destruct (sorted_items events) as [|x [|y items]].
  - by apply elem_of_nil in HF.
  - apply list_elem_of_singleton in HF, HL. simpl in HF, HL.
    pose proof FIRST_lt_LAST as Hlt. rewrite HF, HL in Hlt.
    by apply pos_lt_irrefl in Hlt.
  - destruct (last (y :: items)) as [hi|] eqn:Hlast;
      [|by apply last_None in Hlast].
    pose proof (sweep_tiles items x y hi Stats0 Hs Hlast) as Ht.
    assert (Hx : x.1 = lowest obs).
    { apply pos_le_antisym; [|apply Hlo'; apply list_elem_of_here].
      rewrite fmap_cons in Hlo. apply elem_of_cons in Hlo as [->|Hlo];
        [apply pos_le_refl|].
      apply list_elem_of_fmap in Hlo as (z & -> & Hz).
      apply StronglySorted_inv in Hs as [_ Hall].
      rewrite Forall_forall in Hall. apply pos_lt_le, Hall, Hz. }
    assert (Hh : hi.1 = highest obs).
    { apply pos_le_antisym.
      - apply Hhi'. apply list_elem_of_fmap_2, list_elem_of_further.
        by apply last_Some_elem_of.
      - apply list_elem_of_fmap in Hhi as (z & -> & Hz).
        apply (sorted_last_ge (x :: y :: items)); [done| |done].
        by rewrite last_cons_cons. }
    by rewrite <- Hx, <- Hh.
Qed.

Lemma synthesize_stats (obs : list Observation) (c : SourceChunk) (p : Z * Z) :
  c ∈ synthesize obs -> contains c p ->
  stats c = delta_sum (map_to_list (foldl register initial_events obs)) p.
Proof.
  intros Hc Hp. unfold synthesize in Hc.
  rewrite (sweep_stats _ _ _ _ (sorted_items_ascending _) Hc Hp).
  rewrite Stats_add_0_l. apply delta_sum_perm, sorted_items_perm.
Qed.

Lemma lowest_le_FIRST (obs : list Observation) : pos_le (lowest obs) FIRST_POSTION.
Proof.
  apply lowest_registered, dom_registered. left.
  rewrite dom_initial_events. set_solver.
Qed.

Lemma LAST_le_highest (obs : list Observation) : pos_le LAST_POSITION (highest obs).
Proof.
  apply highest_registered, dom_registered. left.
  rewrite dom_initial_events. set_solver.
Qed.

(** ** Coverage and tiling of the sweep *)

(** C1: for every list of scored spans (each with its start not after its
    stop) and every position [p] of the document, exactly one emitted chunk
    contains [p], and its [Stats] is the sum of the [Stats] of the spans that
    contain [p]; [parse] emits these chunks for the spans of its
    instructions. *)
Theorem coverage_equivalence (obs : list Observation) (p : Z * Z) :
  well_formed obs ->
  within FIRST_POSTION LAST_POSITION p ->
  (∃ c, c ∈ synthesize obs ∧ contains c p ∧
        stats c = covering_sum obs p ∧
        ∀ c', c' ∈ synthesize obs -> contains c' p -> c' = c) ∧
  (∀ SPECIALIZED_INSTRUCTIONS code,
     observations SPECIALIZED_INSTRUCTIONS code = Ok obs ->
     parse SPECIALIZED_INSTRUCTIONS code = Ok (synthesize obs)).
Proof.
  intros Hwf [Hp1 Hp2]. split.
  - pose proof (synthesize_tiles obs) as Ht.
    destruct (tiles_cover _ _ _ p Ht) as (c & Hc & Hcp).
    { split.
      - eapply pos_le_trans; [apply lowest_le_FIRST|done].
      - eapply pos_lt_le_trans; [done|apply LAST_le_highest]. }
    exists c. split; [done|]. split; [done|]. split.
    + rewrite (synthesize_stats obs c p Hc Hcp).
      rewrite delta_sum_registered, delta_sum_initial by done.
      apply Stats_add_0_l.
    + intros c' Hc' Hcp'. by eapply tiles_unique.
  - intros SP code Hobs. by rewrite parse_synthesize, Hobs.
Qed.

Lemma coverage_equivalence_witness :
  well_formed sample_observations ∧
  within FIRST_POSTION LAST_POSITION (1, 3) ∧
  (∃ c, c ∈ synthesize sample_observations ∧ contains c (1, 3) ∧
        stats c = covering_sum sample_observations (1, 3) ∧
        ∀ c', c' ∈ synthesize sample_observations -> contains c' (1, 3) -> c' = c).
Proof.
  assert (Hwf : well_formed sample_observations).
  { repeat constructor; pos_solve. }
  assert (Hp : within FIRST_POSTION LAST_POSITION (1, 3)).
  { pos_solve. }
  split; [exact Hwf|]. split; [exact Hp|].
  exact (proj1 (coverage_equivalence sample_observations (1, 3) Hwf Hp)).
Defined.

Example coverage_sample :
  synthesize sample_observations =
  [ mkSourceChunk (1, 0) (1, 2) (mkStats 0 0 1);
    mkSourceChunk (1, 2) (1, 4) (mkStats 1 1 1);
    mkSourceChunk (1, 4) (1, 5) (mkStats 1 0 1);
    mkSourceChunk (1, 5) (2, 0) (mkStats 1 0 0);
    mkSourceChunk (2, 0) LAST_POSITION (mkStats 0 0 0) ].
Proof. vm_compute. reflexivity. Qed.

(** What [tiles] says, spelt out: the chunks are in ascending order of their
    starts, none is empty, each stops where the next starts, the first starts
    at [lo] and the last stops at [hi]. *)
Lemma tiles_explicit lo hi chunks :
  tiles lo hi chunks ->
  StronglySorted (λ c c', pos_lt (start c) (start c')) chunks ∧
  Forall (λ c, pos_lt (start c) (stop c)) chunks ∧
  (∀ i c c', chunks !! i = Some c -> chunks !! S i = Some c' ->
             stop c = start c') ∧
  (∃ c, head chunks = Some c ∧ start c = lo) ∧
  (∃ c, last chunks = Some c ∧ stop c = hi).
Proof.
  intros Ht. split_and!.
  - by eapply tiles_sorted.
  - apply Forall_forall. intros c Hc. by eapply tiles_start_ge.
  - intros i c c'. by eapply tiles_adjacent.
  - by eapply tiles_ends.
  - by eapply tiles_ends.
Qed.

(** C2, as the claim states it, fails: a span that starts before the first
    position of the document moves the start of the partition.  CPython 3.11
    attributes the [RESUME] of a module to line 0, so [parse] meets such a
    span on every module. *)
Lemma tiling_counterexample :
  (∃ obs, observations sample_specialized sample_module =
            Ok (resume_observation :: obs)) ∧
  (∃ c chunks, parse sample_specialized sample_module = Ok (c :: chunks) ∧
               start c = (0, 0)) ∧
  (∃ c, head (synthesize [resume_observation]) = Some c ∧ start c = (0, 0)) ∧
  ¬ tiles FIRST_POSTION LAST_POSITION (synthesize [resume_observation]).
Proof.
  split; [eexists; vm_compute; reflexivity|].
  split; [do 2 eexists; split; vm_compute; reflexivity|].
  split; [eexists; split; vm_compute; reflexivity|].
  intros Ht. apply tiles_ends in Ht as [(c & Hc & Hs) _].
  vm_compute in Hc. injection Hc as <-. discriminate Hs.
Qed.

(** C2, amended: the chunks of any list of scored spans are in ascending
    order, non-empty and contiguous, and they cover exactly the span from the
    least to the greatest registered position (the two sentinels and both
    ends of every span); when every span lies between the sentinels this is
    the whole document, also for an empty list of spans. *)
Theorem synthesize_tiling (obs : list Observation) :
  tiles (lowest obs) (highest obs) (synthesize obs) ∧
  (in_document obs -> tiles FIRST_POSTION LAST_POSITION (synthesize obs)) ∧
  synthesize [] = [mkSourceChunk FIRST_POSTION LAST_POSITION Stats0] ∧
  (∀ SPECIALIZED_INSTRUCTIONS code,
     observations SPECIALIZED_INSTRUCTIONS code = Ok obs ->
     parse SPECIALIZED_INSTRUCTIONS code = Ok (synthesize obs)).
Proof.
  split_and!.
  - apply synthesize_tiles.
  - intros [Hlo Hhi]%in_document_ends.
    rewrite <- Hlo at 1. rewrite <- Hhi. apply synthesize_tiles.
  - vm_compute. reflexivity.
  - intros SP code Hobs. by rewrite parse_synthesize, Hobs.
Qed.

Lemma synthesize_tiling_witness :
  in_document sample_observations ∧
  tiles FIRST_POSTION LAST_POSITION (synthesize sample_observations).
Proof.
  assert (Hdoc : in_document sample_observations).
  { repeat constructor; pos_solve. }
  split; [exact Hdoc|].
  exact (proj1 (proj2 (synthesize_tiling sample_observations)) Hdoc).
Defined.

(** ** The classifier *)

(** C4: [score_instruction] is the three-rule definition of the
    specification, and its result always has exactly one counter equal to 1
    and the other two equal to 0. *)
Theorem score_instruction_reference (SPECIALIZED_INSTRUCTIONS : gset string)
    (instruction : Instruction) (previous : option Instruction) :
  score_instruction SPECIALIZED_INSTRUCTIONS instruction previous =
    score_reference SPECIALIZED_INSTRUCTIONS instruction previous ∧
  one_hot (score_instruction SPECIALIZED_INSTRUCTIONS instruction previous).
Proof.
  unfold score_instruction, score_reference, in_specializing_family,
    adaptive_form, fused_superinstruction, is_superinstruction, one_hot.
  destruct (bool_decide (opname instruction ∈ SPECIALIZED_INSTRUCTIONS)),
    (endswith (opname instruction) "_ADAPTIVE"), previous as [prev|],
    (is_jump_target instruction);
    simpl; try destruct (str_contains "__" (opname prev)); simpl; auto.
Qed.

Example score_adaptive :
  score_instruction sample_specialized
    (mkInstruction "BINARY_OP_ADAPTIVE" 0 false) None = mkStats 0 1 0.
Proof. vm_compute. reflexivity. Qed.

Example score_after_superinstruction :
  score_instruction sample_specialized (mkInstruction "STORE_FAST" 2 false)
    (Some (mkInstruction "LOAD_FAST__LOAD_FAST" 0 false)) = mkStats 1 0 0 ∧
  score_instruction sample_specialized (mkInstruction "STORE_FAST" 2 true)
    (Some (mkInstruction "LOAD_FAST__LOAD_FAST" 0 false)) = mkStats 0 0 1.
Proof. split; vm_compute; reflexivity. Qed.

(** ** Instructions without a complete position *)

(** C7: an instruction with a missing coordinate registers nothing and
    raises nothing, and it is the [previous] instruction when the next
    instruction is scored. *)
Theorem missing_position_skipped (SPECIALIZED_INSTRUCTIONS : gset string)
    (fixed_positions : list (option Z * option Z * option Z * option Z))
    (events : gmap (Z * Z) Stats) (previous : option Instruction)
    (instruction : Instruction)
    (position : option Z * option Z * option Z * option Z) :
  fixed_positions !! (offset instruction / 2)%nat = Some position ->
  position_missing position ->
  parse_instruction SPECIALIZED_INSTRUCTIONS fixed_positions
    (events, previous) instruction = Ok (events, Some instruction) ∧
  observe SPECIALIZED_INSTRUCTIONS fixed_positions previous instruction = Ok None ∧
  ∀ next lineno end_lineno col_offset end_col_offset,
    fixed_positions !! (offset next / 2)%nat =
      Some (Some lineno, Some end_lineno, Some col_offset, Some end_col_offset) ->
    foldM (parse_instruction SPECIALIZED_INSTRUCTIONS fixed_positions)
      (events, previous) [instruction; next] =
    Ok (register events
          (mkObservation (lineno, col_offset) (end_lineno, end_col_offset)
             (score_instruction SPECIALIZED_INSTRUCTIONS next (Some instruction))),
        Some next).
Proof.
  intros Hpos Hmiss.
  assert (Hstep : parse_instruction SPECIALIZED_INSTRUCTIONS fixed_positions
                    (events, previous) instruction = Ok (events, Some instruction)).
  { unfold parse_instruction. rewrite Hpos.
    destruct position as [[[[l|] [el|]] [c|]] [ec|]]; try reflexivity.
    simpl in Hmiss. by destruct Hmiss as [?|[?|[?|?]]]. }
  split_and!.
  - exact Hstep.
  - unfold observe. rewrite Hpos.
    destruct position as [[[[l|] [el|]] [c|]] [ec|]]; try reflexivity.
    simpl in Hmiss. by destruct Hmiss as [?|[?|[?|?]]].
  - intros next l el c ec Hnext. cbn [foldM]. rewrite Hstep.
    cbn [mbind result_bind]. unfold parse_instruction. rewrite Hnext.
    reflexivity.
Qed.

Lemma missing_position_skipped_witness :
  let fixed_positions :=
    [ (None, None, None, None); (Some 3, Some 3, Some 4, Some 9) ] in
  let fused := mkInstruction "LOAD_FAST__LOAD_FAST" 0 false in
  let next := mkInstruction "STORE_FAST" 2 false in
  parse_instruction sample_specialized fixed_positions (initial_events, None) fused =
    Ok (initial_events, Some fused) ∧
  foldM (parse_instruction sample_specialized fixed_positions)
    (initial_events, None) [fused; next] =
  Ok (register initial_events (mkObservation (3, 4) (3, 9) (mkStats 1 0 0)),
      Some next).
Proof.
  intros fixed_positions fused next.
  destruct (missing_position_skipped sample_specialized fixed_positions
              initial_events None fused (None, None, None, None))
    as (H1 & _ & H3); [reflexivity|simpl; auto|].
  split; [exact H1|].
  exact (H3 next 3 3 4 9 eq_refl).
Defined.

(** ** Spans of width zero *)

Lemma register_zero_width (events : gmap (Z * Z) Stats) (c : Z * Z) (s : Stats) :
  register events (mkObservation c c s) =
  <[c := default Stats0 (events !! c)]> events.
Proof.
  unfold register, events_isub, events_iadd. simpl.
  rewrite lookup_insert_eq, insert_insert_eq. simpl.
  by rewrite Stats_add_sub.
Qed.

Lemma sweep_boundary (items : list ((Z * Z) * Stats)) :
  ∀ x y acc q,
    boundary (sweep acc (x :: y :: items)) q <-> q ∈ (x :: y :: items).*1.
Proof.
  induction items as [|z items IH]; intros [k v] [k' v'] acc q.
  - simpl. unfold boundary. split.
    + intros (c & ->%list_elem_of_singleton & [<-|<-]); simpl; set_solver.
    + intros Hq. eexists. split; [apply list_elem_of_here|]. simpl. set_solver.
  - change (sweep acc ((k, v) :: (k', v') :: z :: items))
      with (mkSourceChunk k k' (acc + v) :: sweep (acc + v) ((k', v') :: z :: items)).
    rewrite fmap_cons, elem_of_cons, <- (IH (k', v') z (acc + v)%stats q).
    unfold boundary. split.
    + intros (c & [->|Hc]%elem_of_cons & Hq).
      * simpl in Hq. destruct Hq as [<-|<-]; [by left|].
        right. apply IH. set_solver.
      * right. eauto.
    + intros [->|(c & Hc & Hq)].
      * eexists. split; [apply list_elem_of_here|]. by left.
      * exists c. split; [by apply list_elem_of_further|done].
Qed.

(** The ends of the chunks are exactly the registered positions. *)
Lemma synthesize_boundary (obs : list Observation) (q : Z * Z) :
  boundary (synthesize obs) q <-> q ∈ dom (foldl register initial_events obs).
Proof.
  rewrite <- sorted_items_keys. unfold synthesize.
  pose proof (synthesize_tiles obs) as Ht. unfold synthesize in Ht.
  destruct (sorted_items _) as [|x [|y items]].
  - inversion Ht.
  - destruct x. inversion Ht.
  - apply sweep_boundary.
Qed.

Lemma delta_sum_registered_cong (obs : list Observation) (p : Z * Z) :
  ∀ events1 events2 : gmap (Z * Z) Stats,
    delta_sum (map_to_list events1) p = delta_sum (map_to_list events2) p ->
    delta_sum (map_to_list (foldl register events1 obs)) p =
    delta_sum (map_to_list (foldl register events2 obs)) p.
Proof.
  induction obs as [|o obs IH]; intros events1 events2 Heq; [done|].
  simpl. apply IH. by rewrite !delta_sum_register, Heq.
Qed.

Example inverted_span :
  synthesize [mkObservation (2, 0) (1, 5) (mkStats 0 0 1)] =
  [ mkSourceChunk (1, 0) (1, 5) Stats0;
    mkSourceChunk (1, 5) (2, 0) (mkStats 0 0 (-1));
    mkSourceChunk (2, 0) LAST_POSITION Stats0 ].
Proof. vm_compute. reflexivity. Qed.

(** C3, as the claim states it, fails: a span of width zero at a position
    that is not registered yet adds a chunk boundary there, and the check of
    the position in [parse] lets such a span through. *)
Lemma zero_width_counterexample :
  synthesize [] = [mkSourceChunk (1, 0) LAST_POSITION Stats0] ∧
  synthesize [mkObservation (2, 0) (2, 0) (mkStats 0 0 1)] =
    [mkSourceChunk (1, 0) (2, 0) Stats0; mkSourceChunk (2, 0) LAST_POSITION Stats0] ∧
  observations sample_specialized zero_width_module =
    Ok [mkObservation (2, 0) (2, 0) (mkStats 0 0 1)].
Proof. split_and!; vm_compute; reflexivity. Qed.

(** C3, amended: a span of width zero at [c] leaves every registered delta
    as it is and stores [c] as a key of [events] (with delta zero when [c]
    was not registered); so [c] is a chunk boundary, no other boundary
    changes, and the [Stats] at every position stay the same.  [parse]
    registers such a span like any other: only a missing coordinate makes it
    skip an instruction. *)
Theorem zero_width_observation (obs1 obs2 : list Observation)
    (c : Z * Z) (s : Stats) :
  (∀ events : gmap (Z * Z) Stats,
     register events (mkObservation c c s) =
     <[c := default Stats0 (events !! c)]> events) ∧
  (∀ q, boundary (synthesize (obs1 ++ mkObservation c c s :: obs2)) q <->
        q = c ∨ boundary (synthesize (obs1 ++ obs2)) q) ∧
  (∀ p ch ch',
     ch ∈ synthesize (obs1 ++ mkObservation c c s :: obs2) ->
     ch' ∈ synthesize (obs1 ++ obs2) ->
     contains ch p -> contains ch' p -> stats ch = stats ch') ∧
  (∀ SPECIALIZED_INSTRUCTIONS fixed_positions events previous instruction,
     fixed_positions !! (offset instruction / 2)%nat =
       Some (Some c.1, Some c.1, Some c.2, Some c.2) ->
     parse_instruction SPECIALIZED_INSTRUCTIONS fixed_positions
       (events, previous) instruction =
     Ok (register events
           (mkObservation c c
              (score_instruction SPECIALIZED_INSTRUCTIONS instruction previous)),
         Some instruction)).
Proof.
  split_and!.
  - intros events. apply register_zero_width.
  - intros q. rewrite !synthesize_boundary, !dom_registered.
    setoid_rewrite elem_of_app. setoid_rewrite elem_of_cons. split.
    + intros [H|(o & [Ho|[->|Ho]] & Hq)]; simpl in *; eauto 7.
      left. by destruct Hq.
    + intros [->|[H|(o & [Ho|Ho] & Hq)]]; eauto 7.
  - intros p ch ch' Hch Hch' Hp Hp'.
    rewrite (synthesize_stats _ _ _ Hch Hp), (synthesize_stats _ _ _ Hch' Hp').
    rewrite !foldl_app. simpl. apply delta_sum_registered_cong.
    rewrite delta_sum_register. simpl.
    case_decide; [apply Stats_add_sub|apply (Stats_add_sub _ Stats0)].
  - intros SP fixed_positions events previous instruction Hpos.
    unfold parse_instruction. rewrite Hpos. by destruct c.
Qed.

Lemma zero_width_observation_witness :
  parse_instruction sample_specialized (co_positions zero_width_module)
    (initial_events, None) (mkInstruction "NOP" 0 false) =
  Ok (register initial_events (mkObservation (2, 0) (2, 0) (mkStats 0 0 1)),
      Some (mkInstruction "NOP" 0 false)).
Proof.
  exact (proj2 (proj2 (proj2 (zero_width_observation [] [] (2, 0) Stats0)))
           sample_specialized (co_positions zero_width_module)
           initial_events None (mkInstruction "NOP" 0 false) eq_refl).
Defined.

(** ** The colour of a chunk *)

Lemma int_truediv_1_2 : int_truediv 1 2 = Ok float_half.
Proof. vm_compute. reflexivity. Qed.

Lemma float_of_int_1 : float_of_int 1 = Ok (float_lit 1).
Proof. vm_compute. reflexivity. Qed.

Lemma int_truediv_0_l (b : Z) : b ≠ 0 -> int_truediv 0 b = Ok (S754_zero (b <? 0)).
Proof. intros Hb. unfold int_truediv. by destruct b. Qed.

Lemma pymax_half_zero (s : bool) : pymax float_half (S754_zero s) = float_half.
Proof. by destruct s. Qed.

Lemma color_neutral (self : HTMLWriter) (stats : Stats) :
  specialized stats + adaptive stats = 0 ->
  _color self stats = Ok (lit "#ffffff").
Proof. intros H. unfold _color. by rewrite H. Qed.

Lemma color_refines_reference (self : HTMLWriter) (stats : Stats) :
  _color self stats = (c ← reference_colour (_blue self) stats; colour_code c).
Proof.
  unfold _color, reference_colour, reference_hue, reference_lightness.
  destruct (specialized stats + adaptive stats =? 0); [reflexivity|].
  destruct (int_truediv 1 3) as [third|]; [|reflexivity]. cbn [mbind result_bind].
  destruct (fmul_int third _) as [x|]; [|reflexivity]. cbn [mbind result_bind].
  destruct (fdiv_int x _) as [hue|]; [|reflexivity]. cbn [mbind result_bind].
  destruct (int_truediv 1 2) as [half|]; [|reflexivity]. cbn [mbind result_bind].
  destruct (int_truediv (unquickened stats) _) as [ratio|]; [|reflexivity].
  cbn [mbind result_bind].
  destruct (float_of_int 1) as [saturation|]; reflexivity.
Qed.

Lemma reference_lightness_all_quickened (quickened : Z) :
  quickened ≠ 0 -> reference_lightness 0 quickened = Ok float_half.
Proof.
  intros Hq. unfold reference_lightness.
  rewrite int_truediv_1_2, Z.add_0_r. cbn [mbind result_bind].
  rewrite int_truediv_0_l by done. cbn [mbind result_bind].
  by rewrite pymax_half_zero.
Qed.

(** ** The magnitude of floats *)

Lemma digits2_pos_size p : digits2_pos p = Pos.size p.
Proof. induction p; simpl; congruence. Qed.

Lemma Zdigits2_log2 m : 0 < m -> Zdigits2 m = Z.log2 m + 1.
Proof.
  destruct m as [|p|p]; [lia| |lia]. intros _. simpl.
  rewrite digits2_pos_size. destruct p; simpl; lia.
Qed.

Lemma Zdigits2_nonneg m : 0 <= Zdigits2 m.
Proof. destruct m; simpl; lia. Qed.

Lemma Zdigits2_le m k : 0 <= m -> 0 <= k -> Zdigits2 m <= k <-> m < 2 ^ k.
Proof.
  intros Hm Hk. destruct (decide (m = 0)) as [->|Hne].
  - simpl. split; [|lia]. intros _. apply Z.pow_pos_nonneg; lia.
  - rewrite Zdigits2_log2 by lia.
    rewrite (Z.log2_lt_pow2 m k) by lia. lia.
Qed.

Lemma Zdigits2_gt m k : 0 < m -> 0 <= k -> k < Zdigits2 m <-> 2 ^ k <= m.
Proof.
  intros Hm Hk. pose proof (Zdigits2_le m k ltac:(lia) Hk). lia.
Qed.

Lemma Zdigits2_pos m : 0 < m -> 0 < Zdigits2 m.
Proof. intros Hm. rewrite Zdigits2_log2 by done. pose proof (Z.log2_nonneg m). lia. Qed.

Lemma Zdigits2_bound m : 0 <= m -> m < 2 ^ Zdigits2 m.
Proof.
  intros Hm. apply Zdigits2_le; [done|apply Zdigits2_nonneg|lia].
Qed.

Lemma Zdigits2_lower m : 0 < m -> 2 ^ (Zdigits2 m - 1) <= m.
Proof.
  intros Hm. pose proof (Zdigits2_pos m Hm).
  apply Zdigits2_gt; [done|lia|lia].
Qed.

Lemma Zdigits2_mono a b : 0 <= a <= b -> Zdigits2 a <= Zdigits2 b.
Proof.
  intros H. apply Zdigits2_le; [lia|apply Zdigits2_nonneg|].
  pose proof (Zdigits2_bound b). lia.
Qed.

Lemma Zdigits2_mul a b : 0 <= a -> 0 <= b -> Zdigits2 (a * b) <= Zdigits2 a + Zdigits2 b.
Proof.
  intros Ha Hb. pose proof (Zdigits2_nonneg a). pose proof (Zdigits2_nonneg b).
  apply Zdigits2_le; [nia|lia|]. rewrite Z.pow_add_r by done.
  pose proof (Zdigits2_bound a Ha). pose proof (Zdigits2_bound b Hb). nia.
Qed.

Lemma Zdigits2_succ a : 0 <= a -> Zdigits2 (a + 1) <= Zdigits2 a + 1.
Proof.
  intros Ha. pose proof (Zdigits2_nonneg a).
  apply Zdigits2_le; [lia|lia|]. rewrite Z.pow_add_r by lia.
  change (2 ^ 1) with 2. pose proof (Zdigits2_bound a Ha).
  lia.
Qed.

Lemma Zdigits2_add a b k :
  0 <= a -> 0 <= b -> Zdigits2 a <= k -> Zdigits2 b <= k -> Zdigits2 (a + b) <= k + 1.
Proof.
  intros Ha Hb Hka Hkb. pose proof (Zdigits2_nonneg a). assert (0 <= k) by lia.
  apply Zdigits2_le; [lia|lia|]. rewrite Z.pow_add_r by lia.
  change (2 ^ 1) with 2.
  apply Zdigits2_le in Hka; [|lia..]. apply Zdigits2_le in Hkb; [|lia..]. lia.
Qed.

Lemma Zdigits2_shiftl a n : 0 < a -> 0 <= n -> Zdigits2 (a * 2 ^ n) = Zdigits2 a + n.
Proof.
  intros Ha Hn. pose proof (Z.pow_pos_nonneg 2 n ltac:(lia) Hn).
  rewrite !Zdigits2_log2 by nia.
  rewrite <- Z.shiftl_mul_pow2 by done. rewrite Z.log2_shiftl by lia. lia.
Qed.

Lemma Zdigits2_shiftr_le a n :
  0 <= a -> 0 <= n -> Zdigits2 (a / 2 ^ n) <= Z.max 0 (Zdigits2 a - n).
Proof.
  intros Ha Hn. pose proof (Z.pow_pos_nonneg 2 n ltac:(lia) Hn).
  pose proof (Zdigits2_bound a Ha) as Hb. pose proof (Zdigits2_nonneg a).
  apply Zdigits2_le; [apply Z.div_pos; lia|lia|].
  apply Z.div_lt_upper_bound; [lia|].
  rewrite <- Z.pow_add_r by lia.
  eapply Z.lt_le_trans; [exact Hb|]. apply Z.pow_le_mono_r; lia.
Qed.

Lemma Zdigits2_shiftr_ge a n :
  0 < a -> 0 <= n -> n < Zdigits2 a ->
  0 < a / 2 ^ n ∧ Zdigits2 a - n <= Zdigits2 (a / 2 ^ n).
Proof.
  intros Ha Hn Hlt. pose proof (Z.pow_pos_nonneg 2 n ltac:(lia) Hn).
  pose proof (Zdigits2_lower a Ha) as Hl.
  assert (2 ^ (Zdigits2 a - 1 - n) <= a / 2 ^ n) as Hq.
  { apply Z.div_le_lower_bound; [lia|]. rewrite <- Z.pow_add_r by lia.
    by replace (n + (Zdigits2 a - 1 - n)) with (Zdigits2 a - 1) by lia. }
  pose proof (Z.pow_pos_nonneg 2 (Zdigits2 a - 1 - n) ltac:(lia) ltac:(lia)).
  split; [lia|].
  enough (Zdigits2 a - 1 - n < Zdigits2 (a / 2 ^ n)) by lia.
  apply Zdigits2_gt; [lia|lia|done].
Qed.

(** ** Rounding *)

Lemma shr_1_m r : 0 <= shr_m r -> shr_m (shr_1 r) = shr_m r / 2.
Proof.
  destruct r as [m r s]. simpl. intros Hm. rewrite <- Z.div2_div.
  destruct m as [|[p|p|]|p]; try reflexivity. lia.
Qed.

Lemma iter_shr_1_m p r :
  0 <= shr_m r ->
  0 <= shr_m (SpecFloat.iter_pos shr_1 p r) ∧
  shr_m (SpecFloat.iter_pos shr_1 p r) = shr_m r / 2 ^ Z.pos p.
Proof.
  revert r. induction p as [p IH|p IH|]; intros r Hr; cbn [SpecFloat.iter_pos].
  - assert (0 <= shr_m (shr_1 r)) as H1.
    { rewrite shr_1_m by done. apply Z.div_pos; lia. }
    destruct (IH _ H1) as [H2 E2]. destruct (IH _ H2) as [H3 E3].
    split; [done|]. rewrite E3, E2, shr_1_m by done.
    pose proof (Z.pow_pos_nonneg 2 (Z.pos p) ltac:(lia) ltac:(lia)).
    rewrite !Z.div_div by lia. f_equal.
    replace (Z.pos p~1) with (1 + Z.pos p + Z.pos p) by lia.
    rewrite !Z.pow_add_r by lia. change (2 ^ 1) with 2. lia.
  - destruct (IH _ Hr) as [H2 E2]. destruct (IH _ H2) as [H3 E3].
    split; [done|]. rewrite E3, E2.
    pose proof (Z.pow_pos_nonneg 2 (Z.pos p) ltac:(lia) ltac:(lia)).
    rewrite !Z.div_div by lia. f_equal.
    replace (Z.pos p~0) with (Z.pos p + Z.pos p) by lia.
    rewrite !Z.pow_add_r by lia. lia.
  - rewrite shr_1_m by done. split; [apply Z.div_pos; lia|reflexivity].
Qed.

Lemma shr_record_of_loc_m m l : shr_m (shr_record_of_loc m l) = m.
Proof. by destruct l as [|[]]. Qed.

Lemma shr_fexp_spec m e l :
  0 <= m ->
  ∃ r e',
    shr_fexp 53 1024 m e l = (r, e') ∧
    0 <= shr_m r ∧
    e' = Z.max e (fexp 53 1024 (Zdigits2 m + e)) ∧
    Zdigits2 (shr_m r) + e' <= Z.max (Zdigits2 m + e) (-1074) ∧
    (0 < m -> -1073 <= Zdigits2 m + e ->
     0 < shr_m r ∧ Zdigits2 m + e <= Zdigits2 (shr_m r) + e').
Proof.
  intros Hm. unfold shr_fexp, shr, fexp, emin.
  pose proof (Zdigits2_nonneg m) as Hd.
  destruct (Z.max (Zdigits2 m + e - 53) (3 - 1024 - 53) - e) as [|n|n] eqn:Hn.
  - eexists _, _. split; [reflexivity|]. rewrite shr_record_of_loc_m.
    repeat split; lia.
  - destruct (iter_shr_1_m n (shr_record_of_loc m l)) as [H0 E0];
      [by rewrite shr_record_of_loc_m|].
    rewrite shr_record_of_loc_m in E0.
    eexists _, _. split; [reflexivity|]. rewrite E0.
    pose proof (Zdigits2_shiftr_le m (Z.pos n) Hm ltac:(lia)).
    split; [by rewrite <- E0|]. split; [lia|]. split; [lia|].
    intros Hpos HD. destruct (Zdigits2_shiftr_ge m (Z.pos n)); lia.
  - eexists _, _. split; [reflexivity|]. rewrite shr_record_of_loc_m.
    repeat split; lia.
Qed.

Lemma round_nearest_even_bound m l :
  m <= round_nearest_even m l <= m + 1.
Proof.
  destruct l as [|[]]; simpl; try lia. destruct (Z.even m); lia.
Qed.

Lemma finite_below_mono k E k' E' x :
  finite_below k E x -> k <= k' -> E <= E' -> finite_below k' E' x.
Proof. destruct x; simpl; lia. Qed.

Lemma binary_round_aux_below sx mx ex lx k E :
  0 <= mx -> Zdigits2 mx + ex <= k -> ex <= E ->
  -1074 <= k -> k - 52 <= E -> -1074 <= E -> E <= 971 ->
  finite_below (k + 1) E (binary_round_aux 53 1024 sx mx ex lx).
Proof.
  intros Hm Hk He Hk0 HkE HE0 HE. unfold binary_round_aux.
  destruct (shr_fexp_spec mx ex lx Hm) as (r1 & e1 & -> & Hr1 & -> & Hd1 & _).
  pose proof (round_nearest_even_bound (shr_m r1) (loc_of_shr_record r1)) as Hr.
  set (m2 := round_nearest_even (shr_m r1) (loc_of_shr_record r1)) in *.
  set (e1 := Z.max ex (fexp 53 1024 (Zdigits2 mx + ex))) in *.
  assert (Zdigits2 m2 <= Zdigits2 (shr_m r1) + 1) as Hd2.
  { etrans; [apply (Zdigits2_mono m2 (shr_m r1 + 1)); lia|].
    by apply Zdigits2_succ. }
  assert (e1 <= E) as He1 by (unfold e1, fexp, emin; lia).
  destruct (shr_fexp_spec m2 e1 loc_Exact ltac:(lia))
    as (r3 & e3 & -> & Hr3 & -> & Hd3 & _).
  assert (Z.max e1 (fexp 53 1024 (Zdigits2 m2 + e1)) <= E) as He3
    by (unfold fexp, emin; lia).
  destruct (shr_m r3) as [|m3|m3] eqn:Hm3; [done| |lia].
  rewrite (proj2 (Z.leb_le _ _)) by lia. simpl in *. lia.
Qed.

Lemma binary_round_aux_above sx mx ex lx b :
  0 < mx -> -1073 <= b -> b <= Zdigits2 mx + ex ->
  finite_above b (binary_round_aux 53 1024 sx mx ex lx) ∨
  ∃ s, binary_round_aux 53 1024 sx mx ex lx = S754_infinity s.
Proof.
  intros Hm Hb Hd. unfold binary_round_aux.
  destruct (shr_fexp_spec mx ex lx ltac:(lia)) as (r1 & e1 & -> & Hr1 & -> & _ & Hl1).
  destruct Hl1 as [Hp1 Hl1]; [done|lia|].
  pose proof (round_nearest_even_bound (shr_m r1) (loc_of_shr_record r1)) as Hr.
  set (m2 := round_nearest_even (shr_m r1) (loc_of_shr_record r1)) in *.
  set (e1 := Z.max ex (fexp 53 1024 (Zdigits2 mx + ex))) in *.
  assert (Zdigits2 (shr_m r1) <= Zdigits2 m2) as Hd2
    by (apply Zdigits2_mono; lia).
  destruct (shr_fexp_spec m2 e1 loc_Exact ltac:(lia))
    as (r3 & e3 & -> & Hr3 & -> & _ & Hl3).
  destruct Hl3 as [Hp3 Hl3]; [lia|lia|].
  destruct (shr_m r3) as [|m3|m3] eqn:Hm3; [lia| |lia].
  destruct (_ <=? _); [|by right; eexists]. left. simpl in *. lia.
Qed.

Lemma iter_xO m d : Z.pos (Pos.iter xO m d) = Z.pos m * 2 ^ Z.pos d.
Proof.
  induction d as [|d IH] using Pos.peano_ind.
  - simpl. lia.
  - rewrite Pos.iter_succ, Pos2Z.inj_xO, IH, Pos2Z.inj_succ, Z.pow_succ_r by lia.
    lia.
Qed.

Lemma shl_align_spec mx ex ex' :
  ∃ mz ez,
    shl_align mx ex ex' = (mz, ez) ∧ ez <= ex ∧ ez = Z.min ex ex' ∧
    Z.pos mz = Z.pos mx * 2 ^ (ex - ez).
Proof.
  unfold shl_align. destruct (ex' - ex) as [|d|d] eqn:Hd.
  - eexists _, _. split; [reflexivity|]. rewrite Z.sub_diag. simpl. lia.
  - eexists _, _. split; [reflexivity|]. rewrite Z.sub_diag. simpl. lia.
  - eexists _, _. split; [reflexivity|]. rewrite iter_xO.
    replace (ex - ex') with (Z.pos d) by lia. lia.
Qed.

Lemma shl_align_digits mx ex ex' mz ez :
  shl_align mx ex ex' = (mz, ez) ->
  Z.pos (digits2_pos mz) + ez = Z.pos (digits2_pos mx) + ex ∧ ez <= ex.
Proof.
  intros H. destruct (shl_align_spec mx ex ex') as (mz' & ez' & H' & Hle & _ & Hz).
  rewrite H in H'. injection H' as <- <-. split; [|done].
  change (Zdigits2 (Z.pos mz) + ez = Zdigits2 (Z.pos mx) + ex).
  rewrite Hz, Zdigits2_shiftl by lia. lia.
Qed.

Lemma binary_round_below sx mx ex k E :
  Z.pos (digits2_pos mx) + ex <= k -> ex <= E ->
  -1074 <= k -> k - 52 <= E -> -1074 <= E -> E <= 971 ->
  finite_below (k + 1) E (binary_round 53 1024 sx mx ex).
Proof.
  intros Hk He Hk0 HkE HE0 HE. unfold binary_round.
  destruct (shl_align mx ex _) as [mz ez] eqn:Hz.
  apply shl_align_digits in Hz as [Hz Hle].
  apply binary_round_aux_below; simpl; lia.
Qed.

Lemma binary_normalize_below m e sz k E :
  Zdigits2 m + e <= k -> e <= E ->
  -1074 <= k -> k - 52 <= E -> -1074 <= E -> E <= 971 ->
  finite_below (k + 1) E (binary_normalize 53 1024 m e sz).
Proof.
  intros Hk He Hk0 HkE HE0 HE.
  destruct m as [|m|m]; [done|..]; by apply binary_round_below.
Qed.

Lemma binary_normalize_above m e sz b :
  0 < m -> -1073 <= b -> b <= Zdigits2 m + e ->
  finite_above b (binary_normalize 53 1024 m e sz) ∨
  ∃ s, binary_normalize 53 1024 m e sz = S754_infinity s.
Proof.
  intros Hm Hb Hd. destruct m as [|m|m]; [lia| |lia].
  unfold binary_normalize, binary_round.
  destruct (shl_align m e _) as [mz ez] eqn:Hz.
  apply shl_align_digits in Hz as [Hz Hle].
  apply binary_round_aux_above; simpl in *; lia.
Qed.

(** ** The operations *)

Lemma Zdigits2_abs m : Zdigits2 (Z.abs m) = Zdigits2 m.
Proof. by destruct m. Qed.

Lemma Zdigits2_div a b :
  0 <= a -> 0 < b -> Zdigits2 (a / b) <= Z.max 0 (Zdigits2 a - Zdigits2 b + 1).
Proof.
  intros Ha Hb. pose proof (Zdigits2_lower b Hb) as Hl.
  pose proof (Zdigits2_pos b Hb) as Hp.
  pose proof (Z.pow_pos_nonneg 2 (Zdigits2 b - 1) ltac:(lia) ltac:(lia)) as H2.
  etrans; [apply (Zdigits2_mono _ (a / 2 ^ (Zdigits2 b - 1)))|].
  - split; [apply Z.div_pos; lia|]. apply Z.div_le_compat_l; lia.
  - etrans; [apply Zdigits2_shiftr_le; lia|]. lia.
Qed.

Lemma fmul_below a Ea b Eb k E x y :
  finite_below a Ea x -> finite_below b Eb y ->
  Ea + Eb <= E -> a + b + 1 <= k -> -1073 <= k -> k - 53 <= E ->
  -1074 <= E -> E <= 971 ->
  finite_below k E (fmul x y).
Proof.
  intros Hx Hy HE Hk Hk0 HkE HE0 HE1.
  destruct x as [sx|sx| |sx mx ex], y as [sy|sy| |sy my ey]; try done.
  destruct Hx as [Hx Hex], Hy as [Hy Hey]. unfold fmul, SFmul.
  eapply finite_below_mono;
    [apply (binary_round_aux_below _ _ _ _ (k - 1) E)|lia|lia]; try lia.
  rewrite Pos2Z.inj_mul.
  pose proof (Zdigits2_mul (Z.pos mx) (Z.pos my) ltac:(lia) ltac:(lia)).
  simpl in *. lia.
Qed.

Lemma shl_align_fst mx ex ez :
  ez <= ex ->
  Zdigits2 (Z.pos (shl_align mx ex ez).1) + ez = Z.pos (digits2_pos mx) + ex.
Proof.
  intros Hle. destruct (shl_align mx ex ez) as [mz ez'] eqn:Hz.
  destruct (shl_align_spec mx ex ez) as (mz' & ez'' & H' & _ & Hmin & _).
  rewrite Hz in H'. injection H' as <- <-.
  apply shl_align_digits in Hz as [Hz _]. simpl in *. lia.
Qed.

Lemma aligned_sum_below sx mx ex sy my ey k (op : Z -> Z -> Z) :
  (∀ u v, Z.abs (op u v) <= Z.abs u + Z.abs v) ->
  Z.pos (digits2_pos mx) + ex <= k -> Z.pos (digits2_pos my) + ey <= k ->
  Zdigits2 (op (cond_Zopp sx (Z.pos (shl_align mx ex (Z.min ex ey)).1))
               (cond_Zopp sy (Z.pos (shl_align my ey (Z.min ex ey)).1)))
    + Z.min ex ey <= k + 1.
Proof.
  intros Hop Hx Hy.
  pose proof (shl_align_fst mx ex (Z.min ex ey) ltac:(lia)) as H1.
  pose proof (shl_align_fst my ey (Z.min ex ey) ltac:(lia)) as H2.
  set (u := (shl_align mx ex (Z.min ex ey)).1) in *.
  set (v := (shl_align my ey (Z.min ex ey)).1) in *.
  rewrite <- Zdigits2_abs.
  pose proof (Hop (cond_Zopp sx (Z.pos u)) (cond_Zopp sy (Z.pos v))) as Hle.
  assert (Z.abs (cond_Zopp sx (Z.pos u)) = Z.pos u) as Eu by (by destruct sx).
  assert (Z.abs (cond_Zopp sy (Z.pos v)) = Z.pos v) as Ev by (by destruct sy).
  rewrite Eu, Ev in Hle.
  pose proof (Zdigits2_mono _ _ (conj (Z.abs_nonneg _) Hle)) as Hm.
  pose proof (Zdigits2_add (Z.pos u) (Z.pos v) (k - Z.min ex ey)
                ltac:(lia) ltac:(lia) ltac:(lia) ltac:(lia)).
  lia.
Qed.

Lemma fadd_below a b k E x y :
  finite_below a E x -> finite_below b E y ->
  a + 2 <= k -> b + 2 <= k -> -1072 <= k -> k - 53 <= E ->
  -1074 <= E -> E <= 971 ->
  finite_below k E (fadd x y).
Proof.
  intros Hx Hy Ha Hb Hk0 HkE HE0 HE1.
  destruct x as [sx|sx| |sx mx ex], y as [sy|sy| |sy my ey]; try done.
  - by destruct sx, sy.
  - simpl in *. lia.
  - simpl in *. lia.
  - destruct Hx as [Hx Hex], Hy as [Hy Hey]. unfold fadd, SFadd.
    eapply finite_below_mono;
      [apply (binary_normalize_below _ _ _ (k - 1) E)|lia|lia]; try lia.
    etrans; [apply (aligned_sum_below _ _ _ _ _ _ (k - 2)); lia|]. lia.
Qed.

Lemma fsub_below a b k E x y :
  finite_below a E x -> finite_below b E y ->
  a + 2 <= k -> b + 2 <= k -> -1072 <= k -> k - 53 <= E ->
  -1074 <= E -> E <= 971 ->
  finite_below k E (fsub x y).
Proof.
  intros Hx Hy Ha Hb Hk0 HkE HE0 HE1.
  destruct x as [sx|sx| |sx mx ex], y as [sy|sy| |sy my ey]; try done.
  - by destruct sx, sy.
  - simpl in *. lia.
  - simpl in *. lia.
  - destruct Hx as [Hx Hex], Hy as [Hy Hey]. unfold fsub, SFsub.
    eapply finite_below_mono;
      [apply (binary_normalize_below _ _ _ (k - 1) E)|lia|lia]; try lia.
    etrans; [apply (aligned_sum_below _ _ _ _ _ _ (k - 2)); lia|]. lia.
Qed.

Lemma fneg_below k E x : finite_below k E x -> finite_below k E (fneg x).
Proof. by destruct x. Qed.

Lemma fdiv_below a Ea b k E x y :
  finite_below a Ea x -> finite_above b y ->
  a - b + 2 <= k -> -1073 <= k -> k - 53 <= E -> -1074 <= E -> E <= 971 ->
  finite_below k E (fdiv x y).
Proof.
  intros Hx Hy Hk Hk0 HkE HE0 HE1.
  destruct x as [sx|sx| |sx mx ex], y as [sy|sy| |sy my ey]; try done.
  destruct Hx as [Hx _]. simpl in Hy. unfold fdiv, SFdiv, SFdiv_core_binary.
  set (e' := Z.min _ _).
  assert (e' <= ex - ey) as He' by (unfold e'; lia).
  assert (e' <= E) as HeE by (unfold e', fexp, emin; simpl; lia).
  set (m' := match ex - ey - e' with
             | 0 => Z.pos mx
             | Z.pos _ => Z.shiftl (Z.pos mx) (ex - ey - e')
             | Z.neg _ => 0
             end).
  assert (m' = Z.pos mx * 2 ^ (ex - ey - e')) as Hm'.
  { unfold m'. destruct (ex - ey - e') as [|s|s] eqn:Hs; [simpl; lia| |lia].
    by rewrite Z.shiftl_mul_pow2. }
  pose proof (Z.pow_pos_nonneg 2 (ex - ey - e') ltac:(lia) ltac:(lia)) as Hpow.
  assert (Z.div_eucl m' (Z.pos my) = (m' / Z.pos my, m' mod Z.pos my)) as Hq.
  { unfold Z.div, Z.modulo. by destruct (Z.div_eucl m' (Z.pos my)). }
  rewrite Hq.
  pose proof (Zdigits2_div m' (Z.pos my) ltac:(nia) ltac:(lia)) as Hd.
  rewrite Hm', Zdigits2_shiftl in Hd by lia. rewrite <- Hm' in Hd.
  eapply finite_below_mono;
    [apply (binary_round_aux_below _ _ _ _ (k - 1) E)|lia|lia]; try lia.
  - apply Z.div_pos; nia.
  - simpl in *. unfold e', fexp, emin in *. lia.
Qed.

Lemma int_of_float_returns k E x :
  finite_below k E x -> ∃ n, int_of_float x = Ok n.
Proof. destruct x; simpl; [eauto|done|done|eauto]. Qed.

(** ** The colour computation returns *)

Lemma float_lit_1_below : finite_below 1 0 (float_lit 1).
Proof. by vm_compute. Qed.

Lemma float_lit_2_below : finite_below 2 0 (float_lit 2).
Proof. by vm_compute. Qed.

Lemma float_lit_6_below : finite_below 3 0 (float_lit 6).
Proof. by vm_compute. Qed.

Lemma float_lit_255_below : finite_below 8 0 (float_lit 255).
Proof. by vm_compute. Qed.

Lemma float_half_below : finite_below 0 0 float_half.
Proof. by vm_compute. Qed.

Lemma ONE_THIRD_below : finite_below 0 0 ONE_THIRD.
Proof. by vm_compute. Qed.

Lemma TWO_THIRD_below : finite_below 0 0 TWO_THIRD.
Proof. by vm_compute. Qed.

Lemma fmod_1_below k E x : finite_below k E x -> finite_below 3 0 (fmod_1 x).
Proof.
  destruct x as [s|s| |s m e]; [done..|].
  intros _. unfold fmod_1.
  set (r := if 0 <=? e then 0 else Z.pos m mod 2 ^ (- e)).
  destruct (r =? 0) eqn:Hr; [exact I|]. apply Z.eqb_neq in Hr.
  assert (e < 0 ∧ 0 < r < 2 ^ (- e)) as [He Hlt].
  { unfold r in *. destruct (0 <=? e) eqn:He0; [done|]. apply Z.leb_gt in He0.
    pose proof (Z.mod_pos_bound (Z.pos m) (2 ^ (- e))
                  ltac:(apply Z.pow_pos_nonneg; lia)). lia. }
  assert (finite_below 1 0
            (binary_normalize 53 1024 (if s then - r else r) e false)) as Hf.
  { apply (binary_normalize_below _ _ _ 0 0); try lia.
    rewrite <- Zdigits2_abs.
    replace (Z.abs (if s then - r else r)) with r by (destruct s; lia).
    enough (Zdigits2 r <= - e) by lia. apply Zdigits2_le; lia. }
  destruct s; [|eapply finite_below_mono; [exact Hf|lia..]].
  apply (fadd_below 1 1 3 0); [exact Hf|exact float_lit_1_below|lia..].
Qed.

Lemma pymax_below k E x y :
  finite_below k E x -> finite_below k E y -> finite_below k E (pymax x y).
Proof. intros Hx Hy. unfold pymax. by destruct (fltb x y). Qed.

Lemma _v_below m1 m2 hue k E :
  finite_below 8 0 m1 -> finite_below 6 0 m2 -> finite_below k E hue ->
  finite_below 22 0 (_v m1 m2 hue).
Proof.
  intros H1 H2 Hh. unfold _v.
  pose proof (fmod_1_below _ _ _ Hh) as Hm. set (h := fmod_1 hue) in *.
  assert (finite_below 10 0 (fsub m2 m1)) as Hd
    by (apply (fsub_below 6 8 10 0); [done|done|lia..]).
  destruct (fltb h ONE_SIXTH); [|destruct (fltb h float_half);
                                  [|destruct (fltb h TWO_THIRD)]].
  - apply (fadd_below 8 20 22 0); [done| |lia..].
    apply (fmul_below 16 0 3 0 20 0); [|exact float_lit_6_below|lia..].
    apply (fmul_below 10 0 3 0 16 0); [done|done|lia..].
  - eapply finite_below_mono; [exact H2|lia..].
  - apply (fadd_below 8 20 22 0); [done| |lia..].
    apply (fmul_below 16 0 3 0 20 0); [|exact float_lit_6_below|lia..].
    apply (fmul_below 10 0 5 0 16 0); [done| |lia..].
    apply (fsub_below 0 3 5 0); [exact TWO_THIRD_below|done|lia..].
  - eapply finite_below_mono; [exact H1|lia..].
Qed.

Lemma hls_to_rgb_below h l k E :
  finite_below k E h -> k + 2 <= 1023 -> -1074 <= E -> E <= 971 ->
  finite_below 2 0 l ->
  let '(r, g, b) := hls_to_rgb h l (float_lit 1) in
  finite_below 22 0 r ∧ finite_below 22 0 g ∧ finite_below 22 0 b.
Proof.
  intros Hh Hk HE0 HE1 Hl. unfold hls_to_rgb.
  replace (SFeqb (float_lit 1) (float_lit 0)) with false by (by vm_compute).
  set (m2 := if fleb l float_half then _ else _).
  assert (finite_below 6 0 m2) as H2.
  { unfold m2. destruct (fleb l float_half).
    - apply (fmul_below 2 0 3 0 6 0); [done| |lia..].
      apply (fadd_below 1 1 3 0); [exact float_lit_1_below..|lia|lia|lia|lia|lia|lia].
    - apply (fsub_below 4 4 6 0); [| |lia..].
      + apply (fadd_below 2 1 4 0); [done|exact float_lit_1_below|lia..].
      + apply (fmul_below 2 0 1 0 4 0); [done|exact float_lit_1_below|lia..]. }
  set (m1 := fsub _ m2).
  assert (finite_below 8 0 m1) as H1.
  { apply (fsub_below 5 6 8 0); [|done|lia..].
    apply (fmul_below 2 0 2 0 5 0); [exact float_lit_2_below|done|lia..]. }
  split_and!.
  - eapply _v_below; [done..|].
    apply (fadd_below (Z.max k 0) 0 (Z.max k 0 + 2) (Z.max (Z.max E 0) (Z.max k 0 - 51)));
      [eapply finite_below_mono; [exact Hh|lia..]
      |eapply finite_below_mono; [exact ONE_THIRD_below|lia..]|lia..].
  - by eapply _v_below.
  - eapply _v_below; [done..|].
    apply (fsub_below (Z.max k 0) 0 (Z.max k 0 + 2) (Z.max (Z.max E 0) (Z.max k 0 - 51)));
      [eapply finite_below_mono; [exact Hh|lia..]
      |eapply finite_below_mono; [exact ONE_THIRD_below|lia..]|lia..].
Qed.

Lemma int_truediv_1_3 : int_truediv 1 3 = Ok ONE_THIRD.
Proof. vm_compute. reflexivity. Qed.

Lemma float_of_int_below n k :
  Z.abs n < 2 ^ k -> 0 <= k <= 1022 ->
  ∃ y, float_of_int n = Ok y ∧ finite_below (k + 1) 971 y ∧
       (0 < n -> finite_above 1 y).
Proof.
  intros Hn Hk. unfold float_of_int.
  assert (finite_below (k + 1) 971 (binary_normalize 53 1024 n 0 false)) as Hf.
  { apply (binary_normalize_below _ _ _ k 971); try lia.
    rewrite <- Zdigits2_abs. enough (Zdigits2 (Z.abs n) <= k) by lia.
    apply Zdigits2_le; lia. }
  pose proof (binary_normalize_above n 0 false 1) as Ha.
  destruct (binary_normalize 53 1024 n 0 false) as [s|s| |s m e] eqn:Hx;
    try done; simpl.
  - eexists. split; [done|]. split; [done|]. intros Hpos.
    destruct Ha as [Ha|[s' Ha]]; [done|lia| |done|done].
    pose proof (Zdigits2_pos n Hpos). lia.
  - eexists. split; [done|]. split; [done|]. intros Hpos.
    destruct Ha as [Ha|[s' Ha]]; [done|lia| |done|done].
    pose proof (Zdigits2_pos n Hpos). lia.
Qed.

Lemma int_truediv_below a b :
  0 <= a <= b -> 0 < b ->
  ∃ y, int_truediv a b = Ok y ∧ finite_below 2 0 y.
Proof.
  intros Ha Hb. destruct b as [|b|b]; [lia| |lia].
  destruct a as [|a|a]; [by eexists| |lia].
  change (int_truediv (Z.pos a) (Z.pos b))
    with (let x := fdiv (S754_finite false a 0) (S754_finite false b 0) in
          if is_infinity x then Raise OverflowError else Ok x).
  assert (finite_below 2 0 (fdiv (S754_finite false a 0) (S754_finite false b 0)))
    as Hf.
  { apply (fdiv_below (Z.pos (digits2_pos a)) 0 (Z.pos (digits2_pos b)) 2 0);
      try lia.
    - simpl. lia.
    - simpl. lia.
    - pose proof (Zdigits2_mono (Z.pos a) (Z.pos b) ltac:(lia)). simpl in *. lia. }
  cbv zeta. destruct (fdiv _ _); try done; simpl; by eexists.
Qed.

(** [_color] returns for the counts of a chunk: non-negative and below
    [2 ^ 1000], where no conversion to [float] overflows. *)
Lemma color_returns (self : HTMLWriter) (stats : Stats) :
  0 <= specialized stats < 2 ^ 1000 ->
  0 <= adaptive stats < 2 ^ 1000 ->
  0 <= unquickened stats < 2 ^ 1000 ->
  ∃ color, _color self stats = Ok color.
Proof.
  intros Hs Ha Hu. unfold _color.
  destruct (specialized stats + adaptive stats =? 0) eqn:Hq; [by eexists|].
  apply Z.eqb_neq in Hq.
  assert (2 ^ 1001 = 2 ^ 1000 * 2) as H2 by (vm_compute; reflexivity).
  rewrite int_truediv_1_3. cbn [mbind result_bind]. unfold fmul_int.
  destruct (float_of_int_below (specialized stats) 1000) as (y & -> & Hy & _);
    [lia|lia|]. cbn [mbind result_bind].
  assert (finite_below 1002 971 (fmul ONE_THIRD y)) as Hhue0.
  { apply (fmul_below 0 0 1001 971 1002 971);
      [exact ONE_THIRD_below|done|lia..]. }
  unfold fdiv_int.
  destruct (float_of_int_below (specialized stats + adaptive stats) 1001)
    as (q & -> & Hq' & Hqa); [lia|lia|]. cbn [mbind result_bind].
  specialize (Hqa ltac:(lia)).
  assert (finite_below 1003 971 (fdiv (fmul ONE_THIRD y) q)) as Hhue1.
  { apply (fdiv_below 1002 971 1 1003 971); [done|done|lia..]. }
  destruct q as [sq|sq| |sq mq eq]; [destruct Hqa..|].
  cbn [mbind result_bind].
  set (hue := if _blue self then _ else _).
  assert (finite_below 1003 971 hue) as Hhue.
  { unfold hue. destruct (_blue self); [by apply fneg_below|done]. }
  rewrite int_truediv_1_2. cbn [mbind result_bind].
  destruct (int_truediv_below (unquickened stats)
              (specialized stats + adaptive stats + unquickened stats))
    as (ratio & -> & Hratio); [lia|lia|]. cbn [mbind result_bind].
  rewrite float_of_int_1. cbn [mbind result_bind].
  assert (finite_below 2 0 (pymax float_half ratio)) as Hl.
  { apply pymax_below; [|done].
    eapply finite_below_mono; [exact float_half_below|lia..]. }
  pose proof (hls_to_rgb_below hue (pymax float_half ratio) 1003 971
                Hhue ltac:(lia) ltac:(lia) ltac:(lia) Hl) as Hrgb.
  destruct (hls_to_rgb hue _ _) as [[r g] b]. destruct Hrgb as (Hr & Hg & Hb).
  destruct (int_of_float_returns 31 0 (fmul (float_lit 255) r)) as [nr ->].
  { apply (fmul_below 8 0 22 0 31 0); [exact float_lit_255_below|done|lia..]. }
  cbn [mbind result_bind].
  destruct (int_of_float_returns 31 0 (fmul (float_lit 255) g)) as [ng ->].
  { apply (fmul_below 8 0 22 0 31 0); [exact float_lit_255_below|done|lia..]. }
  cbn [mbind result_bind].
  destruct (int_of_float_returns 31 0 (fmul (float_lit 255) b)) as [nb ->].
  { apply (fmul_below 8 0 22 0 31 0); [exact float_lit_255_below|done|lia..]. }
  cbn [mbind result_bind]. by eexists.
Qed.

(** ** The counts of the chunks *)

Lemma score_instruction_one_hot (SPECIALIZED_INSTRUCTIONS : gset string)
    (instruction : Instruction) (previous : option Instruction) :
  one_hot (score_instruction SPECIALIZED_INSTRUCTIONS instruction previous).
Proof.
  unfold score_instruction, one_hot.
  repeat case_match; auto.
Qed.

Lemma observe_instructions_one_hot SP fixed_positions previous instructions os previous' :
  observe_instructions SP fixed_positions previous instructions = Ok (os, previous') ->
  Forall (λ o, one_hot (obs_stats o)) os.
Proof.
  revert previous os previous'.
  induction instructions as [|instruction rest IH]; intros previous os previous'.
  - intros [= <- _]. constructor.
  - cbn [observe_instructions].
    destruct (observe SP fixed_positions previous instruction) as [o|] eqn:Ho;
      [|discriminate]. cbn [mbind result_bind].
    destruct (observe_instructions SP fixed_positions (Some instruction) rest)
      as [[os' p']|] eqn:Hrest; [|discriminate]. cbn [mbind result_bind].
    intros [= <- _]. apply Forall_app. split; [|by eapply IH].
    destruct o as [o|]; [|constructor]. apply Forall_singleton.
    unfold observe in Ho. repeat case_match; try discriminate.
    injection Ho as <-. apply score_instruction_one_hot.
Qed.

Lemma observe_children_one_hot SP previous children os previous' :
  observe_children SP previous children = Ok (os, previous') ->
  Forall (λ o, one_hot (obs_stats o)) os.
Proof.
  revert previous os previous'.
  induction children as [|child rest IH]; intros previous os previous'.
  - intros [= <- _]. constructor.
  - cbn [observe_children].
    destruct (observe_instructions SP (co_positions child) previous
                (get_instructions child)) as [[os1 p1]|] eqn:H1; [|discriminate].
    cbn [mbind result_bind].
    destruct (observe_children SP p1 rest) as [[os2 p2]|] eqn:H2; [|discriminate].
    cbn [mbind result_bind]. intros [= <- _]. apply Forall_app. split.
    + by eapply observe_instructions_one_hot.
    + by eapply IH.
Qed.

Lemma observations_one_hot SP code obs :
  observations SP code = Ok obs -> Forall (λ o, one_hot (obs_stats o)) obs.
Proof.
  unfold observations.
  destruct (observe_children SP None (walk_code code)) as [[os p]|] eqn:H;
    [|discriminate]. cbn [mbind result_bind]. intros [= <-].
  by eapply observe_children_one_hot.
Qed.

Lemma covering_sum_counts (obs : list Observation) (p : Z * Z) :
  Forall (λ o, one_hot (obs_stats o)) obs ->
  0 <= specialized (covering_sum obs p) <= Z.of_nat (length obs) ∧
  0 <= adaptive (covering_sum obs p) <= Z.of_nat (length obs) ∧
  0 <= unquickened (covering_sum obs p) <= Z.of_nat (length obs).
Proof.
  induction 1 as [|o obs Ho _ IH]; [simpl; lia|].
  cbn [covering_sum foldr length]. fold (covering_sum obs p).
  rewrite Nat2Z.inj_succ.
  destruct (decide (within (obs_start o) (obs_stop o) p)); [|lia].
  destruct Ho as [->|[->| ->]]; simpl; lia.
Qed.

Lemma synthesize_covering (obs : list Observation) (c : SourceChunk) :
  well_formed obs -> c ∈ synthesize obs ->
  stats c = covering_sum obs (start c).
Proof.
  intros Hwf Hc.
  destruct (tiles_start_ge _ _ _ c (synthesize_tiles obs) Hc) as (_ & Hlt & _).
  rewrite (synthesize_stats obs c (start c) Hc).
  - rewrite delta_sum_registered, delta_sum_initial by done.
    apply Stats_add_0_l.
  - split; [apply pos_le_refl|done].
Qed.

(** The colour of every chunk of well-formed scored spans is computed. *)
Lemma synthesize_colours (SP : gset string) (code : CodeType)
    (obs : list Observation) (blue : bool) (e : exception) :
  observations SP code = Ok obs -> well_formed obs ->
  Z.of_nat (length obs) < 2 ^ 1000 ->
  ¬ colour_raises blue (synthesize obs) e.
Proof.
  intros Hobs Hwf Hlen (c & Hc & Hraise).
  rewrite (synthesize_covering obs c Hwf Hc) in Hraise.
  pose proof (covering_sum_counts obs (start c) (observations_one_hot _ _ _ Hobs))
    as (H1 & H2 & H3).
  destruct (color_returns (mkHTMLWriter blue false [])
              (covering_sum obs (start c))) as [color Hcolor]; [lia..|].
  congruence.
Qed.

(** C9: [HTMLWriter._color] is the colour mapping of the specification:
    neutral when [specialized + adaptive] is 0, whatever the theme and the
    axis; otherwise hue [(1/3) * specialized / quickened], negated on the
    blue axis, lightness [max(1/2, unquickened / (quickened + unquickened))]
    and saturation 1.  For a chunk that is all specialized the lightness is
    exactly 1/2 and the hue is that of [specialized = quickened].  On counts
    that are not negative and below [2 ^ 1000] the mapping raises nothing:
    the colour and its code are computed. *)
Theorem color_reference (self : HTMLWriter) (stats : Stats) :
  _color self stats =
    (c ← reference_colour (_blue self) stats; colour_code c) ∧
  (specialized stats + adaptive stats = 0 ->
     reference_colour (_blue self) stats = Ok Neutral ∧
     _color self stats = Ok (lit "#ffffff") ∧
     ∀ source,
       add self source stats =
       Ok (mkHTMLWriter (_blue self) (_dark self)
             (_parts self ++ [html_escape source]))) ∧
  (specialized stats ≠ 0 -> adaptive stats = 0 -> unquickened stats = 0 ->
     reference_lightness (unquickened stats)
       (specialized stats + adaptive stats) = Ok float_half ∧
     reference_colour (_blue self) stats =
       (hue ← reference_hue (specialized stats) (specialized stats);
        Ok (HLS (if _blue self then fneg hue else hue) float_half (float_lit 1)))) ∧
  (0 <= specialized stats < 2 ^ 1000 -> 0 <= adaptive stats < 2 ^ 1000 ->
   0 <= unquickened stats < 2 ^ 1000 ->
     ∃ c color,
       reference_colour (_blue self) stats = Ok c ∧ colour_code c = Ok color ∧
       _color self stats = Ok color).
Proof.
  split_and!.
  - apply color_refines_reference.
  - intros H. split_and!.
    + unfold reference_colour. by rewrite H.
    + by apply color_neutral.
    + intros source. unfold add. by rewrite color_neutral.
  - intros Hs Ha Hu.
    assert (Hl : reference_lightness (unquickened stats)
                   (specialized stats + adaptive stats) = Ok float_half).
    { rewrite Ha, Hu, Z.add_0_r. by apply reference_lightness_all_quickened. }
    split; [exact Hl|].
    unfold reference_colour. rewrite Hl, float_of_int_1.
    rewrite Ha, Z.add_0_r. apply Z.eqb_neq in Hs. rewrite Hs.
    by destruct (reference_hue _ _).
  - intros Hs Ha Hu.
    destruct (color_returns self stats Hs Ha Hu) as [color Hcolor].
    pose proof Hcolor as Href. rewrite color_refines_reference in Href.
    destruct (reference_colour (_blue self) stats) as [c|]; [|discriminate].
    by exists c, color.
Qed.

Lemma color_reference_witness :
  reference_lightness 0 (3 + 0) = Ok float_half ∧
  reference_colour true (mkStats 3 0 0) =
    (hue ← reference_hue 3 3; Ok (HLS (fneg hue) float_half (float_lit 1))).
Proof.
  apply (proj1 (proj2 (proj2 (color_reference (HTMLWriter_init true false)
                                (mkStats 3 0 0))))); [discriminate|reflexivity..].
Defined.

Example color_all_specialized :
  reference_colour false (mkStats 1 0 0) = Ok (HLS ONE_THIRD float_half (float_lit 1)) ∧
  reference_colour true (mkStats 1 0 0) =
    Ok (HLS (fneg ONE_THIRD) float_half (float_lit 1)) ∧
  _color (HTMLWriter_init false false) (mkStats 1 0 0) = Ok (lit "#00ff00") ∧
  _color (HTMLWriter_init true false) (mkStats 1 0 0) = Ok (lit "#0000ff") ∧
  _color (HTMLWriter_init false true) (mkStats 0 2 0) = Ok (lit "#ff0000") ∧
  _color (HTMLWriter_init false false) (mkStats 1 0 3) = Ok (lit "#7fff7f").
Proof. split_and!; vm_compute; reflexivity. Qed.

(** Colour codes as CPython 3.11 computes them. *)
Example color_samples :
  _color (HTMLWriter_init false false) (mkStats 1 1 0) = Ok (lit "#feff00") ∧
  _color (HTMLWriter_init false false) (mkStats 3 5 7) = Ok (lit "#ffbf00") ∧
  _color (HTMLWriter_init true false) (mkStats 3 5 7) = Ok (lit "#ff00bf") ∧
  _color (HTMLWriter_init false false) (mkStats 2 1 0) = Ok (lit "#a9ff00") ∧
  _color (HTMLWriter_init true false) (mkStats 1 2 3) = Ok (lit "#ff00a9") ∧
  _color (HTMLWriter_init false false) (mkStats 5 1 100) = Ok (lit "#ebffe2") ∧
  _color (HTMLWriter_init true true) (mkStats 7 3 2) = Ok (lit "#9900ff").
Proof. split_and!; vm_compute; reflexivity. Qed.

Example color_division_by_zero :
  _color (HTMLWriter_init false false) (mkStats 1 0 (-1)) = Raise ZeroDivisionError.
Proof. vm_compute. reflexivity. Qed.

(** ** The loops of [view] over two writers *)

Section ViewSimulation.

Context {W1 W2 : Type}.
Context (add1 : W1 -> pystr -> Stats -> result W1).
Context (add2 : W2 -> pystr -> Stats -> result W2).
Context (R : W1 -> W2 -> Prop).
Hypothesis add_rel : ∀ w1 w2 source stats,
  R w1 w2 -> result_rel R (add1 w1 source stats) (add2 w2 source stats).

Lemma view_character_rel st1 st2 lineno col_offset character :
  state_rel R st1 st2 ->
  result_rel (state_rel R)
    (view_character add1 st1 lineno col_offset character)
    (view_character add2 st2 lineno col_offset character).
Proof.
  intros (Hw & Hc & Hp & Hg). unfold view_character.
  rewrite <- Hc, <- Hp, <- Hg.
  destruct (decide (stop (vs_chunk st1) = (lineno, col_offset))) as [Hstop|Hstop].
  - pose proof (add_rel _ _ (vs_group st1) (stats (vs_chunk st1)) Hw) as Hadd.
    destruct (add1 _ _ _) as [w1|e1], (add2 _ _ _) as [w2|e2];
      simpl in Hadd; try done.
    cbn [mbind result_bind].
    destruct (vs_parser st1) as [|chunk parser]; [done|].
    destruct (decide (start chunk = (lineno, col_offset))); [|done].
    simpl. by repeat split.
  - simpl. repeat split; simpl; congruence.
Qed.

Lemma view_line_rel line :
  ∀ st1 st2 lineno col_offset,
    state_rel R st1 st2 ->
    result_rel (state_rel R)
      (view_line add1 st1 lineno col_offset line)
      (view_line add2 st2 lineno col_offset line).
Proof.
  induction line as [|character line IH]; intros st1 st2 lineno col_offset Hst.
  - exact Hst.
  - cbn [view_line].
    pose proof (view_character_rel _ _ lineno col_offset character Hst) as Hch.
    destruct (view_character add1 _ _ _ _) as [st1'|e1],
             (view_character add2 _ _ _ _) as [st2'|e2]; simpl in Hch; try done.
    cbn [mbind result_bind]. by apply IH.
Qed.

Lemma view_file_rel file :
  ∀ st1 st2 lineno,
    state_rel R st1 st2 ->
    result_rel (state_rel R)
      (view_file add1 st1 lineno file) (view_file add2 st2 lineno file).
Proof.
  induction file as [|line file IH]; intros st1 st2 lineno Hst.
  - exact Hst.
  - cbn [view_file].
    pose proof (view_line_rel line _ _ lineno 0 Hst) as Hl.
    destruct (view_line add1 _ _ _ _) as [st1'|e1],
             (view_line add2 _ _ _ _) as [st2'|e2]; simpl in Hl; try done.
    cbn [mbind result_bind]. by apply IH.
Qed.

Lemma view_loop_rel w1 w2 chunks text :
  R w1 w2 ->
  result_rel R (view_loop add1 w1 chunks text) (view_loop add2 w2 chunks text).
Proof.
  intros Hw. unfold view_loop. destruct chunks as [|chunk parser]; [done|].
  pose proof (view_file_rel (readlines text)
                (mkViewState w1 chunk parser []) (mkViewState w2 chunk parser [])
                1) as Hf.
  destruct (view_file add1 _ _ _) as [st1|e1], (view_file add2 _ _ _) as [st2|e2];
    simpl in Hf; try (by (apply Hf; repeat split)).
  - cbn [mbind result_bind]. destruct Hf as (Hw' & -> & _ & ->); [by repeat split|].
    by apply add_rel.
  - exfalso. apply Hf. by repeat split.
  - exfalso. apply Hf. by repeat split.
Qed.

End ViewSimulation.

(** ** The theme *)

Lemma color_depends_on_blue (self other : HTMLWriter) (stats : Stats) :
  _blue self = _blue other -> _color self stats = _color other stats.
Proof. intros H. unfold _color. by rewrite H. Qed.

Lemma add_has_written blue dark self runs source stats :
  has_written blue dark self runs ->
  result_rel (has_written blue dark)
    (add self source stats) (add_run blue runs source stats).
Proof.
  intros ->. unfold add, add_run.
  rewrite (color_depends_on_blue _ (mkHTMLWriter blue false []) stats) by done.
  destruct (_color _ stats) as [color|e]; [|by simpl].
  cbn [mbind result_bind result_rel _blue _dark _parts].
  unfold has_written. f_equal.
  rewrite fmap_app. exact (eq_sym (app_assoc _ _ _)).
Qed.

(** The page of [view] is the page of its runs, and the runs do not depend
    on the theme. *)
Lemma view_chunks_runs chunks text blue dark :
  view_chunks chunks text blue dark =
  (runs ← view_runs chunks text blue; Ok (page_of dark runs)).
Proof.
  unfold view_chunks, view_runs.
  pose proof (view_loop_rel add (add_run blue) (has_written blue dark)
                (add_has_written blue dark)
                (HTMLWriter_init blue dark) [] chunks text) as Hrel.
  destruct (view_loop add _ _ _) as [w|e], (view_loop (add_run blue) _ _ _) as [runs|e'];
    simpl in Hrel.
  - rewrite Hrel by (unfold has_written; by rewrite app_nil_r; destruct dark).
    cbn [mbind result_bind]. unfold emit, page_of. cbn [fst _parts].
    by destruct dark.
  - exfalso. apply Hrel. unfold has_written. rewrite app_nil_r. by destruct dark.
  - exfalso. apply Hrel. unfold has_written. rewrite app_nil_r. by destruct dark.
  - cbn [mbind result_bind]. f_equal. apply Hrel.
    unfold has_written. rewrite app_nil_r. by destruct dark.
Qed.

(** C10: the colour of a chunk does not depend on the theme, and the theme
    enters a page only through the colours of the body and the attribute
    that carries the colour of a highlighted run: the runs of [view] and
    their colours are computed without the theme. *)
Theorem theme_noninterference (blue : bool) (stats : Stats) :
  (∀ dark dark' parts parts',
     _color (mkHTMLWriter blue dark parts) stats =
     _color (mkHTMLWriter blue dark' parts') stats) ∧
  (∀ dark parts source,
     add (mkHTMLWriter blue dark parts) source stats =
     (color ← _color (mkHTMLWriter blue (negb dark) parts) stats;
      Ok (mkHTMLWriter blue dark (parts ++ [rendered_run dark (source, color)])))) ∧
  (∀ dark chunks text,
     view_chunks chunks text blue dark =
     (runs ← view_runs chunks text blue; Ok (page_of dark runs))).
Proof.
  split_and!.
  - intros. by apply color_depends_on_blue.
  - intros dark parts source. unfold add.
    rewrite (color_depends_on_blue _ (mkHTMLWriter blue (negb dark) parts) stats)
      by done.
    by destruct (_color _ stats).
  - intros. apply view_chunks_runs.
Qed.

(** ** Escaping and reading back *)

Lemma replace_char_app old new s1 s2 :
  replace_char old new (s1 ++ s2) =
  replace_char old new s1 ++ replace_char old new s2.
Proof. unfold replace_char. apply bind_app. Qed.

Lemma html_escape_app s1 s2 :
  html_escape (s1 ++ s2) = html_escape s1 ++ html_escape s2.
Proof. unfold html_escape. by rewrite !replace_char_app. Qed.

Lemma html_escape_singleton c : html_escape [c] = escape_char c.
Proof.
  unfold escape_char.
  destruct (N.eqb_spec c 38) as [->|H38]; [reflexivity|].
  destruct (N.eqb_spec c 60) as [->|H60]; [reflexivity|].
  destruct (N.eqb_spec c 62) as [->|H62]; [reflexivity|].
  destruct (N.eqb_spec c 34) as [->|H34]; [reflexivity|].
  destruct (N.eqb_spec c 39) as [->|H39]; [reflexivity|].
  apply N.eqb_neq in H38, H60, H62, H34, H39.
  unfold html_escape, replace_char. simpl.
  rewrite H38. simpl. rewrite H60. simpl. rewrite H62. simpl.
  rewrite H34. simpl. rewrite H39. reflexivity.
Qed.

(** [html.escape] rewrites the text character by character. *)
Lemma html_escape_cons c s : html_escape (c :: s) = escape_char c ++ html_escape s.
Proof.
  change (c :: s) with ([c] ++ s).
  by rewrite html_escape_app, html_escape_singleton.
Qed.

Lemma html_escape_concat (l : list pystr) :
  html_escape (concat l) = concat (html_escape <$> l).
Proof.
  induction l as [|s l IH]; [reflexivity|].
  simpl. by rewrite html_escape_app, IH.
Qed.

Lemma reference_at_ordinary c t : c ≠ 38%N -> reference_at (c :: t) = None.
Proof.
  intros Hc.
  assert (Hs : ∀ p, starts_with (38%N :: p) (c :: t) = false).
  { intros p. cbn [starts_with].
    assert (H : (38 =? c)%N = false) by (apply N.eqb_neq; congruence).
    by rewrite H. }
  unfold reference_at.
  change (lit "&amp;") with (38%N :: lit "amp;").
  change (lit "&lt;") with (38%N :: lit "lt;").
  change (lit "&gt;") with (38%N :: lit "gt;").
  change (lit "&quot;") with (38%N :: lit "quot;").
  change (lit "&#x27;") with (38%N :: lit "#x27;").
  by rewrite !Hs.
Qed.

Lemma unescape_escape_char c t :
  unescape_from 0 (escape_char c ++ t) = c :: unescape_from 0 t.
Proof.
  unfold escape_char.
  destruct (N.eqb_spec c 38) as [->|H38]; [reflexivity|].
  destruct (N.eqb_spec c 60) as [->|H60]; [reflexivity|].
  destruct (N.eqb_spec c 62) as [->|H62]; [reflexivity|].
  destruct (N.eqb_spec c 34) as [->|H34]; [reflexivity|].
  destruct (N.eqb_spec c 39) as [->|H39]; [reflexivity|].
  change ([c] ++ t) with (c :: t). cbn [unescape_from].
  by rewrite reference_at_ordinary.
Qed.

(** Reading back an escaped text gives the text. *)
Lemma html_unescape_escape (s : pystr) : html_unescape (html_escape s) = s.
Proof.
  unfold html_unescape. induction s as [|c s IH]; [reflexivity|].
  by rewrite html_escape_cons, unescape_escape_char, IH.
Qed.

Lemma escape_char_no_angle c :
  Forall (λ x, x ≠ 60%N ∧ x ≠ 62%N) (escape_char c).
Proof.
  unfold escape_char.
  destruct (N.eqb_spec c 38); [by repeat constructor|].
  destruct (N.eqb_spec c 60); [by repeat constructor|].
  destruct (N.eqb_spec c 62); [by repeat constructor|].
  destruct (N.eqb_spec c 34); [by repeat constructor|].
  destruct (N.eqb_spec c 39); [by repeat constructor|].
  by repeat constructor.
Qed.

Lemma html_escape_no_angle (s : pystr) :
  Forall (λ x, x ≠ 60%N ∧ x ≠ 62%N) (html_escape s).
Proof.
  induction s as [|c s IH]; [constructor|].
  rewrite html_escape_cons. apply Forall_app. split; [apply escape_char_no_angle|done].
Qed.

Lemma strip_text (txt rest : pystr) :
  Forall (λ x, x ≠ 60%N ∧ x ≠ 62%N) txt ->
  strip_from false (txt ++ rest) = txt ++ strip_from false rest.
Proof.
  induction 1 as [|c txt [Hc _] _ IH]; [reflexivity|].
  simpl. apply N.eqb_neq in Hc. by rewrite Hc, IH.
Qed.

Lemma strip_in_tag (body rest : pystr) :
  Forall (λ x, x ≠ 62%N) body ->
  strip_from true (body ++ rest) = strip_from true rest.
Proof.
  induction 1 as [|c body Hc _ IH]; [reflexivity|].
  simpl. apply N.eqb_neq in Hc. rewrite Hc. exact IH.
Qed.

Lemma strip_rendered_run dark run rest :
  Forall (λ c, c ≠ 62%N) run.2 ->
  strip_from false (rendered_run dark run ++ rest) =
  html_escape run.1 ++ strip_from false rest.
Proof.
  destruct run as [source color]. cbn [fst snd rendered_run]. intros Hcolor.
  case_decide.
  - rewrite <- !app_assoc.
    transitivity (strip_from true (color ++ lit "'>" ++ html_escape source ++
                                   lit "</span>" ++ rest)).
    { by destruct dark. }
    rewrite strip_in_tag by done.
    change (strip_from true (lit "'>" ++ html_escape source ++ lit "</span>" ++ rest))
      with (strip_from false (html_escape source ++ lit "</span>" ++ rest)).
    rewrite strip_text by apply html_escape_no_angle.
    reflexivity.
  - apply strip_text, html_escape_no_angle.
Qed.

Lemma strip_rendered_runs dark runs rest :
  good_runs runs ->
  strip_from false (concat (rendered_run dark <$> runs) ++ rest) =
  html_escape (concat (fst <$> runs)) ++ strip_from false rest.
Proof.
  induction 1 as [|run runs Hrun _ IH]; [reflexivity|].
  rewrite !fmap_cons. cbn [concat].
  rewrite <- app_assoc, strip_rendered_run by done.
  by rewrite IH, html_escape_app, app_assoc.
Qed.

(** The text of the page of a list of runs is the text of the runs. *)
Lemma page_of_text dark runs :
  good_runs runs ->
  html_unescape (strip_tags (page_of dark runs)) = concat (fst <$> runs).
Proof.
  intros Hgood. unfold strip_tags, page_of.
  rewrite !concat_app.
  transitivity (html_unescape (strip_from false
                  (concat (rendered_run dark <$> runs) ++
                   concat [lit "</pre>"; lit "</body>"; lit "</html>"]))).
  { by destruct dark. }
  rewrite strip_rendered_runs by done.
  change (strip_from false (concat [lit "</pre>"; lit "</body>"; lit "</html>"]))
    with (@nil N).
  rewrite app_nil_r. apply html_unescape_escape.
Qed.

(** ** The colour codes contain no [>] *)

Lemma hex_digits_no_gt (d : Hexadecimal.uint) :
  Forall (λ c, c ≠ 62%N) (lit (NilEmpty.string_of_uint d)).
Proof.
  induction d; simpl; constructor; done.
Qed.

Lemma format_02x_no_gt (n : Z) : Forall (λ c, c ≠ 62%N) (lit (format_02x n)).
Proof.
  assert (Hu : ∀ d, Forall (λ c, c ≠ 62%N) (lit (NilZero.string_of_uint d))).
  { intros d. unfold NilZero.string_of_uint.
    destruct d; try apply hex_digits_no_gt. by repeat constructor. }
  assert (Hi : ∀ i, Forall (λ c, c ≠ 62%N) (lit (NilZero.string_of_int i))).
  { intros [d|d]; simpl; [apply Hu|]. constructor; [done|apply Hu]. }
  unfold format_02x. case_match; [|apply Hi].
  constructor; [done|apply Hi].
Qed.

Lemma colour_code_no_gt (c : colour) (code : pystr) :
  colour_code c = Ok code -> Forall (λ c, c ≠ 62%N) code.
Proof.
  destruct c as [|h l s]; cbn [colour_code].
  - intros [= <-]. by repeat constructor.
  - destruct (hls_to_rgb h l s) as [[r g] b].
    destruct (int_of_float (fmul (float_lit 255) r)) as [r'|];
      cbn [mbind result_bind]; [|discriminate].
    destruct (int_of_float (fmul (float_lit 255) g)) as [g'|];
      cbn [mbind result_bind]; [|discriminate].
    destruct (int_of_float (fmul (float_lit 255) b)) as [b'|];
      cbn [mbind result_bind]; [|discriminate].
    intros [= <-].
    constructor; [by cbv|].
    repeat (apply Forall_app; split); apply format_02x_no_gt.
Qed.

Lemma color_no_gt (self : HTMLWriter) (stats : Stats) (color : pystr) :
  _color self stats = Ok color -> Forall (λ c, c ≠ 62%N) color.
Proof.
  rewrite color_refines_reference.
  destruct (reference_colour _ _) as [c|]; [|discriminate].
  apply colour_code_no_gt.
Qed.

(** ** The loops of [view] keep the text *)

Lemma readlines_from_concat (text : pystr) :
  ∀ line, concat (readlines_from line text) = line ++ text.
Proof.
  induction text as [|c text IH]; intros line; simpl.
  - destruct line; simpl; by rewrite ?app_nil_r.
  - destruct (c =? 10)%N; simpl; rewrite IH; by rewrite <- app_assoc.
Qed.

Lemma readlines_concat (text : pystr) : concat (readlines text) = text.
Proof. apply readlines_from_concat. Qed.

Lemma add_run_inv blue runs source stats runs' :
  add_run blue runs source stats = Ok runs' ->
  ∃ color, _color (mkHTMLWriter blue false []) stats = Ok color ∧
           runs' = runs ++ [(source, color)].
Proof.
  unfold add_run. destruct (_color _ stats) as [color|]; [|discriminate].
  intros [= <-]. eauto.
Qed.

Lemma view_character_collected blue st lineno col_offset character st' :
  view_character (add_run blue) st lineno col_offset character = Ok st' ->
  good_runs (vs_writer st) ->
  collected st' = collected st ++ [character] ∧ good_runs (vs_writer st').
Proof.
  unfold view_character, collected. intros Hst Hgood.
  destruct (decide (stop (vs_chunk st) = (lineno, col_offset))).
  - destruct (add_run blue _ _ _) as [runs'|] eqn:Hadd; [|discriminate].
    apply add_run_inv in Hadd as (color & Hcolor & ->).
    cbn [mbind result_bind] in Hst.
    destruct (vs_parser st) as [|chunk parser]; [discriminate|].
    destruct (decide (start chunk = (lineno, col_offset))); [|discriminate].
    injection Hst as <-. cbn [vs_writer vs_group]. split.
    + rewrite fmap_app, concat_app. simpl. by rewrite !app_nil_r.
    + apply Forall_app. split; [done|].
      constructor; [|constructor]. simpl. by eapply color_no_gt.
  - injection Hst as <-. cbn [vs_writer vs_group]. split; [|done].
    by rewrite app_assoc.
Qed.

Lemma view_line_collected blue line :
  ∀ st lineno col_offset st',
    view_line (add_run blue) st lineno col_offset line = Ok st' ->
    good_runs (vs_writer st) ->
    collected st' = collected st ++ line ∧ good_runs (vs_writer st').
Proof.
  induction line as [|character line IH]; intros st lineno col_offset st' Hst Hgood.
  - injection Hst as <-. by rewrite app_nil_r.
  - cbn [view_line] in Hst.
    destruct (view_character _ st _ _ _) as [st1|] eqn:Hch; [|discriminate].
    apply view_character_collected in Hch as [Hc1 Hg1]; [|done].
    destruct (IH _ _ _ _ Hst Hg1) as [Hc Hg]. split; [|done].
    by rewrite Hc, Hc1, <- app_assoc.
Qed.

Lemma view_file_collected blue file :
  ∀ st lineno st',
    view_file (add_run blue) st lineno file = Ok st' ->
    good_runs (vs_writer st) ->
    collected st' = collected st ++ concat file ∧ good_runs (vs_writer st').
Proof.
  induction file as [|line file IH]; intros st lineno st' Hst Hgood.
  - injection Hst as <-. by rewrite app_nil_r.
  - cbn [view_file] in Hst.
    destruct (view_line _ st _ _ _) as [st1|] eqn:Hl; [|discriminate].
    apply view_line_collected in Hl as [Hc1 Hg1]; [|done].
    destruct (IH _ _ _ Hst Hg1) as [Hc Hg]. split; [|done].
    rewrite Hc, Hc1. simpl. by rewrite <- app_assoc.
Qed.

(** The runs of [view], put together, are the text of the file. *)
Lemma view_runs_text chunks text blue runs :
  view_runs chunks text blue = Ok runs ->
  concat (fst <$> runs) = text ∧ good_runs runs.
Proof.
  unfold view_runs, view_loop. destruct chunks as [|chunk parser]; [discriminate|].
  destruct (view_file _ _ _ _) as [st|] eqn:Hf; [|discriminate].
  cbn [mbind result_bind].
  apply view_file_collected in Hf as [Hc Hg]; [|constructor].
  unfold collected in Hc. simpl in Hc. rewrite readlines_concat in Hc.
  intros (color & Hcolor & ->)%add_run_inv. split.
  - rewrite fmap_app, concat_app. simpl. by rewrite app_nil_r.
  - apply Forall_app. split; [done|].
    constructor; [|constructor]. simpl. by eapply color_no_gt.
Qed.

(** ** The loops of [view] run to the end *)

Lemma tiles_head lo hi c chunks : tiles lo hi (c :: chunks) -> start c = lo.
Proof. by inversion 1. Qed.

Lemma tiles_singleton lo hi c : tiles lo hi [c] -> stop c = hi.
Proof.
  inversion 1 as [| ? ? ? ? ? ? Ht]; subst; [reflexivity|inversion Ht].
Qed.

Lemma tiles_cons_cons lo hi c c' chunks :
  tiles lo hi (c :: c' :: chunks) ->
  start c' = stop c ∧ tiles (start c') hi (c' :: chunks).
Proof.
  inversion 1 as [| ? ? ? ? ? ? Ht]; subst. simpl.
  by rewrite (tiles_head _ _ _ _ Ht).
Qed.

Lemma view_character_progress hi blue chunks st lineno col_offset character :
  holds_chunks hi chunks st -> (lineno, col_offset) ≠ hi ->
  match view_character (add_run blue) st lineno col_offset character with
  | Ok st' => holds_chunks hi chunks st'
  | Raise e => colour_raises blue chunks e
  end.
Proof.
  destruct st as [w chunk parser group].
  intros [Ht Hsub] Hne. unfold view_character.
  cbn [vs_chunk vs_parser vs_writer vs_group] in *.
  destruct (decide (stop chunk = (lineno, col_offset))) as [Hstop|Hstop].
  - unfold add_run.
    destruct (_color _ (stats chunk)) as [color|e] eqn:Hcolor;
      cbn [mbind result_bind].
    + destruct parser as [|chunk' parser'].
      * exfalso. apply Hne. rewrite <- Hstop. by eapply tiles_singleton.
      * apply tiles_cons_cons in Ht as [Hstart Ht'].
        rewrite decide_True by congruence.
        cbn [mbind result_bind]. split; cbn [vs_chunk vs_parser]; [done|].
        intros c Hc. apply Hsub. by apply list_elem_of_further.
    + exists chunk. split; [apply Hsub, list_elem_of_here|done].
  - cbn [mbind result_bind]. by split.
Qed.

Lemma view_line_progress hi blue chunks line :
  ∀ st lineno col_offset,
    holds_chunks hi chunks st -> lineno < hi.1 ->
    match view_line (add_run blue) st lineno col_offset line with
    | Ok st' => holds_chunks hi chunks st'
    | Raise e => colour_raises blue chunks e
    end.
Proof.
  induction line as [|character line IH]; intros st lineno col_offset Hh Hlt.
  - exact Hh.
  - cbn [view_line].
    pose proof (view_character_progress hi blue chunks st lineno col_offset
                  character Hh) as Hch.
    destruct (view_character _ st _ _ _) as [st1|e]; cbn [mbind result_bind].
    + apply IH; [|done]. apply Hch. intros <-. simpl in Hlt. lia.
    + apply Hch. intros <-. simpl in Hlt. lia.
Qed.

Lemma view_file_progress hi blue chunks file :
  ∀ st lineno,
    holds_chunks hi chunks st -> lineno + Z.of_nat (length file) ≤ hi.1 ->
    match view_file (add_run blue) st lineno file with
    | Ok st' => holds_chunks hi chunks st'
    | Raise e => colour_raises blue chunks e
    end.
Proof.
  induction file as [|line file IH]; intros st lineno Hh Hle.
  - exact Hh.
  - cbn [view_file]. simpl length in Hle.
    pose proof (view_line_progress hi blue chunks line st lineno 0 Hh) as Hl.
    destruct (view_line _ st _ _ _) as [st1|e]; cbn [mbind result_bind].
    + apply IH; [apply Hl|]; lia.
    + apply Hl. lia.
Qed.

(** The loops of [view] raise neither [StopIteration] nor [AssertionError]
    when the chunks tile a span that ends after the last line of the text:
    [view] reaches its last [writer.add], unless the computation of a colour
    raises. *)
Lemma view_runs_progress lo hi chunks text blue :
  tiles lo hi chunks ->
  Z.of_nat (length (readlines text)) < hi.1 ->
  match view_runs chunks text blue with
  | Ok runs => True
  | Raise e => colour_raises blue chunks e
  end.
Proof.
  intros Ht Hlen. unfold view_runs, view_loop.
  destruct chunks as [|chunk parser]; [inversion Ht|].
  pose proof (view_file_progress hi blue (chunk :: parser) (readlines text)
                (mkViewState [] chunk parser []) 1) as Hf.
  destruct (view_file _ _ _ _) as [st|e]; cbn [mbind result_bind].
  - destruct Hf as [_ Hsub].
    { split; [|done]. simpl. by rewrite (tiles_head _ _ _ _ Ht). }
    { lia. }
    unfold add_run.
    destruct (_color _ (stats (vs_chunk st))) as [color|e] eqn:Hcolor;
      cbn [mbind result_bind]; [done|].
    exists (vs_chunk st). split; [apply Hsub, list_elem_of_here|done].
  - apply Hf; [|lia]. split; [|done]. simpl. by rewrite (tiles_head _ _ _ _ Ht).
Qed.

(** ** The text of the rendered page *)

Lemma view_chunks_text chunks text blue dark page :
  view_chunks chunks text blue dark = Ok page ->
  html_unescape (strip_tags page) = text ∧
  ∃ runs, view_runs chunks text blue = Ok runs ∧ page = page_of dark runs ∧
          concat (fst <$> runs) = text.
Proof.
  rewrite view_chunks_runs.
  destruct (view_runs chunks text blue) as [runs|] eqn:Hruns; [|discriminate].
  intros [= <-]. destruct (view_runs_text _ _ _ _ Hruns) as [Htext Hgood].
  split; [by rewrite page_of_text|]. eauto.
Qed.

Lemma view_chunks_progress lo hi chunks text blue dark :
  tiles lo hi chunks ->
  Z.of_nat (length (readlines text)) < hi.1 ->
  (∃ page, view_chunks chunks text blue dark = Ok page) ∨
  (∃ e, view_chunks chunks text blue dark = Raise e ∧ colour_raises blue chunks e).
Proof.
  intros Ht Hlen. rewrite view_chunks_runs.
  pose proof (view_runs_progress lo hi chunks text blue Ht Hlen) as Hp.
  destruct (view_runs chunks text blue) as [runs|e]; cbn [mbind result_bind].
  - left. eauto.
  - right. eauto.
Qed.

Lemma view_progress SPECIALIZED_INSTRUCTIONS stat open CODE path code obs text
    blue dark :
  get_code_for_path stat path CODE = Ok (Some code) ->
  observations SPECIALIZED_INSTRUCTIONS code = Ok obs ->
  open path = Ok text ->
  Z.of_nat (length (readlines text)) < maxsize ->
  (∃ page,
     view SPECIALIZED_INSTRUCTIONS stat open CODE path blue dark = Ok page ∧
     html_unescape (strip_tags page) = text) ∨
  (∃ e,
     view SPECIALIZED_INSTRUCTIONS stat open CODE path blue dark = Raise e ∧
     colour_raises blue (synthesize obs) e).
Proof.
  intros Hcode Hobs Hopen Hlen.
  unfold view. rewrite Hcode. cbn [mbind result_bind].
  rewrite parse_synthesize, Hobs. cbn [fmap result_fmap mbind result_bind].
  pose proof (synthesize_tiles obs) as Ht.
  destruct (view_chunks_progress _ _ _ text blue dark Ht)
    as [[page Hpage]|[e [He Hc]]].
  { pose proof (LAST_le_highest obs) as Hle. pos_solve. }
  - left. destruct (synthesize obs) as [|chunk parser]; [inversion Ht|].
    rewrite Hopen. cbn [mbind result_bind]. exists page. split; [done|].
    by apply view_chunks_text in Hpage as [Htext _].
  - right. destruct (synthesize obs) as [|chunk parser]; [inversion Ht|].
    rewrite Hopen. cbn [mbind result_bind]. eauto.
Qed.

(** C5: whenever [view] hands a page to the browser, the page with its tags
    removed and its character references read back is the text of the file,
    character for character, and so are the runs of [view] put together;
    this holds for every text, every list of chunks, both themes and both
    axes.  When the code object is found and the file has fewer than
    [sys.maxsize] lines, [view] does hand over a page, unless the computation
    of the colour of a chunk raises; and no colour computation raises when
    every span starts no later than it stops and there are fewer than
    [2 ^ 1000] of them, so that [view] then returns the page of the text. *)
Theorem text_fidelity (blue dark : bool) :
  (∀ chunks text page,
     view_chunks chunks text blue dark = Ok page ->
     html_unescape (strip_tags page) = text ∧
     ∃ runs, view_runs chunks text blue = Ok runs ∧ page = page_of dark runs ∧
             concat (fst <$> runs) = text) ∧
  (∀ SPECIALIZED_INSTRUCTIONS stat open CODE path page,
     view SPECIALIZED_INSTRUCTIONS stat open CODE path blue dark = Ok page ->
     ∃ text, open path = Ok text ∧ html_unescape (strip_tags page) = text) ∧
  (∀ SPECIALIZED_INSTRUCTIONS stat open CODE path code obs text,
     get_code_for_path stat path CODE = Ok (Some code) ->
     observations SPECIALIZED_INSTRUCTIONS code = Ok obs ->
     open path = Ok text ->
     Z.of_nat (length (readlines text)) < maxsize ->
     (∃ page,
        view SPECIALIZED_INSTRUCTIONS stat open CODE path blue dark = Ok page ∧
        html_unescape (strip_tags page) = text) ∨
     (∃ e,
        view SPECIALIZED_INSTRUCTIONS stat open CODE path blue dark = Raise e ∧
        colour_raises blue (synthesize obs) e)) ∧
  (∀ SPECIALIZED_INSTRUCTIONS stat open CODE path code obs text,
     get_code_for_path stat path CODE = Ok (Some code) ->
     observations SPECIALIZED_INSTRUCTIONS code = Ok obs ->
     well_formed obs ->
     Z.of_nat (length obs) < 2 ^ 1000 ->
     open path = Ok text ->
     Z.of_nat (length (readlines text)) < maxsize ->
     ∃ page,
       view SPECIALIZED_INSTRUCTIONS stat open CODE path blue dark = Ok page ∧
       html_unescape (strip_tags page) = text).
Proof.
  split_and!.
  - intros chunks text page. apply view_chunks_text.
  - intros SP stat open CODE path page. unfold view.
    destruct (get_code_for_path stat path CODE) as [[code|]|]; [|discriminate..].
    cbn [mbind result_bind].
    destruct (parse SP code) as [[|chunk parser]|]; [discriminate| |discriminate].
    cbn [mbind result_bind].
    destruct (open path) as [text|]; [|discriminate].
    cbn [mbind result_bind]. intros Hpage. exists text. split; [done|].
    by apply view_chunks_text in Hpage as [Htext _].
  - intros SP stat open CODE path code obs text. apply view_progress.
  - intros SP stat open CODE path code obs text Hcode Hobs Hwf Hn Hopen Hlen.
    destruct (view_progress SP stat open CODE path code obs text blue dark)
      as [Hpage|[e [_ He]]]; [done..|].
    by apply (synthesize_colours SP code) in He.
Qed.

Lemma text_fidelity_witness :
  ∃ page,
    view sample_specialized sample_stat sample_open [sample_module]
      "./sample.py" false false = Ok page ∧
    html_unescape (strip_tags page) = sample_text.
Proof.
  apply (proj2 (proj2 (proj2 (text_fidelity false false)))
           sample_specialized sample_stat sample_open [sample_module]
           "./sample.py" sample_module sample_module_observations sample_text).
  - reflexivity.
  - vm_compute. reflexivity.
  - repeat constructor; vm_compute; intros H; discriminate H.
  - vm_compute. reflexivity.
  - reflexivity.
  - vm_compute. reflexivity.
Defined.

Example view_sample :
  view sample_specialized sample_stat sample_open [sample_module]
    "sample.py" false true =
  Ok (lit "<!doctype html><html>" ++
      lit "<body style='background-color:black;color:white'><pre>" ++
      lit "<span style='color:#00ff00'></span>x = 1" ++ [10%N] ++
      lit "y = <span style='color:#ff0000'>x</span>" ++
      lit "<span style='color:#ff0000'> + </span>" ++
      lit "<span style='color:#ff0000'>1</span>" ++ [10%N] ++
      lit "</pre></body></html>").
Proof. vm_compute. reflexivity. Qed.

(** ** The lookup in the registry *)

Lemma samefile_only_missing stat path other e :
  only_missing_files stat ->
  samefile stat path other = Raise e -> e = FileNotFoundError.
Proof.
  intros Hstat. unfold samefile.
  destruct (stat path) as [st|e1] eqn:H1; cbn [mbind result_bind].
  - destruct (stat other) as [st'|e2] eqn:H2; cbn [mbind result_bind];
      [discriminate|].
    intros [= <-]. by eapply Hstat.
  - intros [= <-]. by eapply Hstat.
Qed.

Lemma get_code_for_path_some stat path CODE code :
  get_code_for_path stat path CODE = Ok (Some code) ->
  ∃ before after,
    CODE = before ++ code :: after ∧
    samefile stat path (co_filename code) = Ok true ∧
    Forall (non_matching stat path) before.
Proof.
  induction CODE as [|c CODE IH]; [discriminate|].
  cbn [get_code_for_path].
  destruct (samefile stat path (co_filename c)) as [[|]|e] eqn:Hc.
  - intros [= <-]. exists [], CODE. by repeat split.
  - intros (before & after & -> & Hm & Hb)%IH.
    exists (c :: before), after. repeat split; [done|].
    constructor; [by left|done].
  - destruct e; try discriminate.
    intros (before & after & -> & Hm & Hb)%IH.
    exists (c :: before), after. repeat split; [done|].
    constructor; [by right|done].
Qed.

Lemma get_code_for_path_none stat path CODE :
  get_code_for_path stat path CODE = Ok None ->
  Forall (non_matching stat path) CODE.
Proof.
  induction CODE as [|c CODE IH]; [constructor|].
  cbn [get_code_for_path].
  destruct (samefile stat path (co_filename c)) as [[|]|e] eqn:Hc.
  - discriminate.
  - intros H. constructor; [by left|by apply IH].
  - destruct e; try discriminate.
    intros H. constructor; [by right|by apply IH].
Qed.

Lemma get_code_for_path_returns stat path CODE :
  only_missing_files stat ->
  ∃ found, get_code_for_path stat path CODE = Ok found.
Proof.
  intros Hstat. induction CODE as [|c CODE IH]; [by eexists|].
  cbn [get_code_for_path].
  destruct (samefile stat path (co_filename c)) as [[|]|e] eqn:Hc;
    [by eexists|done|].
  by rewrite (samefile_only_missing _ _ _ _ Hstat Hc).
Qed.

Lemma get_code_for_path_finds stat path CODE code :
  only_missing_files stat ->
  code ∈ CODE -> samefile stat path (co_filename code) = Ok true ->
  ∃ found, get_code_for_path stat path CODE = Ok (Some found) ∧
           found ∈ CODE ∧ samefile stat path (co_filename found) = Ok true.
Proof.
  intros Hstat Hin Hsame. induction CODE as [|c CODE IH];
    [by apply elem_of_nil in Hin|].
  cbn [get_code_for_path].
  destruct (samefile stat path (co_filename c)) as [[|]|e] eqn:Hc.
  - exists c. split; [done|]. split; [apply list_elem_of_here|done].
  - apply elem_of_cons in Hin as [->|Hin]; [congruence|].
    destruct (IH Hin) as (found & -> & Hf & Hs).
    exists found. split; [done|]. split; [by apply list_elem_of_further|done].
  - rewrite (samefile_only_missing _ _ _ _ Hstat Hc).
    apply elem_of_cons in Hin as [->|Hin]; [congruence|].
    destruct (IH Hin) as (found & -> & Hf & Hs).
    exists found. split; [done|]. split; [by apply list_elem_of_further|done].
Qed.

Lemma set_add_holds code_eq CODE code CODE' :
  (∀ c, code_eq c c) ->
  set_add code_eq CODE code CODE' ->
  (∃ c, c ∈ CODE' ∧ code_eq c code) ∧ (∀ c, c ∈ CODE -> c ∈ CODE').
Proof.
  intros Hrefl [[Hin ->]|[_ Hp]]; [done|]. split.
  - exists code. split; [|done]. rewrite Hp. apply list_elem_of_here.
  - intros c Hc. rewrite Hp. by apply list_elem_of_further.
Qed.

Example lookup_raises :
  get_code_for_path
    (λ path, if String.eqb path "sample.py" then Raise OSError
             else Ok (2049%N, 131%N))
    "./sample.py" [sample_module] = Raise OSError.
Proof. reflexivity. Qed.

Example lookup_missing_file :
  get_code_for_path sample_stat "sample.py"
    [ mkCode "<module>" "<string>" [] [] []; sample_module ] =
  Ok (Some sample_module).
Proof. reflexivity. Qed.

(** C6, as the claim states it, fails: the registry is a set, and which of
    two captures of one file the lookup meets first is decided by the order
    of the set, not by the time of the capture.  Here the registry holds
    two captures of [sample.py], the second comes after the first in that
    order, and the lookup returns the first. *)
Lemma lookup_counterexample :
  ∃ CODE1 CODE2,
    audit_imports eq [] "exec" [ObjCode sample_module] CODE1 ∧
    audit_imports eq CODE1 "exec" [ObjCode sample_module_again] CODE2 ∧
    sample_module ∈ CODE2 ∧ sample_module_again ∈ CODE2 ∧
    sample_module ≠ sample_module_again ∧
    samefile sample_stat "sample.py" (co_filename sample_module) = Ok true ∧
    samefile sample_stat "sample.py" (co_filename sample_module_again) = Ok true ∧
    get_code_for_path sample_stat "sample.py" CODE2 = Ok (Some sample_module).
Proof.
  exists [sample_module], [sample_module; sample_module_again].
  split_and!.
  - right. split; [by intros c ?%elem_of_nil|reflexivity].
  - right. split.
    + intros c ->%list_elem_of_singleton. discriminate.
    + apply Permutation_swap.
  - apply list_elem_of_here.
  - apply list_elem_of_further, list_elem_of_here.
  - discriminate.
  - reflexivity.
  - reflexivity.
  - reflexivity.
Qed.

(** C6, amended: the lookup returns the first code object, in the order in
    which the registry is iterated, whose file is the file of [path], and
    [None] when there is none; code objects whose file is not found are
    passed over; it raises only when [os.stat] fails for another reason than
    a missing file.  When the registry holds a code object of the file, the
    lookup returns one, whichever the most recent capture is.  A capture
    leaves in the registry a code object equal to the captured one, and
    capturing an equal code object again leaves the registry as it is. *)
Theorem lookup_first_match (stat : string -> result (N * N)) (path : string)
    (CODE : list CodeType) :
  (∀ code,
     get_code_for_path stat path CODE = Ok (Some code) ->
     ∃ before after,
       CODE = before ++ code :: after ∧
       samefile stat path (co_filename code) = Ok true ∧
       Forall (non_matching stat path) before) ∧
  (get_code_for_path stat path CODE = Ok None ->
     Forall (non_matching stat path) CODE) ∧
  (only_missing_files stat ->
     ∃ found, get_code_for_path stat path CODE = Ok found) ∧
  (∀ code,
     only_missing_files stat ->
     code ∈ CODE ->
     samefile stat path (co_filename code) = Ok true ->
     ∃ found,
       get_code_for_path stat path CODE = Ok (Some found) ∧
       found ∈ CODE ∧ samefile stat path (co_filename found) = Ok true) ∧
  (∀ (code_eq : CodeType -> CodeType -> Prop) code CODE',
     (∀ c, code_eq c c) ->
     audit_imports code_eq CODE "exec" [ObjCode code] CODE' ->
     co_name code = "<module>" ->
     (∃ c, c ∈ CODE' ∧ code_eq c code) ∧
     (∀ c, c ∈ CODE -> c ∈ CODE') ∧
     (∀ CODE'',
        audit_imports code_eq CODE' "exec" [ObjCode code] CODE'' ->
        CODE'' = CODE')).
Proof.
  split_and!.
  - intros code. apply get_code_for_path_some.
  - apply get_code_for_path_none.
  - apply get_code_for_path_returns.
  - intros code. by apply get_code_for_path_finds.
  - intros code_eq code CODE' Hrefl Haudit Hname.
    unfold audit_imports, audit_imports_match in *.
    rewrite Hname in *. simpl in *.
    destruct (set_add_holds _ _ _ _ Hrefl Haudit) as [Hheld Hkept].
    split; [done|]. split; [done|].
    intros CODE'' [[_ ->]|[Hnot _]]; [done|].
    destruct Hheld as (c & Hc & Heq). exfalso. by eapply Hnot.
Qed.

Lemma lookup_first_match_witness :
  ∃ found,
    get_code_for_path sample_stat "./sample.py"
      [sample_module; sample_module_again] = Ok (Some found) ∧
    found ∈ [sample_module; sample_module_again] ∧
    samefile sample_stat "./sample.py" (co_filename found) = Ok true.
Proof.
  apply (proj1 (proj2 (proj2 (proj2
           (lookup_first_match sample_stat "./sample.py"
              [sample_module; sample_module_again]))))
           sample_module_again).
  - intros path e. unfold sample_stat.
    repeat case_match; congruence.
  - apply list_elem_of_further, list_elem_of_here.
  - reflexivity.
Defined.

(** * Further properties *)

(** ** Nested code objects *)

Lemma CodeType_nested_ind (P : CodeType -> Prop) :
  (∀ code, (∀ child, Some child ∈ co_consts code -> P child) -> P code) ->
  ∀ code, P code.
Proof.
  intros H. fix IH 1. intros [name file consts positions instructions].
  apply H. simpl. intros child Hchild.
  assert (Forall (λ o, ∀ c, o = Some c -> P c) consts) as Hall.
  { clear Hchild. induction consts as [|[c|] consts IHc].
    - constructor.
    - constructor; [|exact IHc]. intros c' [= <-]. apply IH.
    - constructor; [|exact IHc]. intros c' [=]. }
  rewrite Forall_forall in Hall. by eapply Hall.
Qed.

Lemma walk_code_unfold (code : CodeType) :
  walk_code code = code :: (omap id (co_consts code)) ≫= walk_code.
Proof.
  destruct code as [name file consts positions instructions]. simpl. f_equal.
  induction consts as [|[c|] consts IH]; simpl; [done| |done].
  by rewrite IH.
Qed.

Lemma walk_code_const (code child c : CodeType) :
  Some child ∈ co_consts code -> c ∈ walk_code child -> c ∈ walk_code code.
Proof.
  intros Hchild Hc. rewrite walk_code_unfold. apply list_elem_of_further.
  apply list_elem_of_bind. exists child. split; [done|].
  apply list_elem_of_omap. by exists (Some child).
Qed.

Lemma walk_code_self (code : CodeType) : code ∈ walk_code code.
Proof. rewrite walk_code_unfold. apply list_elem_of_here. Qed.

Lemma walk_code_trans (code : CodeType) :
  ∀ p c, p ∈ walk_code code -> c ∈ walk_code p -> c ∈ walk_code code.
Proof.
  induction code as [code IH] using CodeType_nested_ind. intros p c Hp Hc.
  rewrite walk_code_unfold in Hp. apply elem_of_cons in Hp as [->|Hp]; [done|].
  apply list_elem_of_bind in Hp as (child & Hp & Hchild).
  apply list_elem_of_omap in Hchild as ([child'|] & Hin & [= ->]).
  eapply walk_code_const; [done|]. by eapply IH.
Qed.

Lemma nested_trans (a b c : CodeType) : nested a b -> nested b c -> nested a c.
Proof.
  intros Hab Hbc. induction Hbc as [|parent child _ IH Hchild]; [done|].
  by eapply nested_const.
Qed.

(** [walk_code] yields [code] first and then exactly the code objects nested
    in it: none is left out and nothing else is yielded. *)
Theorem walk_code_nested (code : CodeType) :
  head (walk_code code) = Some code ∧
  ∀ c, c ∈ walk_code code <-> nested code c.
Proof.
  split; [by rewrite walk_code_unfold|]. intros c. split.
  - revert c. induction code as [code IH] using CodeType_nested_ind. intros c Hc.
    rewrite walk_code_unfold in Hc.
    apply elem_of_cons in Hc as [->|Hc]; [constructor|].
    apply list_elem_of_bind in Hc as (child & Hc & Hchild).
    apply list_elem_of_omap in Hchild as ([child'|] & Hin & [= ->]).
    eapply nested_trans; [|by eapply IH].
    eapply nested_const; [constructor|done].
  - induction 1 as [|parent child _ IH Hchild]; [apply walk_code_self|].
    eapply walk_code_trans; [exact IH|].
    eapply walk_code_const; [done|apply walk_code_self].
Qed.

(** ** The positions that [parse] needs *)

Lemma observe_instructions_returns SP fixed_positions instructions :
  ∀ previous,
    match observe_instructions SP fixed_positions previous instructions with
    | Ok _ =>
        Forall (λ i, (offset i / 2 < length fixed_positions)%nat) instructions
    | Raise e =>
        e = IndexError ∧
        ¬ Forall (λ i, (offset i / 2 < length fixed_positions)%nat) instructions
    end.
Proof.
  induction instructions as [|i rest IH]; intros previous; [constructor|].
  cbn [observe_instructions]. unfold observe at 1.
  destruct (fixed_positions !! (offset i / 2)%nat) as [position|] eqn:Hp.
  - apply lookup_lt_Some in Hp. specialize (IH (Some i)).
    assert (∃ o, match position with
                 | (Some lineno, Some end_lineno, Some col_offset,
                    Some end_col_offset) =>
                     Ok (Some (mkObservation (lineno, col_offset)
                                 (end_lineno, end_col_offset)
                                 (score_instruction SP i previous)))
                 | _ => Ok None
                 end = Ok o) as [o ->].
    { destruct position as [[[[?|] [?|]] [?|]] [?|]]; by eexists. }
    cbn [mbind result_bind].
    destruct (observe_instructions SP fixed_positions (Some i) rest)
      as [[os p]|e]; cbn [mbind result_bind].
    + by constructor.
    + destruct IH as [-> Hn]. split; [done|]. intros H. apply Hn.
      by inversion H.
  - apply lookup_ge_None in Hp. cbn [mbind result_bind]. split; [done|].
    intros H. inversion H; subst. lia.
Qed.

Lemma observe_children_returns SP children :
  ∀ previous,
    match observe_children SP previous children with
    | Ok _ => Forall positions_cover children
    | Raise e => e = IndexError ∧ ¬ Forall positions_cover children
    end.
Proof.
  induction children as [|child rest IH]; intros previous; [constructor|].
  cbn [observe_children].
  pose proof (observe_instructions_returns SP (co_positions child)
                (get_instructions child) previous) as Hi.
  destruct (observe_instructions SP (co_positions child) previous
              (get_instructions child)) as [[os1 p1]|e]; cbn [mbind result_bind].
  - specialize (IH p1).
    destruct (observe_children SP p1 rest) as [[os2 p2]|e];
      cbn [mbind result_bind].
    + by constructor.
    + destruct IH as [-> Hn]. split; [done|]. intros H. apply Hn.
      by inversion H.
  - destruct Hi as [-> Hn]. split; [done|]. intros H. apply Hn.
    by inversion H.
Qed.

(** [parse] returns its chunks when every instruction of [code] and of the
    code objects nested in it has an entry in the table of positions of its
    code object; otherwise it raises [IndexError], and nothing else. *)
Theorem parse_index_error (SPECIALIZED_INSTRUCTIONS : gset string)
    (code : CodeType) :
  match parse SPECIALIZED_INSTRUCTIONS code with
  | Ok chunks => Forall positions_cover (walk_code code)
  | Raise e => e = IndexError ∧ ¬ Forall positions_cover (walk_code code)
  end.
Proof.
  rewrite parse_synthesize. unfold observations.
  pose proof (observe_children_returns SPECIALIZED_INSTRUCTIONS
                (walk_code code) None) as H.
  by destruct (observe_children _ None (walk_code code)) as [[os p]|e].
Qed.

(** ** The chunks and the registered positions *)

Lemma dom_foldl_register (obs : list Observation) :
  dom (foldl register initial_events obs) = registered obs.
Proof.
  apply set_eq. intros k. rewrite dom_registered, dom_initial_events.
  unfold registered. rewrite !elem_of_union, !elem_of_list_to_set.
  rewrite !list_elem_of_fmap. split.
  - intros [H|(o & Ho & [->| ->])]; [by left; left| |]; eauto.
  - intros [[H|(o & -> & Ho)]|(o & -> & Ho)]; [by left| |]; eauto.
Qed.

Lemma sweep_length (items : list ((Z * Z) * Stats)) :
  ∀ acc, length (sweep acc items) = pred (length items).
Proof.
  induction items as [|[k v] [|[k' v'] items] IH]; intros acc; [done..|].
  change (sweep acc ((k, v) :: (k', v') :: items))
    with (mkSourceChunk k k' (acc + v) :: sweep (acc + v) ((k', v') :: items)).
  cbn [length]. by rewrite IH.
Qed.

(** The ends of the chunks of [parse] are exactly the keys of [events], the
    sentinels and both ends of every scored span, and there is one chunk
    between every two neighbours: chunks of equal [Stats] are not merged. *)
Theorem chunk_boundaries (obs : list Observation) :
  (∀ q, boundary (synthesize obs) q <-> q ∈ registered obs) ∧
  S (length (synthesize obs)) = size (registered obs) ∧
  synthesize obs ≠ [].
Proof.
  split_and!.
  - intros q. by rewrite synthesize_boundary, dom_foldl_register.
  - rewrite <- dom_foldl_register, size_dom. unfold synthesize.
    rewrite sweep_length. unfold sorted_items.
    rewrite <- (length_map_to_list (foldl register initial_events obs)).
    rewrite <- (Permutation_length
                  (merge_sort_Permutation item_le
                     (map_to_list (foldl register initial_events obs)))).
    pose proof (synthesize_tiles obs) as Ht. unfold synthesize, sorted_items in Ht.
    destruct (merge_sort _ _) as [|x [|y items]]; [inversion Ht| |done].
    destruct x. inversion Ht.
  - pose proof (synthesize_tiles obs) as Ht.
    destruct (synthesize obs); [inversion Ht|done].
Qed.

(** ** The order of the instructions *)

Lemma events_isub_iadd (events : gmap (Z * Z) Stats) (k : Z * Z) (s : Stats) :
  events_isub events k s = events_iadd events k (Stats0 - s).
Proof.
  unfold events_isub, events_iadd. reflexivity.
Qed.

Lemma events_iadd_comm (events : gmap (Z * Z) Stats) (k1 k2 : Z * Z)
    (s1 s2 : Stats) :
  events_iadd (events_iadd events k1 s1) k2 s2 =
  events_iadd (events_iadd events k2 s2) k1 s1.
Proof.
  apply map_eq. intros k. unfold events_iadd.
  destruct (decide (k1 = k2)) as [->|Hne].
  - destruct (decide (k = k2)) as [->|Hk]; simplify_map_eq; [|done].
    f_equal. destruct (events !! k2); simpl; stats_eq.
  - destruct (decide (k = k1)) as [Hk1|Hk1], (decide (k = k2)) as [Hk2|Hk2];
      by simplify_map_eq.
Qed.

Lemma register_comm (events : gmap (Z * Z) Stats) (o1 o2 : Observation) :
  register (register events o1) o2 = register (register events o2) o1.
Proof.
  unfold register. rewrite !events_isub_iadd.
  rewrite (events_iadd_comm _ (obs_stop o1) (obs_start o2)).
  rewrite (events_iadd_comm _ (obs_start o1) (obs_start o2)).
  rewrite (events_iadd_comm _ (obs_stop o1) (obs_stop o2)).
  by rewrite (events_iadd_comm _ (obs_start o1) (obs_stop o2)).
Qed.

Lemma foldl_register_perm (obs obs' : list Observation) :
  obs ≡ₚ obs' ->
  ∀ events, foldl register events obs = foldl register events obs'.
Proof.
  induction 1 as [|o obs obs' _ IH|o1 o2 obs|obs1 obs2 obs3 _ IH1 _ IH2];
    intros events; simpl.
  - done.
  - apply IH.
  - by rewrite register_comm.
  - by rewrite IH1, IH2.
Qed.

(** The chunks of [parse] do not depend on the order in which the scored
    spans are registered. *)
Theorem synthesize_permutation (obs obs' : list Observation) :
  obs ≡ₚ obs' -> synthesize obs = synthesize obs'.
Proof.
  intros Hp. unfold synthesize. by rewrite (foldl_register_perm _ _ Hp).
Qed.

Lemma synthesize_permutation_witness :
  synthesize [mkObservation (1, 0) (1, 5) (mkStats 1 0 0);
              mkObservation (1, 4) (2, 1) (mkStats 0 0 1)] =
  synthesize [mkObservation (1, 4) (2, 1) (mkStats 0 0 1);
              mkObservation (1, 0) (1, 5) (mkStats 1 0 0)].
Proof. apply synthesize_permutation. apply Permutation_swap. Defined.

(** ** The counters of a chunk *)

Lemma covering_sum_total (obs : list Observation) (p : Z * Z) :
  Forall (λ o, one_hot (obs_stats o)) obs ->
  specialized (covering_sum obs p) + adaptive (covering_sum obs p) +
    unquickened (covering_sum obs p) = covering obs p.
Proof.
  unfold covering.
  induction 1 as [|o obs Ho _ IH]; [done|].
  cbn [covering_sum foldr]. fold (covering_sum obs p). rewrite filter_cons.
  destruct (decide (within (obs_start o) (obs_stop o) p)); [|done].
  cbn [length]. rewrite Nat2Z.inj_succ.
  destruct Ho as [->|[->| ->]]; simpl; lia.
Qed.

(** For the scored spans of a code object, none of which stops before it
    starts, no counter of a chunk of [parse] is negative, and the three
    counters add up to the number of instructions whose span contains the
    chunk. *)
Theorem chunk_counts (SPECIALIZED_INSTRUCTIONS : gset string)
    (code : CodeType) (obs : list Observation) (c : SourceChunk) :
  observations SPECIALIZED_INSTRUCTIONS code = Ok obs ->
  well_formed obs ->
  c ∈ synthesize obs ->
  0 <= specialized (stats c) ∧ 0 <= adaptive (stats c) ∧
  0 <= unquickened (stats c) ∧
  specialized (stats c) + adaptive (stats c) + unquickened (stats c) =
    covering obs (start c).
Proof.
  intros Hobs Hwf Hc. rewrite (synthesize_covering obs c Hwf Hc).
  pose proof (observations_one_hot _ _ _ Hobs) as Hhot.
  pose proof (covering_sum_counts obs (start c) Hhot) as (H1 & H2 & H3).
  pose proof (covering_sum_total obs (start c) Hhot). lia.
Qed.

Lemma chunk_counts_witness :
  ∃ c, c ∈ synthesize sample_module_observations ∧
       specialized (stats c) + adaptive (stats c) + unquickened (stats c) =
         covering sample_module_observations (start c).
Proof.
  destruct (synthesize sample_module_observations) as [|c chunks] eqn:E;
    [vm_compute in E; discriminate E|].
  exists c. split; [apply list_elem_of_here|].
  apply (chunk_counts sample_specialized sample_module
           sample_module_observations c).
  - vm_compute. reflexivity.
  - repeat constructor; vm_compute; intros H; discriminate H.
  - rewrite E. apply list_elem_of_here.
Defined.




(** ** The markup of a run *)

(** The characters of a colour code: [#], [-], a digit or a letter from [a]
    to [f]. *)
Lemma hex_digits_alphabet (d : Hexadecimal.uint) :
  Forall (λ c, (c = 45 ∨ 48 <= c <= 57 ∨ 97 <= c <= 102)%N)
         (lit (NilEmpty.string_of_uint d)).
Proof.
  induction d; simpl;
    [constructor|(constructor; [vm_compute; intuition discriminate|exact IHd])..].
Qed.

Lemma format_02x_alphabet (n : Z) :
  Forall (λ c, (c = 45 ∨ 48 <= c <= 57 ∨ 97 <= c <= 102)%N)
         (lit (format_02x n)).
Proof.
  assert (Hu : ∀ d, Forall (λ c, (c = 45 ∨ 48 <= c <= 57 ∨ 97 <= c <= 102)%N)
                      (lit (NilZero.string_of_uint d))).
  { intros d. unfold NilZero.string_of_uint.
    destruct d; try apply hex_digits_alphabet.
    constructor; [vm_compute; intuition discriminate|constructor]. }
  assert (Hi : ∀ i, Forall (λ c, (c = 45 ∨ 48 <= c <= 57 ∨ 97 <= c <= 102)%N)
                      (lit (NilZero.string_of_int i))).
  { intros [d|d]; simpl; [apply Hu|]. constructor; [by left|apply Hu]. }
  unfold format_02x. case_match; [|apply Hi].
  constructor; [vm_compute; intuition discriminate|apply Hi].
Qed.

Lemma color_alphabet (self : HTMLWriter) (stats : Stats) (color : pystr) :
  _color self stats = Ok color ->
  Forall (λ c, (c = 35 ∨ c = 45 ∨ 48 <= c <= 57 ∨ 97 <= c <= 102)%N) color.
Proof.
  rewrite color_refines_reference.
  destruct (reference_colour _ _) as [c|]; [|discriminate].
  destruct c as [|h l s]; cbn [colour_code mbind result_bind].
  - intros [= <-].
    repeat (constructor; [vm_compute; intuition discriminate|]). constructor.
  - destruct (hls_to_rgb h l s) as [[r g] b].
    destruct (int_of_float (fmul (float_lit 255) r)) as [r'|];
      cbn [mbind result_bind]; [|discriminate].
    destruct (int_of_float (fmul (float_lit 255) g)) as [g'|];
      cbn [mbind result_bind]; [|discriminate].
    destruct (int_of_float (fmul (float_lit 255) b)) as [b'|];
      cbn [mbind result_bind]; [|discriminate].
    intros [= <-].
    constructor; [by left|].
    repeat (apply Forall_app; split);
      (eapply Forall_impl; [apply format_02x_alphabet|]);
      intros c Hc; simpl in Hc; lia.
Qed.

Lemma escape_char_plain c :
  Forall (λ x, x ≠ 60%N ∧ x ≠ 62%N ∧ x ≠ 34%N ∧ x ≠ 39%N) (escape_char c).
Proof.
  unfold escape_char.
  destruct (N.eqb_spec c 38); [by repeat constructor|].
  destruct (N.eqb_spec c 60); [by repeat constructor|].
  destruct (N.eqb_spec c 62); [by repeat constructor|].
  destruct (N.eqb_spec c 34); [by repeat constructor|].
  destruct (N.eqb_spec c 39); [by repeat constructor|].
  by repeat constructor.
Qed.

(** The text of the source and the colour cannot change the markup of the
    page: the part that [HTMLWriter.add] appends is the escaped text, bare
    or inside one [span]; the escaped text holds none of the characters
    [<], [>] and the two quotes, and the colour only [#], [-], digits and the
    letters [a] to [f]. *)
Theorem add_markup (self self' : HTMLWriter) (source : pystr) (stats : Stats) :
  add self source stats = Ok self' ->
  ∃ color,
    _color self stats = Ok color ∧
    _blue self' = _blue self ∧ _dark self' = _dark self ∧
    _parts self' = _parts self ++ [rendered_run (_dark self) (source, color)] ∧
    Forall (λ x, x ≠ 60%N ∧ x ≠ 62%N ∧ x ≠ 34%N ∧ x ≠ 39%N)
           (html_escape source) ∧
    Forall (λ c, (c = 35 ∨ c = 45 ∨ 48 <= c <= 57 ∨ 97 <= c <= 102)%N) color.
Proof.
  unfold add. destruct (_color self stats) as [color|] eqn:Hcolor;
    [|discriminate]. cbn [mbind result_bind]. intros [= <-].
  exists color. do 4 (split; [done|]). split.
  - induction source as [|c source IH]; [constructor|].
    rewrite html_escape_cons. apply Forall_app. split; [apply escape_char_plain|done].
  - by eapply color_alphabet.
Qed.

Lemma add_markup_witness :
  ∃ color,
    _color (HTMLWriter_init false true) (mkStats 1 1 0) = Ok color ∧
    _parts (mkHTMLWriter false true
              (_parts (HTMLWriter_init false true) ++
               [lit "<span style='color:#feff00'>a &lt; b</span>"])) =
      _parts (HTMLWriter_init false true) ++
      [rendered_run true (lit "a < b", color)].
Proof.
  destruct (add_markup (HTMLWriter_init false true)
              (mkHTMLWriter false true
                 (_parts (HTMLWriter_init false true) ++
                  [lit "<span style='color:#feff00'>a &lt; b</span>"]))
              (lit "a < b") (mkStats 1 1 0))
    as (color & Hcolor & _ & _ & Hparts & _).
  - vm_compute. reflexivity.
  - exists color. by split.
Defined.

(** ** Spans that stop before they start *)

Lemma delta_sum_signed (obs : list Observation) (p : Z * Z) :
  ∀ events,
    delta_sum (map_to_list (foldl register events obs)) p =
    (delta_sum (map_to_list events) p + signed_sum obs p)%stats.
Proof.
  induction obs as [|o obs IH]; intros events; simpl.
  - by rewrite Stats_add_0_r.
  - rewrite IH, delta_sum_register. repeat case_decide; stats_eq.
Qed.

(** Whatever the scored spans are, the [Stats] of the chunk at [p] is the
    sum of the spans that start at or before [p] less the sum of those that
    stop at or before [p]: a span that stops before it starts is counted
    negatively between its stop and its start. *)
Theorem chunk_stats_signed (obs : list Observation) (c : SourceChunk)
    (p : Z * Z) :
  c ∈ synthesize obs -> contains c p -> stats c = signed_sum obs p.
Proof.
  intros Hc Hp. rewrite (synthesize_stats obs c p Hc Hp).
  rewrite delta_sum_signed, delta_sum_initial. apply Stats_add_0_l.
Qed.

Lemma chunk_stats_signed_witness :
  stats (mkSourceChunk (1, 2) (1, 5) (mkStats (-1) 0 0)) =
  signed_sum [mkObservation (1, 5) (1, 2) (mkStats 1 0 0)] (1, 3).
Proof.
  apply chunk_stats_signed.
  - vm_compute. apply list_elem_of_further, list_elem_of_here.
  - unfold contains, within. simpl. pos_solve.
Defined.

(** ** The runs of [view] are the chunks *)

Lemma view_invariant_next blue chunks st seen next next' :
  view_invariant blue chunks st seen next -> pos_le next next' ->
  view_invariant blue chunks st seen next'.
Proof.
  intros (dg & g & dc & Hc & Hs & Hf & Hg & Hin & Hstart & Hlt) Hle.
  exists dg, g, dc. split_and!; try done.
  - by eapply pos_le_trans.
  - eapply Forall_impl; [exact Hlt|]. intros pc Hpc. simpl in Hpc.
    by eapply pos_lt_le_trans.
Qed.

Lemma view_character_invariant blue chunks st seen lineno col_offset character st' :
  view_invariant blue chunks st seen (lineno, col_offset) ->
  view_character (add_run blue) st lineno col_offset character = Ok st' ->
  view_invariant blue chunks st'
    (seen ++ [((lineno, col_offset), character)]) (lineno, col_offset + 1).
Proof.
  intros (dg & g & dc & Hc & Hs & Hf & Hg & Hin & Hstart & Hlt) Hst.
  assert (pos_lt (lineno, col_offset) (lineno, col_offset + 1)) as Hnext
    by pos_solve.
  assert (Forall (λ pc, pos_lt pc.1 (lineno, col_offset + 1))
            (seen ++ [((lineno, col_offset), character)])) as Hlt'.
  { apply Forall_app. split.
    - eapply Forall_impl; [exact Hlt|]. intros pc Hpc. simpl in Hpc.
      by eapply pos_lt_trans.
    - constructor; [exact Hnext|constructor]. }
  unfold view_character in Hst.
  destruct (decide (stop (vs_chunk st) = (lineno, col_offset))) as [Hstop|Hstop].
  - destruct (add_run blue _ _ _) as [runs'|] eqn:Hadd; [|discriminate].
    apply add_run_inv in Hadd as (color & Hcolor & ->).
    cbn [mbind result_bind] in Hst.
    destruct (vs_parser st) as [|chunk parser] eqn:Hparser; [discriminate|].
    destruct (decide (start chunk = (lineno, col_offset))) as [Hchunk|];
      [|discriminate].
    injection Hst as <-. cbn [vs_writer vs_group vs_chunk vs_parser].
    exists (dg ++ [g]), [((lineno, col_offset), character)],
      (dc ++ [vs_chunk st]).
    split_and!.
    + by rewrite <- app_assoc.
    + rewrite concat_app. simpl. by rewrite app_nil_r, Hs.
    + apply Forall3_app; [done|]. constructor; [|constructor].
      split; [by split|]. intros pc Hpc. split; [by apply Hin|].
      rewrite Hstop. rewrite Forall_forall in Hlt. apply Hlt.
      rewrite <- Hs. apply elem_of_app. by right.
    + done.
    + intros pc ->%list_elem_of_singleton. simpl. rewrite Hchunk.
      apply pos_le_refl.
    + simpl. rewrite Hchunk. by apply pos_lt_le.
    + done.
  - injection Hst as <-. cbn [vs_writer vs_group vs_chunk vs_parser].
    exists dg, (g ++ [((lineno, col_offset), character)]), dc.
    split_and!; try done.
    + by rewrite app_assoc, Hs.
    + by rewrite fmap_app, Hg.
    + intros pc [Hpc| ->%list_elem_of_singleton]%elem_of_app; [by apply Hin|done].
    + eapply pos_le_trans; [exact Hstart|]. by apply pos_lt_le.
Qed.

Lemma view_line_invariant blue chunks line :
  ∀ st seen lineno col_offset st',
    view_invariant blue chunks st seen (lineno, col_offset) ->
    view_line (add_run blue) st lineno col_offset line = Ok st' ->
    view_invariant blue chunks st'
      (seen ++ enumerate_line lineno col_offset line) (lineno + 1, 0).
Proof.
  induction line as [|character line IH]; intros st seen lineno col_offset st' Hinv Hst.
  - injection Hst as <-. cbn [enumerate_line]. rewrite app_nil_r.
    eapply view_invariant_next; [exact Hinv|]. pos_solve.
  - cbn [view_line] in Hst. cbn [enumerate_line].
    destruct (view_character _ st _ _ _) as [st1|] eqn:Hch; [|discriminate].
    cbn [mbind result_bind] in Hst.
    pose proof (view_character_invariant _ _ _ _ _ _ _ _ Hinv Hch) as H1.
    rewrite (cons_middle _ seen), app_assoc. by eapply IH.
Qed.

Lemma view_file_invariant blue chunks file :
  ∀ st seen lineno st',
    view_invariant blue chunks st seen (lineno, 0) ->
    view_file (add_run blue) st lineno file = Ok st' ->
    ∃ next, view_invariant blue chunks st' (seen ++ enumerate_file lineno file) next.
Proof.
  induction file as [|line file IH]; intros st seen lineno st' Hinv Hst.
  - injection Hst as <-. cbn [enumerate_file]. rewrite app_nil_r. eauto.
  - cbn [view_file] in Hst. cbn [enumerate_file].
    destruct (view_line _ st _ _ _) as [st1|] eqn:Hl; [|discriminate].
    cbn [mbind result_bind] in Hst.
    pose proof (view_line_invariant _ _ _ _ _ _ _ _ Hinv Hl) as H1.
    rewrite app_assoc. by eapply IH.
Qed.

(** Every run of [view] is the run of one chunk, in the order of the chunks
    and in the colour of its chunk, and the runs hold the characters of the
    text in their order.  The characters of every run but the last lie in
    the chunk of the run; those of the last run lie at or after the start of
    its chunk, which is left open when the text ends before its stop or
    never reaches it. *)
Theorem view_runs_by_chunk (chunks : list SourceChunk) (text : pystr)
    (blue : bool) (runs : list (pystr * pystr)) :
  view_runs chunks text blue = Ok runs ->
  (∀ c, head chunks = Some c -> pos_le (start c) FIRST_POSTION) ->
  ∃ done_runs last_run done_groups last_group done_chunks chunk rest,
    runs = done_runs ++ [last_run] ∧
    chunks = done_chunks ++ chunk :: rest ∧
    concat done_groups ++ last_group = characters text ∧
    Forall3 (in_chunk blue) done_runs done_groups done_chunks ∧
    run_of blue last_run last_group chunk ∧
    ∀ pc, pc ∈ last_group -> pos_le (start chunk) pc.1.
Proof.
  unfold view_runs, view_loop. intros Hruns Hfirst.
  destruct chunks as [|chunk parser]; [discriminate|].
  destruct (view_file _ _ _ _) as [st|] eqn:Hf; [|discriminate].
  cbn [mbind result_bind] in Hruns.
  apply add_run_inv in Hruns as (color & Hcolor & ->).
  destruct (view_file_invariant blue (chunk :: parser) (readlines text)
              (mkViewState [] chunk parser []) [] 1 st)
    as (next & dg & g & dc & Hc & Hs & HF & Hg & Hin & _ & _); [|done|].
  { exists [], [], []. split_and!; try done.
    - constructor.
    - intros pc Hpc. by apply elem_of_nil in Hpc.
    - by apply Hfirst. }
  exists (vs_writer st), (vs_group st, color), dg, g, dc, (vs_chunk st),
    (vs_parser st).
  split_and!; try done.
Qed.

Lemma view_runs_by_chunk_witness :
  ∃ runs done_runs last_run done_groups last_group done_chunks chunk rest,
    view_runs (synthesize sample_module_observations) sample_text false =
      Ok runs ∧
    runs = done_runs ++ [last_run] ∧
    synthesize sample_module_observations = done_chunks ++ chunk :: rest ∧
    concat done_groups ++ last_group = characters sample_text ∧
    Forall3 (in_chunk false) done_runs done_groups done_chunks.
Proof.
  destruct (view_runs (synthesize sample_module_observations) sample_text false)
    as [runs|] eqn:E; [|vm_compute in E; discriminate E].
  destruct (view_runs_by_chunk (synthesize sample_module_observations)
              sample_text false runs E)
    as (dr & lr & dg & lg & dc & c & rest & H1 & H2 & H3 & H4 & _).
  - clear E. intros c Hc. vm_compute in Hc. injection Hc as <-. pos_solve.
  - exists runs, dr, lr, dg, lg, dc, c, rest. by split_and!.
Defined.

(** ** A stop that the text never reaches *)

Lemma view_character_left blue chunks st seen lineno col_offset character st' :
  view_left chunks st seen ->
  view_character (add_run blue) st lineno col_offset character = Ok st' ->
  view_left chunks st' (seen ++ [((lineno, col_offset), character)]).
Proof.
  intros (dc & Hc & Hlen & Hstops) Hst. unfold view_character in Hst.
  destruct (decide (stop (vs_chunk st) = (lineno, col_offset))) as [Hstop|Hstop].
  - destruct (add_run blue _ _ _) as [runs'|] eqn:Hadd; [|discriminate].
    apply add_run_inv in Hadd as (color & Hcolor & ->).
    cbn [mbind result_bind] in Hst.
    destruct (vs_parser st) as [|chunk parser] eqn:Hparser; [discriminate|].
    destruct (decide (start chunk = (lineno, col_offset))); [|discriminate].
    injection Hst as <-. cbn [vs_writer vs_group vs_chunk vs_parser].
    exists (dc ++ [vs_chunk st]). split_and!.
    + by rewrite <- app_assoc.
    + cbn [vs_writer]. by rewrite !length_app, Hlen.
    + intros c [Hc'| ->%list_elem_of_singleton]%elem_of_app.
      * rewrite fmap_app. apply elem_of_app. left. by apply Hstops.
      * rewrite fmap_app, Hstop. apply elem_of_app. right.
        apply list_elem_of_here.
  - injection Hst as <-. cbn [vs_writer vs_group vs_chunk vs_parser].
    exists dc. split_and!; [done..|].
    intros c Hc'. rewrite fmap_app. apply elem_of_app. left. by apply Hstops.
Qed.

Lemma view_line_left blue chunks line :
  ∀ st seen lineno col_offset st',
    view_left chunks st seen ->
    view_line (add_run blue) st lineno col_offset line = Ok st' ->
    view_left chunks st' (seen ++ enumerate_line lineno col_offset line).
Proof.
  induction line as [|character line IH]; intros st seen lineno col_offset st' Hinv Hst.
  - injection Hst as <-. cbn [enumerate_line]. by rewrite app_nil_r.
  - cbn [view_line] in Hst. cbn [enumerate_line].
    destruct (view_character _ st _ _ _) as [st1|] eqn:Hch; [|discriminate].
    cbn [mbind result_bind] in Hst.
    pose proof (view_character_left _ _ _ _ _ _ _ _ Hinv Hch) as H1.
    rewrite (cons_middle _ seen), app_assoc. by eapply IH.
Qed.

Lemma view_file_left blue chunks file :
  ∀ st seen lineno st',
    view_left chunks st seen ->
    view_file (add_run blue) st lineno file = Ok st' ->
    view_left chunks st' (seen ++ enumerate_file lineno file).
Proof.
  induction file as [|line file IH]; intros st seen lineno st' Hinv Hst.
  - injection Hst as <-. cbn [enumerate_file]. by rewrite app_nil_r.
  - cbn [view_file] in Hst. cbn [enumerate_file].
    destruct (view_line _ st _ _ _) as [st1|] eqn:Hl; [|discriminate].
    cbn [mbind result_bind] in Hst.
    pose proof (view_line_left _ _ _ _ _ _ _ _ Hinv Hl) as H1.
    rewrite app_assoc. by eapply IH.
Qed.

(** A chunk whose stop is not the position of a character of the text, such
    as a column past the end of its line, is never left: the chunks after it
    get no run, and the rest of the text is in its run. *)
Theorem view_skipped_stop (chunks : list SourceChunk) (text : pystr)
    (blue : bool) (runs : list (pystr * pystr))
    (before : list SourceChunk) (c : SourceChunk) (after : list SourceChunk) :
  view_runs chunks text blue = Ok runs ->
  chunks = before ++ c :: after ->
  stop c ∉ (characters text).*1 ->
  (length runs <= S (length before))%nat.
Proof.
  unfold view_runs, view_loop. intros Hruns Hchunks Hstop.
  destruct chunks as [|chunk parser]; [discriminate|].
  destruct (view_file _ _ _ _) as [st|] eqn:Hf; [|discriminate].
  cbn [mbind result_bind] in Hruns.
  apply add_run_inv in Hruns as (color & Hcolor & ->).
  destruct (view_file_left blue (chunk :: parser) (readlines text)
              (mkViewState [] chunk parser []) [] 1 st)
    as (dc & Hc & Hlen & Hstops); [|done|].
  { exists []. split_and!; [done..|]. intros c' Hc'. by apply elem_of_nil in Hc'. }
  rewrite length_app. simpl. rewrite Hlen.
  destruct (decide (length dc <= length before)%nat) as [|Hgt]; [lia|].
  exfalso. apply Hstop. apply Hstops.
  rewrite Hchunks in Hc.
  assert ((before ++ c :: after) !! length before = Some c) as Hlook
    by (by rewrite lookup_app_r, Nat.sub_diag by lia).
  rewrite Hc, lookup_app_l in Hlook by lia.
  by eapply list_elem_of_lookup_2.
Qed.

Lemma view_skipped_stop_witness :
  ∃ runs,
    view_runs [mkSourceChunk (1, 0) (1, 9) (mkStats 1 0 0);
               mkSourceChunk (1, 9) (2, 0) Stats0]
      (lit "x = 1") false = Ok runs ∧
    (length runs <= 1)%nat.
Proof.
  destruct (view_runs [mkSourceChunk (1, 0) (1, 9) (mkStats 1 0 0);
                       mkSourceChunk (1, 9) (2, 0) Stats0]
              (lit "x = 1") false) as [runs|] eqn:E;
    [|vm_compute in E; discriminate E].
  exists runs. split; [reflexivity|].
  apply (view_skipped_stop _ (lit "x = 1") false runs []
           (mkSourceChunk (1, 0) (1, 9) (mkStats 1 0 0))
           [mkSourceChunk (1, 9) (2, 0) Stats0] E); [reflexivity|].
  clear E. vm_compute. intros H.
  repeat (apply elem_of_cons in H as [H|H]; [discriminate H|]).
  by apply elem_of_nil in H.
Defined.

(** ** The registry and its lookups *)

(** [audit_imports] only adds to the registry: every code object held stays,
    and a code object that joins is the module-level code object of an
    [exec] event with that one argument. *)
Theorem audit_imports_grows (code_eq : CodeType -> CodeType -> Prop)
    (CODE CODE' : list CodeType) (event : string) (args : list pyobject) :
  audit_imports code_eq CODE event args CODE' ->
  (∀ c, c ∈ CODE -> c ∈ CODE') ∧
  (∀ c, c ∈ CODE' ->
        c ∈ CODE ∨
        (event = "exec" ∧ args = [ObjCode c] ∧ co_name c = "<module>")).
Proof.
  unfold audit_imports, audit_imports_match.
  destruct args as [|[code|] [|arg args]]; try (intros ->; by split; auto).
  destruct (String.eqb_spec event "exec") as [->|Hne];
    [|intros ->; by split; auto].
  destruct (String.eqb_spec (co_name code) "<module>") as [Hname|Hne];
    [|intros ->; by split; auto].
  simpl. intros [[_ ->]|[_ Hp]]; [by split; auto|]. split.
  - intros c Hc. rewrite Hp. by apply list_elem_of_further.
  - intros c Hc. rewrite Hp in Hc. apply elem_of_cons in Hc as [->|Hc]; auto.
Qed.

Lemma audit_imports_grows_witness :
  (∀ c, c ∈ [] -> c ∈ [sample_module]) ∧
  (∀ c, c ∈ [sample_module] ->
        c ∈ [] ∨
        ("exec" = "exec" ∧ [ObjCode sample_module] = [ObjCode c] ∧
         co_name c = "<module>")).
Proof.
  apply (audit_imports_grows eq [] [sample_module] "exec"
           [ObjCode sample_module]).
  right. split; [|reflexivity]. intros c Hc. by apply elem_of_nil in Hc.
Defined.

Lemma samefile_stat stat path1 path2 other :
  stat path1 = stat path2 ->
  samefile stat path1 other = samefile stat path2 other.
Proof. intros H. unfold samefile. by rewrite H. Qed.

(** [get_code_for_path] reads its path only through [os.stat]: two paths of
    the same file, or two paths on which [os.stat] fails alike, are looked up
    alike. *)
Theorem lookup_by_identity (stat : string -> result (N * N))
    (path1 path2 : string) (CODE : list CodeType) :
  stat path1 = stat path2 ->
  get_code_for_path stat path1 CODE = get_code_for_path stat path2 CODE.
Proof.
  intros H. induction CODE as [|code CODE IH]; [done|].
  cbn [get_code_for_path]. by rewrite (samefile_stat _ _ _ _ H), IH.
Qed.

Lemma lookup_by_identity_witness :
  get_code_for_path sample_stat "sample.py" [sample_module] =
  get_code_for_path sample_stat "./sample.py" [sample_module].
Proof. apply lookup_by_identity. reflexivity. Defined.

(** Looking up a path that does not exist gives [None] and raises nothing,
    whatever the registry holds. *)
Theorem lookup_missing_path (stat : string -> result (N * N)) (path : string)
    (CODE : list CodeType) :
  stat path = Raise FileNotFoundError ->
  get_code_for_path stat path CODE = Ok None.
Proof.
  intros H. induction CODE as [|code CODE IH]; [done|].
  cbn [get_code_for_path]. unfold samefile. rewrite H.
  cbn [mbind result_bind]. exact IH.
Qed.

Lemma lookup_missing_path_witness :
  get_code_for_path sample_stat "other.py" [sample_module] = Ok None.
Proof. apply lookup_missing_path. reflexivity. Defined.

(** ** A chunk of adaptive instructions *)

(** A chunk whose instructions are all in adaptive form is pure red, on
    both axes. *)
Theorem all_adaptive_red (self : HTMLWriter) (n : Z) :
  0 < n < 2 ^ 1000 ->
  _color self (mkStats 0 n 0) = Ok (lit "#ff0000").
Proof.
  intros Ha. unfold _color. cbn [specialized adaptive unquickened].
  rewrite Z.add_0_l, Z.add_0_r.
  destruct (n =? 0) eqn:Hq; [apply Z.eqb_eq in Hq; lia|].
  rewrite int_truediv_1_3. cbn [mbind result_bind].
  replace (fmul_int ONE_THIRD 0) with (Ok (S754_zero false) : result float)
    by (vm_compute; reflexivity).
  cbn [mbind result_bind]. unfold fdiv_int.
  destruct (float_of_int_below n 1000) as (q & -> & _ & Hq');
    [lia|lia|]. cbn [mbind result_bind].
  specialize (Hq' ltac:(lia)).
  destruct q as [sq|sq| |sq mq eq]; [destruct Hq'..|].
  cbn [mbind result_bind].
  change (fdiv (S754_zero false) (S754_finite sq mq eq))
    with (S754_zero (xorb false sq)).
  rewrite int_truediv_1_2. cbn [mbind result_bind].
  rewrite int_truediv_0_l by lia. cbn [mbind result_bind].
  rewrite pymax_half_zero, float_of_int_1. cbn [mbind result_bind].
  destruct (_blue self), sq; vm_compute; reflexivity.
Qed.

Lemma all_adaptive_red_witness :
  _color (HTMLWriter_init true true) (mkStats 0 5 0) = Ok (lit "#ff0000").
Proof.
  apply (all_adaptive_red (HTMLWriter_init true true) 5).
  split; [reflexivity|]. vm_compute. reflexivity.
Defined.

(** ** Running the script *)

(** While the script runs, [sys.argv] is its first element followed by
    [argv]; afterwards it is what it was before, whatever the script did to
    the elements after the first and whether it raised or not, and [caught]
    holds the exception of the script, if any. *)
Theorem run_caught_restores {A : Type} (argv : list string)
    (run : list string -> result A * list string)
    (sys_argv0 : list string) (script : string) :
  head sys_argv0 = Some script ->
  head (run (script :: argv)).2 = Some script ->
  run_caught argv run sys_argv0 =
    (catch_exceptions (run (script :: argv)).1, sys_argv0).
Proof.
  intros H0 Hrun. unfold run_caught, patch_sys_argv, assign_tail.
  destruct sys_argv0 as [|s0 rest]; [discriminate|]. injection H0 as ->.
  simpl.
  destruct (run (script :: argv)) as [r current]. simpl in Hrun.
  destruct current as [|s1 current]; [discriminate|]. injection Hrun as ->.
  reflexivity.
Qed.

Lemma run_caught_restores_witness :
  run_caught ["1"; "2"]
    (λ patched, (Raise ValueError : result (), ["python"; "changed"]))
    ["python"; "-b"; "script.py"] =
  ([ValueError], ["python"; "-b"; "script.py"]).
Proof.
  apply (run_caught_restores ["1"; "2"]
           (λ patched, (Raise ValueError : result (), ["python"; "changed"]))
           ["python"; "-b"; "script.py"] "python"); reflexivity.
Defined.

(** ** The report of [main] *)

(** Without [--targets], when no code object was captured for the file of
    the script, [main] shows nothing and raises [AssertionError]: an
    exception of the script that [caught] holds is not raised. *)
Theorem main_masks_script_exception (SPECIALIZED_INSTRUCTIONS : gset string)
    (stat : string -> result (N * N)) (open : string -> result pystr)
    (glob : string -> list string) (CODE : list CodeType) (blue dark : bool)
    (path : string) (caught : list exception) :
  get_code_for_path stat path CODE = Ok None ->
  main_report SPECIALIZED_INSTRUCTIONS stat open glob CODE blue dark
    None (Some path) caught = ([], Raise AssertionError).
Proof.
  intros Hnone. unfold main_report, main_paths, main_views, view.
  by rewrite Hnone.
Qed.

Lemma main_masks_script_exception_witness :
  main_report sample_specialized sample_stat sample_open (λ _, []) []
    false false None (Some "sample.py") [ValueError] =
  ([], Raise AssertionError).
Proof. apply main_masks_script_exception. reflexivity. Defined.

Lemma main_matches_found stat (CODE : list CodeType) (matches : list string) :
  ∀ paths paths',
    main_matches stat CODE paths matches = Ok paths' ->
    ∃ found,
      paths' = paths ++ found ∧
      (∀ p, p ∈ found ->
            p ∈ matches ∧ ∃ code, get_code_for_path stat p CODE = Ok (Some code)) ∧
      (∀ p code, p ∈ matches -> get_code_for_path stat p CODE = Ok (Some code) ->
                 p ∈ found).
Proof.
  induction matches as [|m matches IH]; intros paths paths'.
  - intros [= <-]. exists []. rewrite app_nil_r. split; [done|].
    split; [intros p Hp; by apply elem_of_nil in Hp|].
    intros p code Hp. by apply elem_of_nil in Hp.
  - cbn [main_matches].
    destruct (get_code_for_path stat m CODE) as [[code|]|] eqn:Hm;
      cbn [mbind result_bind]; [| |discriminate].
    + intros (found & -> & Hf & Hall)%IH. exists (m :: found).
      rewrite <- app_assoc. split; [done|]. split.
      * intros p [->|Hp]%elem_of_cons.
        -- split; [apply list_elem_of_here|eauto].
        -- destruct (Hf p Hp) as [H1 H2]. split; [|done].
           by apply list_elem_of_further.
      * intros p code' [->|Hp]%elem_of_cons Hcode; [apply list_elem_of_here|].
        apply list_elem_of_further. by eapply Hall.
    + intros (found & -> & Hf & Hall)%IH. exists found. split; [done|]. split.
      * intros p Hp. destruct (Hf p Hp) as [H1 H2]. split; [|done].
        by apply list_elem_of_further.
      * intros p code' [->|Hp]%elem_of_cons Hcode; [congruence|].
        by eapply Hall.
Qed.

(** With [--targets], the files that [main] shows are exactly the matches of
    the pattern for which a code object was captured; the file of the script
    is shown only if it is one of them. *)
Theorem main_targets_paths (stat : string -> result (N * N))
    (glob : string -> list string) (CODE : list CodeType)
    (targets : string) (path : option string) (paths : list string) :
  main_paths stat glob CODE (Some targets) path = Ok paths ->
  ∀ p, p ∈ paths <->
       p ∈ glob targets ∧
       ∃ code, get_code_for_path stat p CODE = Ok (Some code).
Proof.
  unfold main_paths. intros (found & -> & Hf & Hall)%main_matches_found p.
  rewrite app_nil_l. split; [apply Hf|]. intros [Hp [code Hcode]].
  by eapply Hall.
Qed.

Lemma main_targets_paths_witness :
  "setup.py" ∈ ["sample.py"] <->
  "setup.py" ∈ ["setup.py"; "sample.py"] ∧
  ∃ code,
    get_code_for_path sample_stat "setup.py" [sample_module] = Ok (Some code).
Proof.
  apply (main_targets_paths sample_stat (λ _, ["setup.py"; "sample.py"])
           [sample_module] "*.py" None ["sample.py"]).
  reflexivity.
Defined.

Lemma main_views_all SP stat open (CODE : list CodeType) (blue dark : bool)
    (paths : list string) (pages : list pystr) :
  Forall2 (λ p page, view SP stat open CODE p blue dark = Ok page) paths pages ->
  main_views SP stat open CODE blue dark paths = (Browsed <$> pages, Ok ()).
Proof.
  induction 1 as [|p page paths pages Hp _ IH]; [done|].
  cbn [main_views]. by rewrite Hp, IH.
Qed.

(** When every [view] returns, [main] shows the page of every path of
    [paths], in their order, or prints that there is no source file when
    [paths] is empty; only then does it raise the first exception that the
    script raised, if it raised one. *)
Theorem main_report_shows (SPECIALIZED_INSTRUCTIONS : gset string)
    (stat : string -> result (N * N)) (open : string -> result pystr)
    (glob : string -> list string) (CODE : list CodeType) (blue dark : bool)
    (targets path : option string) (caught : list exception)
    (paths : list string) (pages : list pystr) :
  main_paths stat glob CODE targets path = Ok paths ->
  Forall2 (λ p page,
             view SPECIALIZED_INSTRUCTIONS stat open CODE p blue dark = Ok page)
          paths pages ->
  main_report SPECIALIZED_INSTRUCTIONS stat open glob CODE blue dark
    targets path caught =
  (match paths with
   | [] => [Printed "No source files found!"]
   | _ => []
   end ++ (Browsed <$> pages),
   match caught with e :: _ => Raise e | [] => Ok () end).
Proof.
  intros Hpaths Hviews. unfold main_report. rewrite Hpaths.
  by rewrite (main_views_all _ _ _ _ _ _ _ _ Hviews).
Qed.

Lemma main_report_shows_witness :
  ∃ page,
    main_report sample_specialized sample_stat sample_open (λ _, [])
      [sample_module] false false None (Some "sample.py") [ValueError] =
    ([Browsed page], Raise ValueError).
Proof.
  destruct (view sample_specialized sample_stat sample_open [sample_module]
              "sample.py" false false) as [page|] eqn:E;
    [|vm_compute in E; discriminate E].
  exists page.
  apply (main_report_shows sample_specialized sample_stat sample_open (λ _, [])
           [sample_module] false false None (Some "sample.py") [ValueError]
           ["sample.py"] [page]); [reflexivity|].
  constructor; [exact E|constructor].
Defined.

(** ** The exceptions of [view] *)

Lemma float_of_int_raises n e : float_of_int n = Raise e -> e = OverflowError.
Proof. unfold float_of_int. case_match; [by intros [= <-]|discriminate]. Qed.

Lemma int_truediv_raises a b e :
  int_truediv a b = Raise e -> e = ZeroDivisionError ∨ e = OverflowError.
Proof.
  unfold int_truediv. repeat case_match; intros [= <-]; auto.
Qed.

Lemma int_of_float_raises x e :
  int_of_float x = Raise e -> e = ValueError ∨ e = OverflowError.
Proof. destruct x; simpl; intros [= <-]; auto. Qed.

Lemma color_exceptions (self : HTMLWriter) (stats : Stats) (e : exception) :
  _color self stats = Raise e ->
  e = ZeroDivisionError ∨ e = OverflowError ∨ e = ValueError.
Proof.
  unfold _color. destruct (_ =? 0); [discriminate|].
  destruct (int_truediv 1 3) as [third|e1] eqn:H1; cbn [mbind result_bind];
    [|intros [= <-]; apply int_truediv_raises in H1; tauto].
  unfold fmul_int.
  destruct (float_of_int (specialized stats)) as [y|e1] eqn:H2;
    cbn [mbind result_bind];
    [|intros [= <-]; apply float_of_int_raises in H2; tauto].
  unfold fdiv_int.
  destruct (float_of_int (specialized stats + adaptive stats)) as [q|e1] eqn:H3;
    cbn [mbind result_bind];
    [|intros [= <-]; apply float_of_int_raises in H3; tauto].
  destruct (match q with S754_zero _ => Raise ZeroDivisionError
                       | _ => Ok (fdiv (fmul third y) q) end) as [hue|e1] eqn:H4;
    cbn [mbind result_bind];
    [|intros [= <-]; destruct q; simplify_eq; tauto].
  destruct (int_truediv 1 2) as [half|e1] eqn:H5; cbn [mbind result_bind];
    [|intros [= <-]; apply int_truediv_raises in H5; tauto].
  destruct (int_truediv (unquickened stats) _) as [ratio|e1] eqn:H6;
    cbn [mbind result_bind];
    [|intros [= <-]; apply int_truediv_raises in H6; tauto].
  destruct (float_of_int 1) as [saturation|e1] eqn:H7; cbn [mbind result_bind];
    [|intros [= <-]; apply float_of_int_raises in H7; tauto].
  destruct (hls_to_rgb _ _ _) as [[r g] b].
  destruct (int_of_float (fmul (float_lit 255) r)) as [r'|e1] eqn:H8;
    cbn [mbind result_bind];
    [|intros [= <-]; apply int_of_float_raises in H8; tauto].
  destruct (int_of_float (fmul (float_lit 255) g)) as [g'|e1] eqn:H9;
    cbn [mbind result_bind];
    [|intros [= <-]; apply int_of_float_raises in H9; tauto].
  destruct (int_of_float (fmul (float_lit 255) b)) as [b'|e1] eqn:H10;
    cbn [mbind result_bind];
    [|intros [= <-]; apply int_of_float_raises in H10; tauto].
  discriminate.
Qed.

(** The exceptions of [view], for a file of fewer than [sys.maxsize] lines:
    the one of the lookup, [AssertionError] when no code object was captured
    for the path, [IndexError] from [parse], the one of opening the file, or
    an arithmetic exception of the colour of a chunk.  The lookup and
    [parse] come before the file is opened.  The [assert] in the loop never
    fails and [next(parser)] never raises [StopIteration]. *)
Theorem view_exceptions (SPECIALIZED_INSTRUCTIONS : gset string)
    (stat : string -> result (N * N)) (open : string -> result pystr)
    (CODE : list CodeType) (path : string) (blue dark : bool) (e : exception) :
  view SPECIALIZED_INSTRUCTIONS stat open CODE path blue dark = Raise e ->
  (∀ text, open path = Ok text ->
           Z.of_nat (length (readlines text)) < maxsize) ->
  get_code_for_path stat path CODE = Raise e ∨
  (get_code_for_path stat path CODE = Ok None ∧ e = AssertionError) ∨
  ∃ code,
    get_code_for_path stat path CODE = Ok (Some code) ∧
    ((parse SPECIALIZED_INSTRUCTIONS code = Raise e ∧ e = IndexError) ∨
     ∃ chunks,
       parse SPECIALIZED_INSTRUCTIONS code = Ok chunks ∧
       (open path = Raise e ∨
        (colour_raises blue chunks e ∧
         (e = ZeroDivisionError ∨ e = OverflowError ∨ e = ValueError)))).
Proof.
  intros Hview Hlen. unfold view in Hview.
  destruct (get_code_for_path stat path CODE) as [[code|]|e0];
    cbn [mbind result_bind] in Hview;
    [|injection Hview as <-; auto|injection Hview as <-; auto].
  right. right. exists code. split; [done|].
  pose proof (parse_synthesize SPECIALIZED_INSTRUCTIONS code) as Hparse.
  destruct (parse SPECIALIZED_INSTRUCTIONS code) as [chunks|e0] eqn:Hp;
    cbn [mbind result_bind] in Hview.
  - right. exists chunks. split; [done|].
    destruct (observations SPECIALIZED_INSTRUCTIONS code) as [obs|] eqn:Hobs;
      [|discriminate]. injection Hparse as ->.
    pose proof (synthesize_tiles obs) as Ht.
    destruct (synthesize obs) as [|chunk parser] eqn:Hs; [inversion Ht|].
    destruct (open path) as [text|e0] eqn:Hopen; cbn [mbind result_bind] in Hview;
      [|injection Hview as <-; auto].
    right.
    destruct (view_chunks_progress _ _ _ text blue dark Ht)
      as [[page Hpage]|[e' [He Hc]]].
    { pose proof (LAST_le_highest obs) as Hle. specialize (Hlen text eq_refl).
      pos_solve. }
    + congruence.
    + assert (e' = e) as -> by congruence. split; [done|].
      destruct Hc as (c & _ & Hc). by eapply color_exceptions.
  - injection Hview as <-. left. split; [done|].
    unfold observations in Hparse.
    pose proof (observe_children_returns SPECIALIZED_INSTRUCTIONS
                  (walk_code code) None) as H.
    destruct (observe_children _ None (walk_code code)) as [[os p]|e1];
      [discriminate|].
    destruct H as [-> _]. by injection Hparse as <-.
Qed.

Lemma view_exceptions_witness :
  get_code_for_path sample_stat "sample.py" [] = Raise AssertionError ∨
  (get_code_for_path sample_stat "sample.py" [] = Ok None ∧
   AssertionError = AssertionError) ∨
  ∃ code,
    get_code_for_path sample_stat "sample.py" [] = Ok (Some code) ∧
    ((parse sample_specialized code = Raise AssertionError ∧
      AssertionError = IndexError) ∨
     ∃ chunks,
       parse sample_specialized code = Ok chunks ∧
       (sample_open "sample.py" = Raise AssertionError ∨
        (colour_raises false chunks AssertionError ∧
         (AssertionError = ZeroDivisionError ∨ AssertionError = OverflowError ∨
          AssertionError = ValueError)))).
Proof.
  apply (view_exceptions sample_specialized sample_stat sample_open []
           "sample.py" false false AssertionError).
  - reflexivity.
  - intros text [= <-]. vm_compute. reflexivity.
Defined.

(** ** The name tests of the classifier *)

Lemma append_cons (c : ascii) (s1 s2 : string) :
  (String c s1 +:+ s2)%string = String c (s1 +:+ s2)%string.
Proof. reflexivity. Qed.

Lemma prefix_append (needle s : string) :
  String.prefix needle s = true <-> ∃ post, s = (needle +:+ post)%string.
Proof.
  revert s. induction needle as [|a needle IH]; intros s; simpl.
  - split; [intros _; by exists s|intros _; by destruct s].
  - destruct s as [|b s]; [split; [done|intros [post [=]]]|]. simpl.
    destruct (Ascii.ascii_dec a b) as [->|Hne].
    + rewrite IH. split; intros [post H]; exists post.
      * by rewrite H.
      * by injection H.
    + split; [done|]. intros [post H]. by injection H.
Qed.

Lemma str_contains_append (needle s : string) :
  str_contains needle s = true <->
  ∃ pre post, s = (pre +:+ needle +:+ post)%string.
Proof.
  induction s as [|c s IH].
  - cbn [str_contains]. rewrite orb_false_r, prefix_append. split.
    + intros [post ->]. by exists EmptyString, post.
    + intros (pre & post & H). destruct pre as [|? ?]; [|discriminate].
      by exists post.
  - cbn [str_contains]. rewrite orb_true_iff, prefix_append, IH. split.
    + intros [[post ->]|(pre & post & ->)].
      * by exists EmptyString, post.
      * by exists (String c pre), post.
    + intros (pre & post & H). destruct pre as [|c' pre].
      * left. eauto.
      * right. rewrite append_cons in H. injection H as -> ->. eauto.
Qed.

Lemma substring_all (s : string) : substring 0 (String.length s) s = s.
Proof. induction s as [|c s IH]; simpl; [done|]. by rewrite IH. Qed.

Lemma substring_append_r (pre suffix : string) :
  substring (String.length pre) (String.length suffix)
    (pre +:+ suffix)%string = suffix.
Proof.
  induction pre as [|c pre IH]; [apply substring_all|].
  rewrite append_cons. exact IH.
Qed.

Lemma length_append (s1 s2 : string) :
  String.length (s1 +:+ s2)%string = (String.length s1 + String.length s2)%nat.
Proof.
  induction s1 as [|c s1 IH]; [done|]. rewrite append_cons. simpl.
  by rewrite IH.
Qed.

Lemma substring_split (s : string) :
  ∀ n, (n <= String.length s)%nat ->
       s = (substring 0 n s +:+ substring n (String.length s - n) s)%string.
Proof.
  induction s as [|c s IH]; intros n Hn; simpl in *.
  - by destruct n.
  - destruct n as [|n]; simpl.
    + by rewrite substring_all.
    + rewrite append_cons. f_equal. apply IH. lia.
Qed.

Lemma endswith_append (s suffix : string) :
  endswith s suffix = true <-> ∃ pre, s = (pre +:+ suffix)%string.
Proof.
  unfold endswith. rewrite andb_true_iff, Nat.leb_le, String.eqb_eq. split.
  - intros [Hle Hsub].
    exists (substring 0 (String.length s - String.length suffix) s).
    rewrite <- Hsub at 2.
    rewrite (substring_split s (String.length s - String.length suffix)) at 1
      by lia.
    do 2 f_equal. lia.
  - intros [pre ->]. rewrite length_append. split; [lia|].
    replace (String.length pre + String.length suffix - String.length suffix)%nat
      with (String.length pre) by lia.
    apply substring_append_r.
Qed.

(** The name tests of the classifier: [is_superinstruction] holds exactly
    of the names with two underscores in a row somewhere, and
    [score_instruction] counts an instruction as adaptive exactly when its
    name is in the table of specialized instructions and ends in
    [_ADAPTIVE]. *)
Theorem classifier_name_tests (SPECIALIZED_INSTRUCTIONS : gset string)
    (instruction : Instruction) (previous : option Instruction) :
  (is_superinstruction instruction = true <->
   ∃ pre post, opname instruction = (pre +:+ "__" +:+ post)%string) ∧
  (score_instruction SPECIALIZED_INSTRUCTIONS instruction previous =
     mkStats 0 1 0 <->
   opname instruction ∈ SPECIALIZED_INSTRUCTIONS ∧
   ∃ pre, opname instruction = (pre +:+ "_ADAPTIVE")%string).
Proof.
  split; [apply str_contains_append|].
  unfold score_instruction. rewrite <- endswith_append.
  destruct (bool_decide_reflect (opname instruction ∈ SPECIALIZED_INSTRUCTIONS))
    as [Hin|Hin].
  - destruct (endswith (opname instruction) "_ADAPTIVE"); split; try done.
    by intros [_ ?].
  - split; [|by intros [? _]].
    destruct previous as [prev|]; [|done].
    by destruct (is_superinstruction prev && negb (is_jump_target instruction)).
Qed.

(** ** The form of the colour code *)

(** *** The value that rounding keeps *)

Lemma Zdigits2_shiftr a n :
  0 <= a -> 0 <= n -> Zdigits2 (a / 2 ^ n) = Z.max 0 (Zdigits2 a - n).
Proof.
  intros Ha Hn. pose proof (Zdigits2_shiftr_le a n Ha Hn) as Hle.
  pose proof (Zdigits2_nonneg (a / 2 ^ n)) as H0.
  destruct (decide (n < Zdigits2 a)) as [Hlt|Hge]; [|lia].
  assert (0 < a) as Hpos.
  { destruct (decide (a = 0)) as [->|]; [simpl in Hlt; lia|lia]. }
  destruct (Zdigits2_shiftr_ge a n Hpos Hn Hlt) as [_ Hge]. lia.
Qed.

Lemma shr_fexp_value m e l :
  0 <= m ->
  ∃ r e',
    shr_fexp 53 1024 m e l = (r, e') ∧
    e' = Z.max e (fexp 53 1024 (Zdigits2 m + e)) ∧
    shr_m r = m / 2 ^ (e' - e).
Proof.
  intros Hm. unfold shr_fexp, shr, fexp, emin.
  destruct (Z.max (Zdigits2 m + e - 53) (3 - 1024 - 53) - e) as [|n|n] eqn:Hn.
  - eexists _, _. split; [reflexivity|]. rewrite shr_record_of_loc_m.
    split; [lia|]. rewrite Z.sub_diag.
    by rewrite Z.div_1_r.
  - destruct (iter_shr_1_m n (shr_record_of_loc m l)) as [H0 E0];
      [by rewrite shr_record_of_loc_m|].
    rewrite shr_record_of_loc_m in E0.
    eexists _, _. split; [reflexivity|]. split; [lia|].
    rewrite E0. f_equal. f_equal. lia.
  - eexists _, _. split; [reflexivity|]. rewrite shr_record_of_loc_m.
    split; [lia|]. rewrite Z.sub_diag.
    by rewrite Z.div_1_r.
Qed.

Lemma div_pow2_bounds m a :
  0 <= m -> 0 <= a ->
  0 <= m / 2 ^ a ∧ (m / 2 ^ a) * 2 ^ a <= m ∧ m + 1 <= (m / 2 ^ a + 1) * 2 ^ a.
Proof.
  intros Hm Ha. pose proof (Z.pow_pos_nonneg 2 a ltac:(lia) Ha) as Hp.
  pose proof (Z.div_mod m (2 ^ a) ltac:(lia)) as Hdm.
  pose proof (Z.mod_pos_bound m (2 ^ a) Hp) as Hmod.
  split; [apply Z.div_pos; lia|]. nia.
Qed.

(** The result of rounding [mx * 2 ^ ex], when [ex] is not above the
    exponent that the magnitude asks for: a zero or a finite float
    [m * 2 ^ e] in canonical form, within one unit of [e] of any value
    between [mx * 2 ^ ex] and [(mx + 1) * 2 ^ ex], and not above a power of
    two that bounds [mx * 2 ^ ex]. *)
Lemma binary_round_aux_value s mx ex lx K :
  0 <= mx ->
  ex <= fexp 53 1024 (Zdigits2 mx + ex) ->
  Zdigits2 mx + ex <= K -> -1074 <= K -> K <= 1023 ->
  ∃ m e,
    0 <= m ∧
    binary_round_aux 53 1024 s mx ex lx =
      match m with
      | Z.pos p => S754_finite s p e
      | _ => S754_zero s
      end ∧
    ex <= e ∧ e <= fexp 53 1024 (K + 1) ∧ e <= K ∧
    (0 < m -> e = fexp 53 1024 (Zdigits2 m + e)) ∧
    (m - 1) * 2 ^ (e - ex) <= mx ∧
    mx + 1 <= (m + 1) * 2 ^ (e - ex) ∧
    m * 2 ^ (e - ex) <= 2 ^ (K - ex).
Proof.
  intros Hm HC HK HK0 HK1. unfold binary_round_aux.
  pose proof (Zdigits2_nonneg mx) as Hdx.
  destruct (shr_fexp_value mx ex lx Hm) as (r1 & e1 & -> & He1 & Hm1).
  pose proof (round_nearest_even_bound (shr_m r1) (loc_of_shr_record r1)) as Hr.
  set (m1 := shr_m r1) in *.
  set (m2 := round_nearest_even m1 (loc_of_shr_record r1)) in *.
  assert (e1 = fexp 53 1024 (Zdigits2 mx + ex)) as He1' by lia.
  assert (0 <= e1 - ex) as Ha by lia.
  destruct (div_pow2_bounds mx (e1 - ex) Hm Ha) as (Hm1p & Hlo1 & Hhi1).
  rewrite <- Hm1 in Hm1p, Hlo1, Hhi1.
  assert (Zdigits2 m1 = Z.max 0 (Zdigits2 mx - (e1 - ex))) as Hd1
    by (rewrite Hm1; by apply Zdigits2_shiftr).
  assert (0 <= m2) as Hm2 by lia.
  destruct (shr_fexp_value m2 e1 loc_Exact Hm2) as (r3 & e3 & -> & He3 & Hm3).
  set (m3 := shr_m r3) in *.
  pose proof (Zdigits2_mono m1 m2 ltac:(lia)) as Hd12.
  pose proof (Zdigits2_succ m1 Hm1p) as Hd1s.
  pose proof (Zdigits2_mono m2 (m1 + 1) ltac:(lia)) as Hd21.
  pose proof (Zdigits2_nonneg m1) as Hdm1. pose proof (Zdigits2_nonneg m2) as Hdm2.
  assert (e1 <= fexp 53 1024 (Zdigits2 m2 + e1)) as Hmono
    by (unfold fexp, emin in *; lia).
  assert (e3 = fexp 53 1024 (Zdigits2 m2 + e1)) as He3' by lia.
  assert (0 <= e3 - e1) as Hb by lia.
  destruct (div_pow2_bounds m2 (e3 - e1) Hm2 Hb) as (Hm3p & Hlo3 & Hhi3).
  rewrite <- Hm3 in Hm3p, Hlo3, Hhi3.
  assert (Zdigits2 m3 = Z.max 0 (Zdigits2 m2 - (e3 - e1))) as Hd3
    by (rewrite Hm3; by apply Zdigits2_shiftr).
  (* the magnitude *)
  assert (e1 <= K) as He1K by (unfold fexp, emin in *; lia).
  assert (m1 + 1 <= 2 ^ (K - e1)) as Hcap1.
  { assert (mx < 2 ^ (K - ex)) as Hlt by (apply Zdigits2_le; lia).
    replace (K - ex) with ((K - e1) + (e1 - ex)) in Hlt by lia.
    rewrite Z.pow_add_r in Hlt by lia.
    pose proof (Z.pow_pos_nonneg 2 (e1 - ex) ltac:(lia) Ha).
    pose proof (Z.pow_pos_nonneg 2 (K - e1) ltac:(lia) ltac:(lia)). nia. }
  assert (Zdigits2 m2 <= K - e1 + 1) as Hd2K.
  { apply Zdigits2_le; [lia|lia|]. rewrite Z.pow_add_r by lia.
    change (2 ^ 1) with 2. lia. }
  assert (e3 <= fexp 53 1024 (K + 1)) as He3K by (unfold fexp, emin in *; lia).
  assert (e3 <= K) as He3K' by (unfold fexp, emin in *; lia).
  exists m3, e3.
  pose proof (Z.pow_pos_nonneg 2 (e1 - ex) ltac:(lia) Ha) as HA.
  pose proof (Z.pow_pos_nonneg 2 (e3 - e1) ltac:(lia) Hb) as HB.
  assert (2 ^ (e3 - ex) = 2 ^ (e3 - e1) * 2 ^ (e1 - ex)) as Hpow
    by (rewrite <- Z.pow_add_r by lia; f_equal; lia).
  split; [done|]. split.
  { destruct m3 as [|p|p] eqn:Hp; [done| |lia].
    by rewrite (proj2 (Z.leb_le e3 (1024 - 53)))
      by (unfold fexp, emin in *; lia). }
  split; [lia|]. split; [done|]. split; [done|]. split.
  { intros Hpos. rewrite Hd3, He3'. f_equal.
    assert (e3 - e1 < Zdigits2 m2); [|lia].
    destruct (decide (e3 - e1 < Zdigits2 m2)) as [|Hge]; [done|].
    assert (m2 < 2 ^ (e3 - e1)) as Hsmall by (apply Zdigits2_le; lia).
    rewrite Z.div_small in Hm3 by lia. lia. }
  rewrite Hpow. split; [nia|]. split; [nia|].
  replace (K - ex) with ((K - e3) + ((e3 - e1) + (e1 - ex))) by lia.
  rewrite !Z.pow_add_r by lia.
  pose proof (Z.pow_pos_nonneg 2 (K - e3) ltac:(lia) ltac:(lia)) as HC3.
  assert (m3 <= 2 ^ (K - e3)).
  { replace (K - e1) with ((K - e3) + (e3 - e1)) in Hcap1 by lia.
    rewrite Z.pow_add_r in Hcap1 by lia. nia. }
  nia.
Qed.

(** *** Powers of two *)

Lemma bpow_pos e : (0 < bpow e)%Q.
Proof. apply Qpower_0_lt. reflexivity. Qed.

Lemma bpow_add a b : (bpow (a + b) == bpow a * bpow b)%Q.
Proof. apply Qpower_plus. discriminate. Qed.

Lemma bpow_inject k : 0 <= k -> (bpow k == inject_Z (2 ^ k))%Q.
Proof. intros Hk. symmetry. by apply Zpower_Qpower. Qed.

Lemma bpow_le a b : a <= b -> (bpow a <= bpow b)%Q.
Proof. intros H. apply Qpower_le_compat_l; [done|]. discriminate. Qed.

Lemma bpow_lt a b : a < b -> (bpow a < bpow b)%Q.
Proof. intros H. apply Qpower_lt_compat_l; [done|]. reflexivity. Qed.

Lemma scaled_le a b k ex :
  0 <= k -> a * 2 ^ k <= b ->
  (inject_Z a * bpow (ex + k) <= inject_Z b * bpow ex)%Q.
Proof.
  intros Hk Hle. rewrite bpow_add, (bpow_inject k Hk).
  rewrite (Qmult_comm (bpow ex)), Qmult_assoc, <- inject_Z_mult.
  apply Qmult_le_compat_r; [by rewrite <- Zle_Qle|].
  apply Qlt_le_weak, bpow_pos.
Qed.

Lemma scaled_ge a b k ex :
  0 <= k -> b <= a * 2 ^ k ->
  (inject_Z b * bpow ex <= inject_Z a * bpow (ex + k))%Q.
Proof.
  intros Hk Hle. rewrite bpow_add, (bpow_inject k Hk).
  rewrite (Qmult_comm (bpow ex)), Qmult_assoc, <- inject_Z_mult.
  apply Qmult_le_compat_r; [by rewrite <- Zle_Qle|].
  apply Qlt_le_weak, bpow_pos.
Qed.

Lemma digits_of_Qlt m e K :
  0 < m -> (inject_Z m * bpow e < bpow K)%Q -> Zdigits2 m + e <= K.
Proof.
  intros Hm Hlt. destruct (decide (e <= K)) as [Hle|Hgt].
  - enough (Zdigits2 m <= K - e) by lia.
    apply Zdigits2_le; [lia|lia|].
    rewrite Zlt_Qlt, <- bpow_inject by lia.
    replace K with ((K - e) + e) in Hlt at 1 by lia.
    rewrite bpow_add in Hlt.
    by apply Qmult_lt_r in Hlt; [|apply bpow_pos].
  - exfalso. pose proof (bpow_le K e ltac:(lia)) as H1.
    pose proof (bpow_pos e) as H2.
    assert (1 <= inject_Z m)%Q as H3.
    { change 1%Q with (inject_Z 1). rewrite <- Zle_Qle. lia. }
    assert (bpow e <= inject_Z m * bpow e)%Q; [|lra].
    rewrite <- (Qmult_1_l (bpow e)) at 1.
    apply Qmult_le_compat_r; [done|lra].
Qed.

Lemma F2Q_finite s m e :
  (F2Q (S754_finite s m e) ==
   if s then - (inject_Z (Z.pos m) * bpow e) else inject_Z (Z.pos m) * bpow e)%Q.
Proof.
  unfold F2Q, cond_Zopp. destruct s; [|reflexivity].
  rewrite inject_Z_opp. ring.
Qed.

(** *** Rounding, in the rationals *)

Lemma binary_round_aux_Q s mx ex lx K (v : Q) :
  0 <= mx ->
  ex <= fexp 53 1024 (Zdigits2 mx + ex) ->
  Zdigits2 mx + ex <= K -> -1022 <= K -> K <= 1023 ->
  (inject_Z mx * bpow ex <= v)%Q -> (v <= inject_Z (mx + 1) * bpow ex)%Q ->
  ∃ a : Q,
    canonical (binary_round_aux 53 1024 s mx ex lx) ∧
    (F2Q (binary_round_aux 53 1024 s mx ex lx) == if s then - a else a)%Q ∧
    (0 <= a)%Q ∧ (a <= bpow K)%Q ∧
    (v - bpow (K - 52) <= a)%Q ∧ (a <= v + bpow (K - 52))%Q.
Proof.
  intros Hm HC HK HK0 HK1 Hlo Hhi.
  destruct (binary_round_aux_value s mx ex lx K Hm HC HK ltac:(lia) HK1)
    as (m & e & Hm0 & -> & Hex & HeK & HeK' & Hcan & Hl & Hu & Hcap).
  exists (inject_Z m * bpow e)%Q.
  pose proof (bpow_pos e) as Hpe.
  assert (bpow e <= bpow (K - 52))%Q as Hulp
    by (apply bpow_le; unfold fexp, emin in *; lia).
  pose proof (scaled_le (m - 1) mx (e - ex) ex ltac:(lia) Hl) as Hl'.
  pose proof (scaled_ge (m + 1) (mx + 1) (e - ex) ex ltac:(lia) Hu) as Hu'.
  replace (ex + (e - ex)) with e in Hl', Hu' by lia.
  unfold Z.sub in Hl'.
  rewrite (inject_Z_plus m) in Hl', Hu'. rewrite (inject_Z_plus mx) in Hu', Hhi.
  change (inject_Z 1) with 1%Q in Hhi.
  change (inject_Z (- (1))) with (- (1))%Q in Hl'.
  change (inject_Z 1) with 1%Q in Hu'.
  assert (0 <= inject_Z m)%Q as Hm0'
    by (change 0%Q with (inject_Z 0); by rewrite <- Zle_Qle).
  split_and!.
  - destruct m as [|p|p]; [done| |lia]. simpl. by apply Hcan.
  - destruct m as [|p|p]; [|apply F2Q_finite|lia].
    unfold F2Q. change (inject_Z 0) with 0%Q. destruct s; ring.
  - apply Qmult_le_0_compat; lra.
  - pose proof (scaled_le m (2 ^ (K - ex)) (e - ex) ex ltac:(lia) Hcap) as Hc.
    replace (ex + (e - ex)) with e in Hc by lia.
    rewrite <- bpow_inject, <- bpow_add in Hc by lia.
    by replace (K - ex + ex) with K in Hc by lia.
  - lra.
  - lra.
Qed.

Lemma scaled_eq a k ex :
  0 <= k -> (inject_Z (a * 2 ^ k) * bpow ex == inject_Z a * bpow (ex + k))%Q.
Proof.
  intros Hk. apply Qle_antisym.
  - by apply scaled_ge.
  - by apply scaled_le.
Qed.

Lemma inject_Z_cond_Zopp s a :
  (inject_Z (cond_Zopp s a) == if s then - inject_Z a else inject_Z a)%Q.
Proof. destruct s; simpl; [|reflexivity]. by rewrite inject_Z_opp. Qed.

Lemma binary_round_Q s m e K :
  -1022 <= K -> K <= 1023 ->
  (inject_Z (Z.pos m) * bpow e < bpow K)%Q ->
  ∃ a : Q,
    canonical (binary_round 53 1024 s m e) ∧
    (F2Q (binary_round 53 1024 s m e) == if s then - a else a)%Q ∧
    (0 <= a)%Q ∧ (a <= bpow K)%Q ∧
    (inject_Z (Z.pos m) * bpow e - bpow (K - 52) <= a)%Q ∧
    (a <= inject_Z (Z.pos m) * bpow e + bpow (K - 52))%Q.
Proof.
  intros HK0 HK1 Hlt. unfold binary_round.
  destruct (shl_align_spec m e (fexp 53 1024 (Z.pos (digits2_pos m) + e)))
    as (mz & ez & Hz & Hle & Hmin & Hmz).
  rewrite Hz. pose proof (shl_align_digits _ _ _ _ _ Hz) as [Hd _].
  pose proof (scaled_eq (Z.pos m) (e - ez) ez ltac:(lia)) as Heq.
  rewrite <- Hmz in Heq. replace (ez + (e - ez)) with e in Heq by lia.
  pose proof (bpow_pos ez) as Hp.
  apply binary_round_aux_Q.
  - lia.
  - change (Zdigits2 (Z.pos mz)) with (Z.pos (digits2_pos mz)). rewrite Hd. lia.
  - change (Zdigits2 (Z.pos mz)) with (Z.pos (digits2_pos mz)). rewrite Hd.
    by apply (digits_of_Qlt (Z.pos m)).
  - done.
  - done.
  - rewrite Heq. apply Qle_refl.
  - rewrite inject_Z_plus, <- Heq. change (inject_Z 1) with 1%Q. lra.
Qed.

(** [binary_normalize] of [n * 2 ^ e], below [2 ^ K] in magnitude: a
    canonical float within [2 ^ (K - 52)] of it, with its sign, and not
    above [2 ^ K] in magnitude. *)
Lemma binary_normalize_Q n e sz K :
  -1022 <= K -> K <= 1023 ->
  (- bpow K < inject_Z n * bpow e)%Q -> (inject_Z n * bpow e < bpow K)%Q ->
  let r := binary_normalize 53 1024 n e sz in
  canonical r ∧
  (inject_Z n * bpow e - bpow (K - 52) <= F2Q r)%Q ∧
  (F2Q r <= inject_Z n * bpow e + bpow (K - 52))%Q ∧
  (- bpow K <= F2Q r)%Q ∧ (F2Q r <= bpow K)%Q ∧
  (0 <= n -> (0 <= F2Q r)%Q) ∧ (n <= 0 -> (F2Q r <= 0)%Q).
Proof.
  intros HK0 HK1 Hlo Hhi. pose proof (bpow_pos K) as HpK.
  pose proof (bpow_pos (K - 52)) as Hpe.
  destruct n as [|m|m]; cbn [binary_normalize].
  - change (inject_Z 0) with 0%Q. cbn [canonical F2Q]. split_and!; try done; lra.
  - destruct (binary_round_Q false m e K HK0 HK1 Hhi)
      as (a & Hc & Ha & Ha0 & HaK & Hal & Hau).
    cbv zeta. rewrite Ha. split_and!; try done; try lra; try lia.
  - change (Z.neg m) with (- Z.pos m) in *. rewrite inject_Z_opp in *.
    destruct (binary_round_Q true m e K HK0 HK1 ltac:(lra))
      as (a & Hc & Ha & Ha0 & HaK & Hal & Hau).
    cbv zeta. rewrite Ha. split_and!; try done; try lra; try lia.
Qed.

(** *** The operations, in the rationals *)

Lemma aligned_Q s m e ez :
  ez <= e ->
  (inject_Z (cond_Zopp s (Z.pos (shl_align m e ez).1)) * bpow ez ==
   F2Q (S754_finite s m e))%Q.
Proof.
  intros Hle. destruct (shl_align_spec m e ez) as (mz & ez' & Hz & _ & Hmin & Hmz).
  rewrite Hz. cbn [fst]. replace ez' with ez in * by lia.
  pose proof (scaled_eq (Z.pos m) (e - ez) ez ltac:(lia)) as Heq.
  replace (ez + (e - ez)) with e in Heq by lia. rewrite <- Hmz in Heq.
  rewrite F2Q_finite, inject_Z_cond_Zopp. destruct s; rewrite <- Heq; ring.
Qed.

Lemma fadd_Q x y K :
  canonical x -> canonical y -> -1022 <= K -> K <= 1023 ->
  (- bpow K < F2Q x + F2Q y)%Q -> (F2Q x + F2Q y < bpow K)%Q ->
  canonical (fadd x y) ∧
  (F2Q x + F2Q y - bpow (K - 52) <= F2Q (fadd x y))%Q ∧
  (F2Q (fadd x y) <= F2Q x + F2Q y + bpow (K - 52))%Q ∧
  ((0 <= F2Q x + F2Q y)%Q -> (0 <= F2Q (fadd x y))%Q).
Proof.
  intros Hx Hy HK0 HK1 Hlo Hhi. pose proof (bpow_pos (K - 52)) as Hpe.
  destruct x as [sx|sx| |sx mx ex], y as [sy|sy| |sy my ey]; try done.
  - unfold fadd, SFadd. cbn [F2Q] in *.
    split; [by destruct sx, sy|]. destruct sx, sy; cbn [F2Q]; lra.
  - unfold fadd, SFadd. cbn [F2Q] in *. split; [done|]. lra.
  - unfold fadd, SFadd. cbn [F2Q] in *. split; [done|]. lra.
  - unfold fadd, SFadd. cbv zeta.
    set (ez := Z.min ex ey).
    pose proof (aligned_Q sx mx ex ez ltac:(lia)) as H1.
    pose proof (aligned_Q sy my ey ez ltac:(lia)) as H2.
    set (u := cond_Zopp sx _) in *. set (v := cond_Zopp sy _) in *.
    assert (inject_Z (u + v) * bpow ez ==
            F2Q (S754_finite sx mx ex) + F2Q (S754_finite sy my ey))%Q as Hs.
    { rewrite inject_Z_plus, <- H1, <- H2. ring. }
    destruct (binary_normalize_Q (u + v) ez false K HK0 HK1)
      as (Hc & Hl & Hu & _ & _ & Hp & _); [by rewrite Hs..|].
    rewrite Hs in Hl, Hu. split_and!; try done.
    intros Hnn. apply Hp. rewrite <- Hs in Hnn.
    destruct (decide (0 <= u + v)) as [|Hneg]; [done|]. exfalso.
    assert (inject_Z (u + v) <= - (1))%Q as Hle.
    { change (- (1))%Q with (inject_Z (-1)). rewrite <- Zle_Qle. lia. }
    pose proof (bpow_pos ez) as Hpz.
    assert (inject_Z (u + v) * bpow ez <= - (1) * bpow ez)%Q
      by (apply Qmult_le_compat_r; [done|lra]).
    lra.
Qed.

Lemma fsub_Q x y K :
  canonical x -> canonical y -> -1022 <= K -> K <= 1023 ->
  (- bpow K < F2Q x - F2Q y)%Q -> (F2Q x - F2Q y < bpow K)%Q ->
  canonical (fsub x y) ∧
  (F2Q x - F2Q y - bpow (K - 52) <= F2Q (fsub x y))%Q ∧
  (F2Q (fsub x y) <= F2Q x - F2Q y + bpow (K - 52))%Q.
Proof.
  intros Hx Hy HK0 HK1 Hlo Hhi. pose proof (bpow_pos (K - 52)) as Hpe.
  destruct x as [sx|sx| |sx mx ex], y as [sy|sy| |sy my ey]; try done.
  - unfold fsub, SFsub. cbn [F2Q] in *.
    split; [by destruct sx, sy|]. destruct sx, sy; cbn [F2Q]; lra.
  - unfold fsub, SFsub. split; [done|].
    rewrite !F2Q_finite in *. cbn [F2Q] in *. destruct sy; cbn [negb]; lra.
  - unfold fsub, SFsub. cbn [F2Q] in *. split; [done|]. lra.
  - unfold fsub, SFsub. cbv zeta.
    set (ez := Z.min ex ey).
    pose proof (aligned_Q sx mx ex ez ltac:(lia)) as H1.
    pose proof (aligned_Q sy my ey ez ltac:(lia)) as H2.
    set (u := cond_Zopp sx _) in *. set (v := cond_Zopp sy _) in *.
    assert (inject_Z (u - v) * bpow ez ==
            F2Q (S754_finite sx mx ex) - F2Q (S754_finite sy my ey))%Q as Hs.
    { unfold Z.sub. rewrite inject_Z_plus, inject_Z_opp, <- H1, <- H2. ring. }
    destruct (binary_normalize_Q (u - v) ez false K HK0 HK1)
      as (Hc & Hl & Hu & _); [by rewrite Hs..|].
    rewrite Hs in Hl, Hu. by split_and!.
Qed.

Lemma canonical_digits s m e :
  canonical (S754_finite s m e) ->
  Z.pos (digits2_pos m) <= 53 ∧ -1074 <= e ∧
  (-1074 < e -> Z.pos (digits2_pos m) = 53).
Proof. unfold canonical, fexp, emin. lia. Qed.

Lemma fmul_Q x y K :
  canonical x -> canonical y -> -1022 <= K -> K <= 1023 ->
  (- bpow K < F2Q x * F2Q y)%Q -> (F2Q x * F2Q y < bpow K)%Q ->
  canonical (fmul x y) ∧
  (F2Q x * F2Q y - bpow (K - 52) <= F2Q (fmul x y))%Q ∧
  (F2Q (fmul x y) <= F2Q x * F2Q y + bpow (K - 52))%Q.
Proof.
  intros Hx Hy HK0 HK1 Hlo Hhi. pose proof (bpow_pos (K - 52)) as Hpe.
  destruct x as [sx|sx| |sx mx ex], y as [sy|sy| |sy my ey]; try done.
  - unfold fmul, SFmul. cbn [F2Q canonical] in *. split; [done|]. lra.
  - unfold fmul, SFmul. cbn [F2Q canonical] in *. split; [done|]. lra.
  - unfold fmul, SFmul. cbn [F2Q canonical] in *. split; [done|]. lra.
  - unfold fmul, SFmul.
    assert (inject_Z (Z.pos (mx * my)) * bpow (ex + ey) ==
            (inject_Z (Z.pos mx) * bpow ex) * (inject_Z (Z.pos my) * bpow ey))%Q
      as Hv.
    { rewrite Pos2Z.inj_mul, inject_Z_mult, bpow_add. ring. }
    assert (F2Q (S754_finite sx mx ex) * F2Q (S754_finite sy my ey) ==
            if xorb sx sy then - (inject_Z (Z.pos (mx * my)) * bpow (ex + ey))
            else inject_Z (Z.pos (mx * my)) * bpow (ex + ey))%Q as Hs.
    { rewrite !F2Q_finite. destruct sx, sy; cbn [xorb]; rewrite Hv; ring. }
    rewrite Hs in *.
    apply canonical_digits in Hx as (Hdx & Hex & Hnx).
    apply canonical_digits in Hy as (Hdy & Hey & Hny).
    assert (Z.pos (digits2_pos mx) + Z.pos (digits2_pos my) - 1 <=
            Zdigits2 (Z.pos (mx * my))) as Hd.
    { rewrite Pos2Z.inj_mul.
      pose proof (Zdigits2_lower (Z.pos mx) ltac:(lia)) as H1.
      pose proof (Zdigits2_lower (Z.pos my) ltac:(lia)) as H2.
      pose proof (Zdigits2_pos (Z.pos mx) ltac:(lia)) as H3.
      pose proof (Zdigits2_pos (Z.pos my) ltac:(lia)) as H4.
      change (Z.pos (digits2_pos mx)) with (Zdigits2 (Z.pos mx)).
      change (Z.pos (digits2_pos my)) with (Zdigits2 (Z.pos my)).
      enough (Zdigits2 (Z.pos mx) + Zdigits2 (Z.pos my) - 2 <
              Zdigits2 (Z.pos mx * Z.pos my)) by lia.
      apply Zdigits2_gt; [lia|lia|].
      replace (Zdigits2 (Z.pos mx) + Zdigits2 (Z.pos my) - 2)
        with ((Zdigits2 (Z.pos mx) - 1) + (Zdigits2 (Z.pos my) - 1)) by lia.
      rewrite Z.pow_add_r by lia.
      pose proof (Z.pow_pos_nonneg 2 (Zdigits2 (Z.pos mx) - 1) ltac:(lia) ltac:(lia)).
      pose proof (Z.pow_pos_nonneg 2 (Zdigits2 (Z.pos my) - 1) ltac:(lia) ltac:(lia)).
      nia. }
    pose proof (Zdigits2_pos (Z.pos mx) ltac:(lia)) as Hpx.
    pose proof (Zdigits2_pos (Z.pos my) ltac:(lia)) as Hpy.
    change (Zdigits2 (Z.pos mx)) with (Z.pos (digits2_pos mx)) in Hpx.
    change (Zdigits2 (Z.pos my)) with (Z.pos (digits2_pos my)) in Hpy.
    destruct (binary_round_aux_Q (xorb sx sy) (Z.pos (mx * my)) (ex + ey)
                loc_Exact K (inject_Z (Z.pos (mx * my)) * bpow (ex + ey)))
      as (a & Hc & Ha & Ha0 & HaK & Hal & Hau).
    + lia.
    + unfold fexp, emin. lia.
    + apply digits_of_Qlt; [lia|]. destruct (xorb sx sy); lra.
    + done.
    + done.
    + apply Qle_refl.
    + rewrite inject_Z_plus. change (inject_Z 1) with 1%Q.
      pose proof (bpow_pos (ex + ey)). lra.
    + rewrite Ha. split; [done|]. destruct (xorb sx sy); lra.
Qed.

(** *** Comparisons *)

Lemma magnitude_pos m e : (0 < inject_Z (Z.pos m) * bpow e)%Q.
Proof.
  apply Qmult_lt_0_compat; [|apply bpow_pos].
  change 0%Q with (inject_Z 0). by rewrite <- Zlt_Qlt.
Qed.

Lemma canonical_exp_lt s1 m1 e1 s2 m2 e2 :
  canonical (S754_finite s1 m1 e1) -> canonical (S754_finite s2 m2 e2) ->
  e1 < e2 ->
  (inject_Z (Z.pos m1) * bpow e1 < inject_Z (Z.pos m2) * bpow e2)%Q.
Proof.
  intros (Hd1 & He1 & _)%canonical_digits (Hd2 & He2 & Hn2)%canonical_digits Hlt.
  specialize (Hn2 ltac:(lia)).
  assert (Z.pos m1 < 2 ^ 53) as H1.
  { apply Zdigits2_le; [lia|lia|]. simpl. lia. }
  assert (2 ^ 52 <= Z.pos m2) as H2.
  { apply Zdigits2_gt; [lia|lia|]. simpl. lia. }
  pose proof (scaled_ge 1 (Z.pos m1) 53 e1 ltac:(lia) ltac:(lia)) as H3.
  pose proof (scaled_le 1 (Z.pos m2) 52 e2 ltac:(lia) ltac:(lia)) as H4.
  pose proof (bpow_le (e1 + 53) (e2 + 52) ltac:(lia)) as H5.
  change (inject_Z 1) with 1%Q in *.
  assert (inject_Z (Z.pos m1) * bpow e1 < 1 * bpow (e1 + 53))%Q as H6.
  { rewrite bpow_add, (bpow_inject 53) by lia.
    rewrite Qmult_1_l, (Qmult_comm (bpow e1)).
    apply Qmult_lt_compat_r; [apply bpow_pos|]. by rewrite <- Zlt_Qlt. }
  lra.
Qed.

Lemma same_exp_lt m1 m2 e :
  (m1 < m2)%positive ->
  (inject_Z (Z.pos m1) * bpow e < inject_Z (Z.pos m2) * bpow e)%Q.
Proof.
  intros Hlt. apply Qmult_lt_compat_r; [apply bpow_pos|].
  rewrite <- Zlt_Qlt. lia.
Qed.

Lemma Qcompare_Lt p q : (p < q)%Q -> (p ?= q)%Q = Lt.
Proof. intros H. exact H. Qed.

Lemma Qcompare_Gt p q : (q < p)%Q -> (p ?= q)%Q = Gt.
Proof. intros H. by apply Qgt_alt. Qed.

Lemma Qcompare_Eq p q : (p == q)%Q -> (p ?= q)%Q = Eq.
Proof. intros H. by apply Qeq_alt. Qed.

Lemma magnitude_compare s1 m1 e1 s2 m2 e2 :
  canonical (S754_finite s1 m1 e1) -> canonical (S754_finite s2 m2 e2) ->
  match (e1 ?= e2)%Z with
  | Eq => Pos.compare_cont Eq m1 m2
  | Lt => Lt
  | Gt => Gt
  end = (inject_Z (Z.pos m1) * bpow e1 ?= inject_Z (Z.pos m2) * bpow e2)%Q.
Proof.
  intros H1 H2. symmetry. destruct (Z.compare_spec e1 e2) as [->|Hlt|Hgt].
  - change (Pos.compare_cont Eq m1 m2) with (m1 ?= m2)%positive.
    destruct (Pos.compare_spec m1 m2) as [->|Hlt|Hgt].
    + by apply Qcompare_Eq.
    + by apply Qcompare_Lt, same_exp_lt.
    + by apply Qcompare_Gt, same_exp_lt.
  - by eapply Qcompare_Lt, canonical_exp_lt.
  - by eapply Qcompare_Gt, canonical_exp_lt.
Qed.

Lemma Qcompare_opp a b : ((- a ?= - b) = CompOpp (a ?= b))%Q.
Proof.
  destruct (a ?= b)%Q eqn:E; cbn [CompOpp].
  - apply Qcompare_Eq. apply Qeq_alt in E. lra.
  - apply Qcompare_Gt. apply Qlt_alt in E. lra.
  - apply Qcompare_Lt. apply Qgt_alt in E. lra.
Qed.

(** The comparison of two canonical floats is the comparison of their
    values. *)
Lemma SFcompare_Q x y :
  canonical x -> canonical y -> SFcompare x y = Some (F2Q x ?= F2Q y)%Q.
Proof.
  intros Hx Hy.
  destruct x as [sx|sx| |sx mx ex], y as [sy|sy| |sy my ey]; try done.
  - pose proof (magnitude_pos my ey) as Hp. simpl SFcompare. f_equal. symmetry.
    destruct sy; [apply Qcompare_Gt|apply Qcompare_Lt]; rewrite F2Q_finite;
      cbn [F2Q]; lra.
  - pose proof (magnitude_pos mx ex) as Hp. simpl SFcompare. f_equal. symmetry.
    destruct sx; [apply Qcompare_Lt|apply Qcompare_Gt]; rewrite F2Q_finite;
      cbn [F2Q]; lra.
  - pose proof (magnitude_pos mx ex) as Hpx.
    pose proof (magnitude_pos my ey) as Hpy.
    pose proof (magnitude_compare sx mx ex sy my ey Hx Hy) as Hc.
    cbn [SFcompare]. f_equal.
    destruct sx, sy.
    + rewrite (Qcompare_comp _ _ (F2Q_finite true mx ex) _ _ (F2Q_finite true my ey)).
      rewrite Qcompare_opp, <- Hc. by destruct (ex ?= ey).
    + symmetry. apply Qcompare_Lt. rewrite !F2Q_finite. lra.
    + symmetry. apply Qcompare_Gt. rewrite !F2Q_finite. lra.
    + by rewrite (Qcompare_comp _ _ (F2Q_finite false mx ex) _ _
                    (F2Q_finite false my ey)).
Qed.

Lemma fltb_Q x y :
  canonical x -> canonical y ->
  if fltb x y then (F2Q x < F2Q y)%Q else (F2Q y <= F2Q x)%Q.
Proof.
  intros Hx Hy. unfold fltb, SFltb. rewrite (SFcompare_Q x y Hx Hy).
  destruct (F2Q x ?= F2Q y)%Q eqn:E.
  - apply Qeq_alt in E. lra.
  - by apply Qlt_alt in E.
  - apply Qgt_alt in E. lra.
Qed.

Lemma fleb_Q x y :
  canonical x -> canonical y ->
  if fleb x y then (F2Q x <= F2Q y)%Q else (F2Q y < F2Q x)%Q.
Proof.
  intros Hx Hy. unfold fleb, SFleb. rewrite (SFcompare_Q x y Hx Hy).
  destruct (F2Q x ?= F2Q y)%Q eqn:E.
  - apply Qeq_alt in E. lra.
  - apply Qlt_alt in E. lra.
  - by apply Qgt_alt in E.
Qed.

(** *** The constants *)

Lemma float_lit_1_Q : canonical (float_lit 1) ∧ (F2Q (float_lit 1) == 1)%Q.
Proof. by vm_compute. Qed.

Lemma float_lit_2_Q : canonical (float_lit 2) ∧ (F2Q (float_lit 2) == 2)%Q.
Proof. by vm_compute. Qed.

Lemma float_lit_6_Q : canonical (float_lit 6) ∧ (F2Q (float_lit 6) == 6)%Q.
Proof. by vm_compute. Qed.

Lemma float_lit_255_Q : canonical (float_lit 255) ∧ (F2Q (float_lit 255) == 255)%Q.
Proof. by vm_compute. Qed.

Lemma float_half_Q : canonical float_half ∧ (F2Q float_half == 1 # 2)%Q.
Proof. by vm_compute. Qed.

Lemma ONE_SIXTH_Q : canonical ONE_SIXTH ∧ (F2Q ONE_SIXTH <= 1 # 6)%Q.
Proof. split; [by vm_compute|]. vm_compute. discriminate. Qed.

Lemma TWO_THIRD_Q :
  canonical TWO_THIRD ∧ (F2Q TWO_THIRD <= 2 # 3)%Q ∧ (1 # 2 <= F2Q TWO_THIRD)%Q.
Proof. split; [by vm_compute|]. split; vm_compute; discriminate. Qed.

(** *** The fractional part *)

Lemma fmod_1_Q k E x :
  finite_below k E x -> canonical (fmod_1 x) ∧ (0 <= F2Q (fmod_1 x))%Q.
Proof.
  destruct x as [s|s| |s m e]; [by split|done|done|].
  intros _. unfold fmod_1.
  set (r := if 0 <=? e then 0 else Z.pos m mod 2 ^ (- e)).
  destruct (r =? 0) eqn:Hr; [by split|]. apply Z.eqb_neq in Hr.
  assert (e < 0 ∧ 0 < r < 2 ^ (- e)) as [He Hlt].
  { unfold r in *. destruct (0 <=? e) eqn:He0; [done|]. apply Z.leb_gt in He0.
    pose proof (Z.mod_pos_bound (Z.pos m) (2 ^ (- e))
                  ltac:(apply Z.pow_pos_nonneg; lia)). lia. }
  assert (0 < inject_Z r * bpow e < 1)%Q as Hv.
  { pose proof (bpow_pos e) as Hp. split.
    - apply Qmult_lt_0_compat; [|done].
      change 0%Q with (inject_Z 0). rewrite <- Zlt_Qlt. lia.
    - assert (inject_Z r * bpow e < inject_Z (2 ^ (- e)) * bpow e)%Q as H
        by (apply Qmult_lt_compat_r; [done|rewrite <- Zlt_Qlt; lia]).
      rewrite <- bpow_inject, <- bpow_add in H by lia.
      by replace (- e + e) with 0 in H by lia. }
  change (bpow 0) with 1%Q in *.
  destruct s.
  - destruct (binary_normalize_Q (- r) e false 0 ltac:(lia) ltac:(lia))
      as (Hc & _ & _ & Hlo & _ & _ & Hneg).
    { rewrite inject_Z_opp. change (bpow 0) with 1%Q. lra. }
    { rewrite inject_Z_opp. change (bpow 0) with 1%Q. lra. }
    specialize (Hneg ltac:(lia)). change (bpow 0) with 1%Q in Hlo.
    destruct float_lit_1_Q as [Hc1 H1].
    destruct (fadd_Q _ (float_lit 1) 1 Hc Hc1 ltac:(lia) ltac:(lia))
      as (Hc' & _ & _ & Hnn).
    { rewrite H1. change (bpow 1) with 2%Q. lra. }
    { rewrite H1. change (bpow 1) with 2%Q. lra. }
    split; [done|]. apply Hnn. rewrite H1. lra.
  - destruct (binary_normalize_Q r e false 0 ltac:(lia) ltac:(lia))
      as (Hc & _ & _ & _ & _ & Hnn & _).
    { change (bpow 0) with 1%Q. lra. }
    { change (bpow 0) with 1%Q. lra. }
    split; [done|]. apply Hnn. lia.
Qed.

(** *** The conversion to [int] *)

Lemma int_of_float_Q x :
  canonical x -> (- (1) < F2Q x)%Q -> (F2Q x < 256)%Q ->
  ∃ n, int_of_float x = Ok n ∧ 0 <= n <= 255.
Proof.
  intros Hx Hlo Hhi. destruct x as [s|s| |s m e]; try done.
  - exists 0. split; [done|lia].
  - rewrite F2Q_finite in Hlo, Hhi. pose proof (magnitude_pos m e) as Hp.
    unfold int_of_float. eexists. split; [reflexivity|].
    destruct (0 <=? e) eqn:He.
    + apply Z.leb_le in He.
      pose proof (scaled_eq (Z.pos m) e 0 He) as Heq.
      change (bpow 0) with 1%Q in Heq. rewrite Z.add_0_l, Qmult_1_r in Heq.
      pose proof (Z.pow_pos_nonneg 2 e ltac:(lia) He) as Hpow.
      destruct s; rewrite <- Heq in Hlo, Hhi.
      * exfalso. assert (1 <= inject_Z (Z.pos m * 2 ^ e))%Q; [|lra].
        change 1%Q with (inject_Z 1). rewrite <- Zle_Qle. nia.
      * change 256%Q with (inject_Z 256) in Hhi. rewrite <- Zlt_Qlt in Hhi. nia.
    + apply Z.leb_gt in He.
      destruct (div_pow2_bounds (Z.pos m) (- e) ltac:(lia) ltac:(lia))
        as (Hn0 & Hnl & Hnu).
      set (n := Z.pos m / 2 ^ (- e)) in *.
      pose proof (scaled_le n (Z.pos m) (- e) e ltac:(lia) Hnl) as Hle.
      replace (e + - e) with 0 in Hle by lia.
      change (bpow 0) with 1%Q in Hle. rewrite Qmult_1_r in Hle.
      destruct s.
      * assert (inject_Z n < inject_Z 1)%Q as H1
          by (change (inject_Z 1) with 1%Q; lra).
        rewrite <- Zlt_Qlt in H1. lia.
      * assert (inject_Z n < inject_Z 256)%Q as H1
          by (change (inject_Z 256) with 256%Q; lra).
        rewrite <- Zlt_Qlt in H1. lia.
Qed.

(** *** The ratio of two counts *)

Lemma int_truediv_Q a b :
  0 <= a <= b -> 0 < b ->
  ∃ y, int_truediv a b = Ok y ∧ canonical y ∧
       (0 <= F2Q y)%Q ∧ (F2Q y <= 1 + bpow (-51))%Q.
Proof.
  intros Ha Hb. pose proof (bpow_pos (-51)) as Hp51.
  destruct b as [|b|b]; [lia| |lia].
  destruct a as [|a|a]; [| |lia].
  { eexists. split; [reflexivity|]. cbn [canonical F2Q]. split; [done|]. lra. }
  change (int_truediv (Z.pos a) (Z.pos b))
    with (let x := fdiv (S754_finite false a 0) (S754_finite false b 0) in
          if is_infinity x then Raise OverflowError else Ok x).
  enough (canonical (fdiv (S754_finite false a 0) (S754_finite false b 0)) ∧
          (0 <= F2Q (fdiv (S754_finite false a 0) (S754_finite false b 0)))%Q ∧
          (F2Q (fdiv (S754_finite false a 0) (S754_finite false b 0))
           <= 1 + bpow (-51))%Q) as (Hc & H0 & H1).
  { cbv zeta. destruct (fdiv _ _); try done; simpl; by eexists. }
  unfold fdiv, SFdiv, SFdiv_core_binary.
  set (d1 := Zdigits2 (Z.pos a)). set (d2 := Zdigits2 (Z.pos b)).
  set (e' := Z.min _ _).
  assert (e' <= 0) as He' by (unfold e'; lia).
  assert (e' <= fexp 53 1024 (d1 - d2)) as Hfe.
  { unfold e'. replace (d1 + 0 - (d2 + 0)) with (d1 - d2) by lia. lia. }
  set (m' := match 0 - 0 - e' with
             | 0 => Z.pos a
             | Z.pos _ => Z.shiftl (Z.pos a) (0 - 0 - e')
             | Z.neg _ => 0
             end).
  assert (m' = Z.pos a * 2 ^ (- e')) as Hm'.
  { unfold m'. replace (0 - 0 - e') with (- e') by lia.
    destruct (- e') as [|s|s] eqn:Hs; [simpl; lia| |lia].
    by rewrite Z.shiftl_mul_pow2. }
  pose proof (Z.pow_pos_nonneg 2 (- e') ltac:(lia) ltac:(lia)) as Hpow.
  assert (Z.div_eucl m' (Z.pos b) = (m' / Z.pos b, m' mod Z.pos b)) as Hq.
  { unfold Z.div, Z.modulo. by destruct (Z.div_eucl m' (Z.pos b)). }
  rewrite Hq. set (q := m' / Z.pos b).
  assert (0 <= q) as Hq0 by (apply Z.div_pos; nia).
  assert (q <= 2 ^ (- e')) as Hq1.
  { apply Z.div_le_upper_bound; [lia|]. nia. }
  assert (d1 - d2 - e' <= Zdigits2 q) as Hdq.
  { pose proof (Zdigits2_nonneg q) as Hn.
    destruct (decide (d1 - d2 - e' <= 0)) as [|Hgt]; [lia|].
    pose proof (Zdigits2_lower (Z.pos a) ltac:(lia)) as Hla.
    pose proof (Zdigits2_bound (Z.pos b) ltac:(lia)) as Hub.
    pose proof (Zdigits2_pos (Z.pos a) ltac:(lia)) as Hpa.
    pose proof (Zdigits2_pos (Z.pos b) ltac:(lia)) as Hpb.
    fold d1 in Hla, Hpa. fold d2 in Hub, Hpb.
    assert (2 ^ (d1 - d2 - e' - 1) <= q) as Hlow.
    { apply Z.div_le_lower_bound; [lia|].
      assert (2 ^ (d1 - d2 - e' - 1) * 2 ^ d2 = 2 ^ (d1 - 1) * 2 ^ (- e')) as E.
      { rewrite <- !Z.pow_add_r by lia. f_equal. lia. }
      pose proof (Z.pow_pos_nonneg 2 (d1 - d2 - e' - 1) ltac:(lia) ltac:(lia)).
      nia. }
    pose proof (Z.pow_pos_nonneg 2 (d1 - d2 - e' - 1) ltac:(lia) ltac:(lia)).
    enough (d1 - d2 - e' - 1 < Zdigits2 q) by lia.
    apply Zdigits2_gt; [lia|lia|done]. }
  destruct (binary_round_aux_Q (xorb false false) q e'
              (new_location (Z.pos b) (m' mod Z.pos b)) 1
              (inject_Z q * bpow e'))
    as (v & Hc & Hv & Hv0 & _ & _ & Hvu).
  - done.
  - unfold fexp, emin in *. lia.
  - enough (Zdigits2 q <= - e' + 1) by lia.
    apply Zdigits2_le; [done|lia|]. rewrite Z.pow_add_r by lia.
    change (2 ^ 1) with 2. lia.
  - lia.
  - lia.
  - apply Qle_refl.
  - rewrite inject_Z_plus. change (inject_Z 1) with 1%Q.
    pose proof (bpow_pos e'). lra.
  - cbn [xorb] in *. cbv beta iota. split; [done|]. rewrite Hv.
    split; [done|].
    pose proof (scaled_ge 1 q (- e') e' ltac:(lia) ltac:(lia)) as Hle.
    replace (e' + - e') with 0 in Hle by lia.
    change (inject_Z 1 * bpow 0)%Q with (1 * 1)%Q in Hle.
    change (1 - 52) with (-51) in Hvu. lra.
Qed.

(** *** The channels of a colour *)

Lemma eps_pos : (0 < eps)%Q.
Proof. apply bpow_pos. Qed.

Lemma eps_small : (eps <= 1 # 1000000)%Q.
Proof. vm_compute. discriminate. Qed.

Lemma Qmult_bound (x y X Y : Q) :
  (- X <= x)%Q -> (x <= X)%Q -> (- Y <= y)%Q -> (y <= Y)%Q ->
  (- (X * Y) <= x * y)%Q ∧ (x * y <= X * Y)%Q.
Proof.
  intros H1 H2 H3 H4.
  assert (0 <= (X - x) * (Y - y))%Q by (apply Qmult_le_0_compat; lra).
  assert (0 <= (X + x) * (Y + y))%Q by (apply Qmult_le_0_compat; lra).
  assert (0 <= (X - x) * (Y + y))%Q by (apply Qmult_le_0_compat; lra).
  assert (0 <= (X + x) * (Y - y))%Q by (apply Qmult_le_0_compat; lra).
  split; lra.
Qed.

(** A mix [m1 + (m2 - m1) * t * 6] of two values, computed with errors of at
    most [d], for [t] between 0 and 1/6 up to [d]: between the two values
    up to [64 * d]. *)
Lemma mix_Q (M1 M2 t D P V R lo hi d : Q) :
  (0 <= d)%Q -> (d <= 1 # 100)%Q -> (- (1) <= lo)%Q -> (hi <= 2)%Q ->
  (lo <= M1)%Q -> (M1 <= hi)%Q -> (lo <= M2)%Q -> (M2 <= hi)%Q ->
  (- d <= t)%Q -> (t <= (1 # 6) + d)%Q ->
  (M2 - M1 - d <= D)%Q -> (D <= M2 - M1 + d)%Q ->
  (D * t - d <= P)%Q -> (P <= D * t + d)%Q ->
  (P * 6 - d <= V)%Q -> (V <= P * 6 + d)%Q ->
  (M1 + V - d <= R)%Q -> (R <= M1 + V + d)%Q ->
  (lo - 64 * d <= R)%Q ∧ (R <= hi + 64 * d)%Q.
Proof.
  intros Hd0 Hd1 Hlo Hhi H1l H1u H2l H2u Htl Htu HDl HDu HPl HPu HVl HVu HRl HRu.
  set (e := (D - (M2 - M1))%Q).
  assert (0 <= (d - e) * (1 + t))%Q by (apply Qmult_le_0_compat; unfold e; lra).
  assert (0 <= (d + e) * (1 - t))%Q by (apply Qmult_le_0_compat; unfold e; lra).
  assert (0 <= (d - e) * (1 - t))%Q by (apply Qmult_le_0_compat; unfold e; lra).
  assert (0 <= (d + e) * (1 + t))%Q by (apply Qmult_le_0_compat; unfold e; lra).
  assert (0 <= (1 - 6 * t + 6 * d) * (hi - M1))%Q by (apply Qmult_le_0_compat; lra).
  assert (0 <= (6 * t + 6 * d) * (hi - M2))%Q by (apply Qmult_le_0_compat; lra).
  assert (0 <= d * (3 - (hi - M1)))%Q by (apply Qmult_le_0_compat; lra).
  assert (0 <= d * (3 - (hi - M2)))%Q by (apply Qmult_le_0_compat; lra).
  assert (0 <= (1 - 6 * t + 6 * d) * (M1 - lo))%Q by (apply Qmult_le_0_compat; lra).
  assert (0 <= (6 * t + 6 * d) * (M2 - lo))%Q by (apply Qmult_le_0_compat; lra).
  assert (0 <= d * (3 - (M1 - lo)))%Q by (apply Qmult_le_0_compat; lra).
  assert (0 <= d * (3 - (M2 - lo)))%Q by (apply Qmult_le_0_compat; lra).
  unfold e in *. split; lra.
Qed.

Lemma bpow_3 : (bpow 3 == 8)%Q.
Proof. reflexivity. Qed.

(** The mix as [colorsys._v] computes it. *)
Lemma mix_float (m1 m2 t : float) (lo hi : Q) :
  canonical m1 -> canonical m2 -> canonical t ->
  (- (1) <= lo)%Q -> (hi <= 2)%Q ->
  (lo <= F2Q m1)%Q -> (F2Q m1 <= hi)%Q ->
  (lo <= F2Q m2)%Q -> (F2Q m2 <= hi)%Q ->
  (- eps <= F2Q t)%Q -> (F2Q t <= (1 # 6) + eps)%Q ->
  let r := fadd m1 (fmul (fmul (fsub m2 m1) t) (float_lit 6)) in
  canonical r ∧ (lo - 64 * eps <= F2Q r)%Q ∧ (F2Q r <= hi + 64 * eps)%Q.
Proof.
  intros Hc1 Hc2 Hct Hlo Hhi H1l H1u H2l H2u Htl Htu.
  pose proof eps_pos as He0. pose proof eps_small as He1.
  destruct float_lit_6_Q as [Hc6 H6].
  destruct (fsub_Q m2 m1 3 Hc2 Hc1 ltac:(lia) ltac:(lia))
    as (Hcd & HDl & HDu); [rewrite bpow_3; lra..|].
  change (bpow (3 - 52)) with eps in HDl, HDu.
  set (d := fsub m2 m1) in *. clearbody d.
  destruct (Qmult_bound (F2Q d) (F2Q t) 4 (1 # 5)) as [Hpl Hpu]; [lra..|].
  destruct (fmul_Q d t 3 Hcd Hct ltac:(lia) ltac:(lia))
    as (Hcp & HPl & HPu); [rewrite bpow_3; lra..|].
  change (bpow (3 - 52)) with eps in HPl, HPu.
  set (p := fmul d t) in *. clearbody p.
  destruct (fmul_Q p (float_lit 6) 3 Hcp Hc6 ltac:(lia) ltac:(lia))
    as (Hcv & HVl & HVu); [rewrite bpow_3, H6; lra..|].
  change (bpow (3 - 52)) with eps in HVl, HVu. rewrite H6 in HVl, HVu.
  set (v := fmul p (float_lit 6)) in *. clearbody v.
  destruct (fadd_Q m1 v 3 Hc1 Hcv ltac:(lia) ltac:(lia))
    as (Hcr & HRl & HRu & _); [rewrite bpow_3; lra..|].
  change (bpow (3 - 52)) with eps in HRl, HRu.
  cbv zeta. split; [done|].
  apply (mix_Q (F2Q m1) (F2Q m2) (F2Q t) (F2Q d) (F2Q p) (F2Q v)); lra.
Qed.

Lemma _v_Q (m1 m2 hue : float) (k E : Z) (lo hi : Q) :
  canonical m1 -> canonical m2 -> finite_below k E hue ->
  (- (1) <= lo)%Q -> (hi <= 2)%Q ->
  (lo <= F2Q m1)%Q -> (F2Q m1 <= hi)%Q ->
  (lo <= F2Q m2)%Q -> (F2Q m2 <= hi)%Q ->
  canonical (_v m1 m2 hue) ∧
  (lo - 64 * eps <= F2Q (_v m1 m2 hue))%Q ∧
  (F2Q (_v m1 m2 hue) <= hi + 64 * eps)%Q.
Proof.
  intros Hc1 Hc2 Hh Hlo Hhi H1l H1u H2l H2u.
  pose proof eps_pos as He0. pose proof eps_small as He1.
  unfold _v. destruct (fmod_1_Q _ _ _ Hh) as [Hch Hh0].
  set (h := fmod_1 hue) in *. clearbody h.
  destruct ONE_SIXTH_Q as [Hc6 H6]. destruct float_half_Q as [Hc2' Hhalf].
  destruct TWO_THIRD_Q as (Hc3 & H3u & H3l).
  pose proof (fltb_Q h ONE_SIXTH Hch Hc6) as Hlt6.
  pose proof (fltb_Q h float_half Hch Hc2') as Hlt2.
  pose proof (fltb_Q h TWO_THIRD Hch Hc3) as Hlt3.
  set (sixth := ONE_SIXTH) in *. set (half := float_half) in *.
  set (two_third := TWO_THIRD) in *. clearbody sixth half two_third.
  destruct (fltb h sixth); [|destruct (fltb h half);
                              [|destruct (fltb h two_third)]].
  - apply mix_float; [exact Hc1|exact Hc2|exact Hch|lra..].
  - split; [exact Hc2|]. lra.
  - rewrite Hhalf in Hlt2.
    destruct (fsub_Q two_third h 3 Hc3 Hch ltac:(lia) ltac:(lia))
      as (Hcg & HGl & HGu); [rewrite bpow_3; lra..|].
    change (bpow (3 - 52)) with eps in HGl, HGu.
    apply mix_float; [exact Hc1|exact Hc2|exact Hcg|lra..].
  - split; [exact Hc1|]. lra.
Qed.

(** The channels that [colorsys.hls_to_rgb] returns for a full saturation
    and a lightness between 1/2 and 1: between 0 and 1, up to the errors of
    the operations. *)
Lemma hls_to_rgb_Q (h l : float) (k E : Z) :
  finite_below k E h -> k + 2 <= 1023 -> -1074 <= E -> E <= 971 ->
  canonical l -> (1 # 2 <= F2Q l)%Q -> (F2Q l <= 1 + eps)%Q ->
  let '(r, g, b) := hls_to_rgb h l (float_lit 1) in
  (canonical r ∧ (- (1 # 1000) <= F2Q r)%Q ∧ (F2Q r <= 1 + (1 # 1000))%Q) ∧
  (canonical g ∧ (- (1 # 1000) <= F2Q g)%Q ∧ (F2Q g <= 1 + (1 # 1000))%Q) ∧
  (canonical b ∧ (- (1 # 1000) <= F2Q b)%Q ∧ (F2Q b <= 1 + (1 # 1000))%Q).
Proof.
  intros Hh Hk HE0 HE1 Hcl Hl0 Hl1. unfold hls_to_rgb.
  pose proof eps_pos as He0. pose proof eps_small as He1.
  destruct float_lit_1_Q as [Hc1 H1]. destruct float_lit_2_Q as [Hc2 H2].
  destruct float_half_Q as [Hch Hhalf].
  replace (SFeqb (float_lit 1) (float_lit 0)) with false by (by vm_compute).
  set (one := float_lit 1) in *. set (two := float_lit 2) in *.
  set (half := float_half) in *. clearbody one two half.
  set (m2 := if fleb l half then _ else _).
  assert (canonical m2 ∧ (1 - 3 * eps <= F2Q m2)%Q ∧ (F2Q m2 <= 1 + 3 * eps)%Q)
    as (Hcm2 & Hm2l & Hm2u).
  { unfold m2. pose proof (fleb_Q l half Hcl Hch) as Hle.
    destruct (fleb l half).
    - rewrite Hhalf in Hle.
      destruct (fadd_Q one one 3 Hc1 Hc1 ltac:(lia) ltac:(lia))
        as (Hct & Htl & Htu & _); [rewrite bpow_3, H1; lra..|].
      change (bpow (3 - 52)) with eps in Htl, Htu. rewrite H1 in Htl, Htu.
      set (t := fadd one one) in *. clearbody t.
      assert (0 <= (F2Q l - (1 # 2)) * F2Q t)%Q
        by (apply Qmult_le_0_compat; lra).
      assert (0 <= ((1 # 2) - F2Q l) * F2Q t)%Q
        by (apply Qmult_le_0_compat; lra).
      destruct (fmul_Q l t 3 Hcl Hct ltac:(lia) ltac:(lia))
        as (Hcm & Hml & Hmu); [rewrite bpow_3; lra..|].
      change (bpow (3 - 52)) with eps in Hml, Hmu.
      split; [done|]. lra.
    - destruct (fadd_Q l one 3 Hcl Hc1 ltac:(lia) ltac:(lia))
        as (Hca & Hal & Hau & _); [rewrite bpow_3, H1; lra..|].
      change (bpow (3 - 52)) with eps in Hal, Hau. rewrite H1 in Hal, Hau.
      destruct (fmul_Q l one 3 Hcl Hc1 ltac:(lia) ltac:(lia))
        as (Hcb & Hbl & Hbu); [rewrite bpow_3, H1; lra..|].
      change (bpow (3 - 52)) with eps in Hbl, Hbu. rewrite H1 in Hbl, Hbu.
      destruct (fsub_Q _ _ 3 Hca Hcb ltac:(lia) ltac:(lia))
        as (Hcm & Hml & Hmu); [rewrite bpow_3; lra..|].
      change (bpow (3 - 52)) with eps in Hml, Hmu.
      split; [done|]. lra. }
  clearbody m2. set (m1 := fsub _ m2).
  assert (canonical m1 ∧ (- (5 * eps) <= F2Q m1)%Q ∧ (F2Q m1 <= 1 + 7 * eps)%Q)
    as (Hcm1 & Hm1l & Hm1u).
  { destruct (fmul_Q two l 3 Hc2 Hcl ltac:(lia) ltac:(lia))
      as (Hcc & Hcl' & Hcu); [rewrite bpow_3, H2; lra..|].
    change (bpow (3 - 52)) with eps in Hcl', Hcu. rewrite H2 in Hcl', Hcu.
    destruct (fsub_Q _ m2 3 Hcc Hcm2 ltac:(lia) ltac:(lia))
      as (Hcm & Hml & Hmu); [rewrite bpow_3; lra..|].
    change (bpow (3 - 52)) with eps in Hml, Hmu.
    split; [done|]. fold m1 in Hml, Hmu. lra. }
  clearbody m1.
  assert (∀ hue k' E', finite_below k' E' hue ->
            canonical (_v m1 m2 hue) ∧
            (- (1 # 1000) <= F2Q (_v m1 m2 hue))%Q ∧
            (F2Q (_v m1 m2 hue) <= 1 + (1 # 1000))%Q) as Hv.
  { intros hue k' E' Hhue.
    destruct (_v_Q m1 m2 hue k' E' (- (5 * eps)) (1 + 7 * eps))
      as (Hc & Hl & Hu); [done|done|done|lra..|].
    split; [done|]. lra. }
  split; [|split].
  - eapply Hv.
    apply (fadd_below (Z.max k 0) 0 (Z.max k 0 + 2) (Z.max (Z.max E 0) (Z.max k 0 - 51)));
      [eapply finite_below_mono; [exact Hh|lia..]
      |eapply finite_below_mono; [exact ONE_THIRD_below|lia..]|lia..].
  - exact (Hv h k E Hh).
  - eapply Hv.
    apply (fsub_below (Z.max k 0) 0 (Z.max k 0 + 2) (Z.max (Z.max E 0) (Z.max k 0 - 51)));
      [eapply finite_below_mono; [exact Hh|lia..]
      |eapply finite_below_mono; [exact ONE_THIRD_below|lia..]|lia..].
Qed.

(** *** The digits of a channel *)

Lemma format_02x_two_hex (n : Z) :
  0 <= n <= 255 -> two_hex (lit (format_02x n)) = true.
Proof.
  intros Hn.
  assert (forallb (λ k, two_hex (lit (format_02x (Z.of_nat k)))) (seq 0 256)
          = true) as H by (vm_compute; reflexivity).
  rewrite forallb_forall in H. specialize (H (Z.to_nat n)).
  rewrite Z2Nat.id in H by lia. apply H. apply in_seq. lia.
Qed.

Lemma rgb_code_of_channels (r g b : Z) :
  0 <= r <= 255 -> 0 <= g <= 255 -> 0 <= b <= 255 ->
  is_rgb_code (lit "#" ++ lit (format_02x r) ++ lit (format_02x g) ++
               lit (format_02x b)) = true.
Proof.
  intros Hr Hg Hb.
  pose proof (format_02x_two_hex r Hr) as H1.
  pose proof (format_02x_two_hex g Hg) as H2.
  pose proof (format_02x_two_hex b Hb) as H3.
  destruct (lit (format_02x r)) as [|r1 [|r2 [|]]]; try discriminate H1.
  destruct (lit (format_02x g)) as [|g1 [|g2 [|]]]; try discriminate H2.
  destruct (lit (format_02x b)) as [|b1 [|b2 [|]]]; try discriminate H3.
  cbn [two_hex] in *.
  apply andb_prop in H1 as [A1 A2]. apply andb_prop in H2 as [A3 A4].
  apply andb_prop in H3 as [A5 A6].
  change (lit "#") with [35%N]. cbn [app is_rgb_code length forallb].
  by rewrite A1, A2, A3, A4, A5, A6.
Qed.

Lemma bpow_m43 : (bpow (9 - 52) <= 1 # 1000)%Q.
Proof. vm_compute. discriminate. Qed.

Lemma bpow_9 : (bpow 9 == 512)%Q.
Proof. reflexivity. Qed.

Lemma channel_int (c : float) :
  canonical c -> (- (1 # 1000) <= F2Q c)%Q -> (F2Q c <= 1 + (1 # 1000))%Q ->
  ∃ n, int_of_float (fmul (float_lit 255) c) = Ok n ∧ 0 <= n <= 255.
Proof.
  intros Hc Hl Hu. destruct float_lit_255_Q as [Hc255 H255].
  set (k := float_lit 255) in *. clearbody k.
  pose proof bpow_m43 as He.
  destruct (fmul_Q k c 9 Hc255 Hc ltac:(lia) ltac:(lia)) as (Hcm & Hml & Hmu);
    [rewrite bpow_9, H255; lra..|].
  rewrite H255 in Hml, Hmu.
  apply int_of_float_Q; [exact Hcm|lra|lra].
Qed.

Lemma eps_51 : (bpow (-51) <= eps)%Q.
Proof. apply bpow_le. lia. Qed.

(** For the counts of a chunk, non-negative and below [2 ^ 1000],
    [_color] returns a code [#rrggbb] of three channels between 0 and 255,
    each of two hexadecimal digits. *)
Theorem color_is_rgb_code (self : HTMLWriter) (stats : Stats) :
  0 <= specialized stats < 2 ^ 1000 ->
  0 <= adaptive stats < 2 ^ 1000 ->
  0 <= unquickened stats < 2 ^ 1000 ->
  ∃ color r g b,
    _color self stats = Ok color ∧
    color = lit "#" ++ lit (format_02x r) ++ lit (format_02x g) ++
            lit (format_02x b) ∧
    0 <= r <= 255 ∧ 0 <= g <= 255 ∧ 0 <= b <= 255 ∧
    is_rgb_code color = true.
Proof.
  intros Hs Ha Hu.
  enough (∃ r g b,
            _color self stats =
              Ok (lit "#" ++ lit (format_02x r) ++ lit (format_02x g) ++
                  lit (format_02x b)) ∧
            0 <= r <= 255 ∧ 0 <= g <= 255 ∧ 0 <= b <= 255)
    as (r & g & b & Hc & Hr & Hg & Hb).
  { eexists _, r, g, b. split; [exact Hc|]. split; [reflexivity|].
    split; [exact Hr|]. split; [exact Hg|]. split; [exact Hb|].
    by apply rgb_code_of_channels. }
  unfold _color.
  destruct (specialized stats + adaptive stats =? 0) eqn:Hq.
  { exists 255, 255, 255. split; [vm_compute; reflexivity|lia]. }
  apply Z.eqb_neq in Hq.
  assert (2 ^ 1001 = 2 ^ 1000 * 2) as H2 by (vm_compute; reflexivity).
  rewrite int_truediv_1_3. cbn [mbind result_bind]. unfold fmul_int.
  destruct (float_of_int_below (specialized stats) 1000) as (y & -> & Hy & _);
    [lia|lia|]. cbn [mbind result_bind].
  assert (finite_below 1002 971 (fmul ONE_THIRD y)) as Hhue0.
  { apply (fmul_below 0 0 1001 971 1002 971);
      [exact ONE_THIRD_below|done|lia..]. }
  unfold fdiv_int.
  destruct (float_of_int_below (specialized stats + adaptive stats) 1001)
    as (q & -> & Hq' & Hqa); [lia|lia|]. cbn [mbind result_bind].
  specialize (Hqa ltac:(lia)).
  assert (finite_below 1003 971 (fdiv (fmul ONE_THIRD y) q)) as Hhue1.
  { apply (fdiv_below 1002 971 1 1003 971); [done|done|lia..]. }
  destruct q as [sq|sq| |sq mq eq]; [destruct Hqa..|].
  cbn [mbind result_bind].
  set (hue := if _blue self then _ else _).
  assert (finite_below 1003 971 hue) as Hhue.
  { unfold hue. destruct (_blue self); [by apply fneg_below|done]. }
  clearbody hue.
  rewrite int_truediv_1_2. cbn [mbind result_bind].
  destruct (int_truediv_Q (unquickened stats)
              (specialized stats + adaptive stats + unquickened stats))
    as (ratio & -> & Hcr & Hr0 & Hr1); [lia|lia|]. cbn [mbind result_bind].
  rewrite float_of_int_1. cbn [mbind result_bind].
  pose proof eps_51 as He51.
  assert (canonical (pymax float_half ratio) ∧
          (1 # 2 <= F2Q (pymax float_half ratio))%Q ∧
          (F2Q (pymax float_half ratio) <= 1 + eps)%Q) as (Hcl & Hl0 & Hl1).
  { destruct float_half_Q as [Hch Hhalf].
    pose proof (fltb_Q float_half ratio Hch Hcr) as Hlt. unfold pymax.
    set (half := float_half) in *. clearbody half.
    pose proof eps_pos.
    destruct (fltb half ratio).
    - split; [exact Hcr|]. lra.
    - split; [exact Hch|]. lra. }
  set (l := pymax float_half ratio) in *. clearbody l.
  pose proof (hls_to_rgb_Q hue l 1003 971
                Hhue ltac:(lia) ltac:(lia) ltac:(lia) Hcl Hl0 Hl1) as Hrgb.
  destruct (hls_to_rgb hue l (float_lit 1)) as [[r g] b].
  destruct Hrgb as ((Hcr' & Hrl & Hru) & (Hcg & Hgl & Hgu) & (Hcb & Hbl & Hbu)).
  destruct (channel_int r Hcr' Hrl Hru) as (nr & -> & Hnr).
  cbn [mbind result_bind].
  destruct (channel_int g Hcg Hgl Hgu) as (ng & -> & Hng).
  cbn [mbind result_bind].
  destruct (channel_int b Hcb Hbl Hbu) as (nb & -> & Hnb).
  cbn [mbind result_bind]. exists nr, ng, nb.
  split; [reflexivity|]. split; [exact Hnr|]. split; [exact Hng|exact Hnb].
Qed.

Lemma color_is_rgb_code_witness :
  ∃ color r g b,
    _color (HTMLWriter_init false false) (mkStats 3 1 2) = Ok color ∧
    color = lit "#" ++ lit (format_02x r) ++ lit (format_02x g) ++
            lit (format_02x b) ∧
    0 <= r <= 255 ∧ 0 <= g <= 255 ∧ 0 <= b <= 255 ∧
    is_rgb_code color = true.
Proof.
  apply (color_is_rgb_code (HTMLWriter_init false false) (mkStats 3 1 2));
    (split; [discriminate|reflexivity]).
Defined.
